(** * Shadow-Hunting-Attack: co-residency inference scripts

    A shallow embedding of the inference logic of the scripts:

    - [Server-Coverage-Identifier/iteration_test.py]            (module [PerURL])
    - [Attacker-Instances-Proliferation/scaled-out-instances-group.py]
                                                                 (module [SingleURL])
    - [.../target_victim_localization/target_victim_locator.py]
                                              (modules [Locator], [LocatorMain])
    - [.../target_victim_localization/prepare_attacker_sets.py] (module [Prepare])
    - [.../WEBSITE_INSTANCE_ID-image/request.py], its list of URLs
                                                                 (module [Discovery])

    Conventions of the embedding.

    - Python [str] values are [string]s; a character stands for the code
      point with the same number (0..255).
    - Python [int]s are [Z]. Python [float]s are exact rationals [Q], with
      [float("inf")] as a separate constructor; rounding is not modelled.
    - The network, the clock and the thread pools are an explicit world
      [W] passed through every call (class [Net]).
    - The iteration order of a Python [set] and the completion order of a
      thread pool are arbitrary: they are parameters (class [PyOrder]) that
      are only known to enumerate the same elements.
    - A [while] loop that may run forever takes a bound on its number of
      iterations and answers [OutOfFuel] when the bound is reached.
    - The loops of the partitioners are modelled with the integer that
      [int] returns; an interpreter with a limit on the digits of a
      conversion raises on a longer run of digits, and module [Digits] has
      the parsers with this exception. *)

From Stdlib Require Import ZArith QArith String Ascii List Lia Lqa.
From stdpp Require Import gmap strings list fin_maps sets sorting pretty.

Open Scope string_scope.
Open Scope Z_scope.

#[local] Set Warnings "-clear-no-such-hyp".

(** ** Text: character classes, [splitlines], and the two patterns *)

Module Text.

(** [\d] on code points below 256: the ASCII digits. *)
Definition is_digit (c : ascii) : bool :=
  let n := N_of_ascii c in ((48 <=? n) && (n <=? 57))%N.

(** [\s] of a [str] pattern on code points below 256. *)
Definition is_space (c : ascii) : bool :=
  let n := N_of_ascii c in
  (((9 <=? n) && (n <=? 13)) || ((28 <=? n) && (n <=? 32))
   || (n =? 133) || (n =? 160))%N.

(** The line boundaries of [str.splitlines] on code points below 256. *)
Definition is_linebreak (c : ascii) : bool :=
  let n := N_of_ascii c in
  (((10 <=? n) && (n <=? 13)) || ((28 <=? n) && (n <=? 30)) || (n =? 133))%N.

Definition CR : ascii := ascii_of_N 13.
Definition LF : ascii := ascii_of_N 10.

(** [text.splitlines()]: [cur] is the line being read and [started] tells
    whether a character of it was seen; a final line break opens no new line,
    and carriage return + line feed is one boundary. *)
Fixpoint splitlines_from (cur : string) (started : bool) (s : string)
  : list string :=
  match s with
  | EmptyString => if started then [cur] else []
  | String c rest =>
      if is_linebreak c then
        match rest with
        | String c' rest' =>
            if Ascii.eqb c CR && Ascii.eqb c' LF
            then cur :: splitlines_from "" false rest'
            else cur :: splitlines_from "" false rest
        | EmptyString => cur :: splitlines_from "" false rest
        end
      else splitlines_from (cur ++ String c "") true rest
  end.

Definition splitlines (s : string) : list string := splitlines_from "" false s.

(** A literal of a pattern: the rest of [s] after the prefix [p]. *)
Fixpoint literal (p s : string) : option string :=
  match p with
  | EmptyString => Some s
  | String a p' =>
      match s with
      | String b s' => if Ascii.eqb a b then literal p' s' else None
      | EmptyString => None
      end
  end.

(** The longest prefix of [s] whose characters are all in the class [f],
    and what follows it. *)
Fixpoint span (f : ascii -> bool) (s : string) : string * string :=
  match s with
  | String c s' =>
      if f c then let '(a, b) := span f s' in (String c a, b) else ("", s)
  | EmptyString => ("", "")
  end.

(** [c+] for a class [c], greedy. In both patterns below the character that
    must follow a [+] is outside its class, so the longest run is the only
    one that can match. *)
Definition plus (f : ascii -> bool) (s : string) : option (string * string) :=
  match span f s with
  | (EmptyString, _) => None
  | (a, b) => Some (a, b)
  end.

(** [\s+is\s+(\d+)], the common tail of the two patterns: group 1 and the
    text after the match. *)
Definition is_value (s : string) : option (string * string) :=
  '(_, r1) ← plus is_space s;
  r2 ← literal "is" r1;
  '(_, r3) ← plus is_space r2;
  plus is_digit r3.

(** [count\[\d+\]\s+is\s+(\d+)] matched at the start of [s]. *)
Definition count_k_here (s : string) : option (string * string) :=
  r1 ← literal "count[" s;
  '(_, r2) ← plus is_digit r1;
  r3 ← literal "]" r2;
  is_value r3.

(** [count\[0\]\s+is\s+(\d+)] matched at the start of [s]. *)
Definition count_0_here (s : string) : option (string * string) :=
  r1 ← literal "count[0]" s;
  is_value r1.

(** [re.search]: the match at the leftmost position that has one. *)
Fixpoint re_search {A} (here : string -> option A) (s : string) : option A :=
  match here s with
  | Some m => Some m
  | None =>
      match s with
      | String _ s' => re_search here s'
      | EmptyString => None
      end
  end.

Definition digit_value (c : ascii) : Z := Z.of_N (N_of_ascii c) - 48.

(** The integer that [int(m.group(1))] returns for a run of digits. An
    interpreter with a limit on the digits of a conversion raises instead of
    returning when the run is too long: module [Digits] has the conversion
    that can fail, and the parsers built on it. *)
Fixpoint int_from (acc : Z) (s : string) : Z :=
  match s with
  | String c s' => int_from (10 * acc + digit_value c) s'
  | EmptyString => acc
  end.

Definition int (s : string) : Z := int_from 0 s.

End Text.

(** ** HTTP results and metrics *)

(** What [requests.get] gives: a response with its status and body, or a
    [requests.RequestException] (connection error, timeout). *)
Inductive http_result :=
| Response (status : Z) (text : string)
| RequestException.

(** [resp.raise_for_status()] raises [HTTPError], itself a
    [RequestException], for the statuses 400 to 599. *)
Definition raises_for_status (status : Z) : bool :=
  (400 <=? status) && (status <? 600).

(** The body of a response that passes [raise_for_status], or [None] when
    the [except requests.RequestException] branch is taken. *)
Definition checked_text (r : http_result) : option string :=
  match r with
  | Response st txt => if raises_for_status st then None else Some txt
  | RequestException => None
  end.

(** The world the scripts act on. *)
Class Net (W : Type) := {
  (** [requests.get(url, timeout=t)] *)
  requests_get : string -> Q -> W -> http_result * W;
  (** [executor.submit(call_lock, url)]: a GET left running in a worker
      thread, its result never awaited *)
  submit_get : string -> Q -> W -> W;
  (** [time.sleep(t)] *)
  sleep : Q -> W -> W;
  (** [time.perf_counter()] *)
  perf_counter : W -> Q * W;
}.

(** The orders Python leaves open. *)
Class PyOrder := {
  (** the order in which a [set] of strings is iterated *)
  set_iter : gset string -> list string;
  set_iter_perm : forall s, set_iter s ≡ₚ elements s;
  (** the order in which the futures of a batch complete *)
  as_completed : list string -> list string;
  as_completed_perm : forall l, as_completed l ≡ₚ l;
}.

(** One admissible choice of orders: stdpp's enumeration, and completion in
    submission order. *)
Definition elements_order : PyOrder :=
  {| set_iter := elements;
     set_iter_perm := fun s => reflexivity (elements s);
     as_completed := fun l => l;
     as_completed_perm := fun l => reflexivity l |}.

(** Another one: alphabetical order. *)
Definition sorted_order : PyOrder :=
  {| set_iter := fun s => merge_sort String.le (elements s);
     set_iter_perm := fun s => merge_sort_Permutation String.le (elements s);
     as_completed := fun l => l;
     as_completed_perm := fun l => reflexivity l |}.

(** A metric: a sum of counters, or [float("inf")]. *)
Inductive metric :=
| Fin (n : Z)
| Inf.

Definition is_inf (m : metric) : bool :=
  match m with Inf => true | Fin _ => false end.

(** How a call that may raise ends. *)
Inductive result (A : Type) :=
| Ok (a : A)
| Exn (exn : string).
Arguments Ok {A} a.
Arguments Exn {A} exn.

(** How a loop of bounded length ends. *)
Inductive outcome (A : Type) :=
| Returned (a : A)
| Raised (exn : string)
| OutOfFuel.
Arguments Returned {A} a.
Arguments Raised {A} exn.
Arguments OutOfFuel {A}.

(** [for x in xs: remaining.discard(x)] *)
Definition discard_all (remaining : gset string) (xs : list string)
  : gset string :=
  foldl (fun r x => r ∖ {[x]}) remaining xs.

(** ** iteration_test.py: one URL per instance *)

Module PerURL.

Definition LOCK_ENDPOINT : string := "lock".
Definition CHECK_ENDPOINT : string := "check".
Definition REQUEST_TIMEOUT : Q := 10.

Definition execute_endpoint `{Net W} (base_url endpoint : string) (w : W)
  : string * W :=
  let full_url := base_url ++ endpoint in
  let '(r, w1) := requests_get full_url REQUEST_TIMEOUT w in
  match checked_text r with
  | Some text => (text, w1)
  | None => ("", w1)
  end.

Definition extract_count (response_text : string) : option Z :=
  match Text.re_search Text.count_0_here response_text with
  | None => None
  | Some (g1, _) => Some (Text.int g1)
  end.

(** A [dict] with string keys, as the list of its items in insertion
    order; assigning to a key that is present keeps its place. *)
Fixpoint dict_set {V} (k : string) (v : V) (d : list (string * V))
  : list (string * V) :=
  match d with
  | [] => [(k, v)]
  | (k', v') :: d' =>
      if bool_decide (k = k') then (k, v) :: d' else (k', v') :: dict_set k v d'
  end.

Fixpoint dict_get {V} (k : string) (d : list (string * V)) : option V :=
  match d with
  | [] => None
  | (k', v') :: d' => if bool_decide (k = k') then Some v' else dict_get k d'
  end.

(** The body of the pool in [run_iteration_for_lock]: one [/check] per URL,
    stored as its future completes. *)
Fixpoint check_each `{Net W} (urls : list string)
  (results : list (string * option Z)) (w : W)
  : list (string * option Z) * W :=
  match urls with
  | [] => (results, w)
  | url :: urls' =>
      let '(resp_text, w1) := execute_endpoint url CHECK_ENDPOINT w in
      check_each urls' (dict_set url (extract_count resp_text) results) w1
  end.

Definition run_iteration_for_lock `{Net W} `{PyOrder}
  (lock_url : string) (check_urls : list string) (w : W)
  : list (string * option Z) * W :=
  let '(_, w1) := execute_endpoint lock_url LOCK_ENDPOINT w in
  let w2 := sleep (1 # 10) w1 in
  match check_urls with
  | [] => ([], w2)
  | _ => check_each (as_completed check_urls) [] w2
  end.

Record group := { lock_url : string; members : list string }.

(** [count_value is not None and count_value >= MEMCHECK_THRESHOLD] *)
Definition reaches (threshold : Z) (count_value : option Z) : bool :=
  match count_value with
  | Some c => threshold <=? c
  | None => false
  end.

(** The state of the [while remaining:] loop. *)
Record state (W : Type) := {
  remaining : gset string;
  groups : list group;
  world : W;
}.
Arguments remaining {W} _.
Arguments groups {W} _.
Arguments world {W} _.

(** Round 1 of an iteration: the candidates, in the order of the items of
    the result dict. *)
Definition round1_candidates (threshold : Z)
  (check_results_round1 : list (string * option Z)) : list string :=
  (filter (fun kv => reaches threshold kv.2 = true) check_results_round1).*1.

(** Round 2 of an iteration: the candidates that are above the threshold
    again. *)
Definition round2_verified (threshold : Z) (candidate_urls : list string)
  (check_results_round2 : list (string * option Z)) : list string :=
  filter (fun url =>
            reaches threshold
              (mjoin (dict_get url check_results_round2)) = true)
         candidate_urls.

(** How one turn of the [while remaining:] loop ends. *)
Inductive turn (W : Type) :=
| Last_one (st : state W)
    (* one instance left: singleton group, then [break] *)
| No_candidate (st : state W)
    (* nobody at the threshold in Round 1: singleton group, [continue] *)
| Reverified (candidate_urls verified_members : list string) (st : state W)
    (* Round 2 was run and its group committed *)
| Stop_iteration.
    (* [next(iter(remaining))] on an empty set *)
Arguments Last_one {W} st.
Arguments No_candidate {W} st.
Arguments Reverified {W} candidate_urls verified_members st.
Arguments Stop_iteration {W}.

(** The state after the group of [lock_url] with [group_members] is
    appended and its members are discarded from [remaining]. *)
Definition commit {W} (st : state W) (lock_url : string)
  (group_members : list string) (w : W) : state W :=
  {| remaining := discard_all (remaining st) group_members;
     groups := groups st ++
       [{| lock_url := lock_url; members := group_members |}];
     world := w |}.

(** The body of the [while remaining:] loop. *)
Definition iteration `{Net W} `{PyOrder} (threshold : Z) (st : state W)
  : turn W :=
  match set_iter (remaining st) with
  | [] => Stop_iteration
  | lock_url :: _ =>
      let check_urls :=
        filter (fun u => u ≠ lock_url) (set_iter (remaining st)) in
      match check_urls with
      | [] => Last_one (commit st lock_url [lock_url] (world st))
      | _ =>
          let '(check_results_round1, w1) :=
            run_iteration_for_lock lock_url check_urls (world st) in
          let candidate_urls :=
            round1_candidates threshold check_results_round1 in
          match candidate_urls with
          | [] => No_candidate (commit st lock_url [lock_url] w1)
          | _ =>
              let '(check_results_round2, w2) :=
                run_iteration_for_lock lock_url candidate_urls w1 in
              let verified_members :=
                round2_verified threshold candidate_urls
                  check_results_round2 in
              let group_members :=
                set_iter (list_to_set (lock_url :: verified_members)) in
              Reverified candidate_urls verified_members
                (commit st lock_url group_members w2)
          end
      end
  end.

(** The [while remaining:] loop of [identify_server_coverage]. *)
Fixpoint coverage_loop `{Net W} `{PyOrder} (fuel : nat) (threshold : Z)
  (st : state W) : outcome (state W) :=
  if bool_decide (remaining st = ∅) then Returned st
  else
    match fuel with
    | O => OutOfFuel
    | S fuel' =>
        match iteration threshold st with
        | Last_one st' => Returned st'
        | No_candidate st' => coverage_loop fuel' threshold st'
        | Reverified _ _ st' => coverage_loop fuel' threshold st'
        | Stop_iteration => Raised "StopIteration"
        end
    end.

(** [identify_server_coverage(instance_urls)] with the module's
    [MEMCHECK_THRESHOLD]; the result is the returned [groups] and the world
    the call leaves. *)
Definition identify_server_coverage `{Net W} `{PyOrder} (fuel : nat)
  (MEMCHECK_THRESHOLD : option Z) (instance_urls : list string) (w : W)
  : outcome (list group * W) :=
  match MEMCHECK_THRESHOLD with
  | None => Returned ([], w)
  | Some threshold =>
      match coverage_loop fuel threshold
              {| remaining := list_to_set instance_urls;
                 groups := [];
                 world := w |} with
      | Returned st => Returned (groups st, world st)
      | Raised e => Raised e
      | OutOfFuel => OutOfFuel
      end
  end.

End PerURL.

(** ** scaled-out-instances-group.py: one URL for all instances *)

Module SingleURL.

Definition BASE_URL : string := "https://<url>".
Definition LOCK_EP : string := "/lock".
Definition CHECK_EP : string := "/check".
Definition ID_EP : string := "/instance_id".
Definition NUM_CHECK_REQUESTS : nat := 60.
Definition REQUEST_TIMEOUT : Q := 10.

(** What [resp.json()] followed by [data.get("instance_id", "unknown")] and
    [str] makes of a body (a decoder that fails in another way, as on a
    document nested too deeply, is not modelled). *)
Inductive decoded :=
| NotJson                (* [resp.json()] raises; requests reports it as a
                            [RequestException] *)
| NotObject              (* the document is no object: [data.get] raises *)
| NoKey                  (* an object without the key *)
| Key (value : string).  (* [str] of the value under the key *)

Class Json := { json_instance_id : string -> decoded }.

Definition call_instance_id `{Net W} `{Json} (w : W) : result (string * W) :=
  let '(r, w1) := requests_get (BASE_URL ++ ID_EP) REQUEST_TIMEOUT w in
  match checked_text r with
  | None => Ok ("unknown", w1)
  | Some body =>
      match json_instance_id body with
      | NotJson => Ok ("unknown", w1)
      | NotObject => Exn "AttributeError"
      | NoKey => Ok ("unknown", w1)
      | Key value => Ok (value, w1)
      end
  end.

Definition call_lock_and_get_instance_id `{Net W} `{Json} (w : W)
  : result (string * W) :=
  let '(_, w1) := requests_get (BASE_URL ++ LOCK_EP) REQUEST_TIMEOUT w in
  call_instance_id w1.

Record measurement := { instance_id : string; sum_count : metric }.

(** Step 2 of [call_check_and_get_metric_and_id]: what one line adds to
    [counts], and the whole list. *)
Definition line_count (line : string) : option Z :=
  match Text.re_search Text.count_k_here line with
  | Some (g1, _) => Some (Text.int g1)
  | None => None
  end.

Definition parse_counts (text : string) : list Z :=
  omap line_count (Text.splitlines text).

Definition sum_of_counts (text : string) : metric :=
  match parse_counts text with
  | [] => Inf
  | counts => Fin (foldl Z.add 0 counts)
  end.

Definition call_check_and_get_metric_and_id `{Net W} `{Json} (w : W)
  : result (measurement * W) :=
  let '(r, w1) := requests_get (BASE_URL ++ CHECK_EP) REQUEST_TIMEOUT w in
  match checked_text r with
  | None => Ok ({| instance_id := "unknown"; sum_count := Inf |}, w1)
  | Some text =>
      let sum_count := sum_of_counts text in
      match call_instance_id w1 with
      | Ok (inst_id, w2) =>
          Ok ({| instance_id := inst_id; sum_count := sum_count |}, w2)
      | Exn e => Exn e
      end
  end.

(** The pool of step 2 of an iteration: [n] calls, their results appended
    as they complete. *)
Fixpoint collect_measurements `{Net W} `{Json} (n : nat) (w : W)
  : result (list measurement * W) :=
  match n with
  | O => Ok ([], w)
  | S n' =>
      match call_check_and_get_metric_and_id w with
      | Ok (result, w1) =>
          match collect_measurements n' w1 with
          | Ok (measurements, w2) => Ok (result :: measurements, w2)
          | Exn e => Exn e
          end
      | Exn e => Exn e
      end
  end.

(** Python's [a < b] and [max(a, b)] on metrics. *)
Definition metric_lt (a b : metric) : bool :=
  match a, b with
  | Fin x, Fin y => x <? y
  | Fin _, Inf => true
  | Inf, _ => false
  end.

Definition metric_max (a b : metric) : metric :=
  if metric_lt a b then b else a.

(** [metric >= SERVER_SHARING_THRESHOLD] *)
Definition metric_ge (m : metric) (threshold : Q) : bool :=
  match m with
  | Fin n => Qle_bool threshold (inject_Z n)
  | Inf => true
  end.

(** One turn of the loop of step 3. *)
Definition record_measurement (remaining : gset string)
  (inst_metric : gmap string metric) (m : measurement) : gmap string metric :=
  let inst_id := instance_id m in
  let sum_count := sum_count m in
  if bool_decide (inst_id ∉ remaining) then inst_metric
  else if is_inf sum_count then inst_metric
  else
    match inst_metric !! inst_id with
    | None => <[inst_id := sum_count]> inst_metric
    | Some old => <[inst_id := metric_max old sum_count]> inst_metric
    end.

(** Step 3: the metric map of the instances that are still remaining. *)
Definition build_inst_metric (remaining : gset string)
  (measurements : list measurement) : gmap string metric :=
  foldl (record_measurement remaining) ∅ measurements.

(** Step 4: the lock instance and every instance at or above the
    threshold. *)
Definition form_group (lock_instance_id : string) (threshold : Q)
  (inst_metric : gmap string metric) : gset string :=
  foldl (fun group '(inst_id, metric) =>
           if bool_decide (inst_id = lock_instance_id) then group
           else if metric_ge metric threshold then group ∪ {[inst_id]}
           else group)
        {[lock_instance_id]} (map_to_list inst_metric).

Record state (W : Type) := {
  remaining : gset string;
  groups : list (list string);
  world : W;
}.
Arguments remaining {W} _.
Arguments groups {W} _.
Arguments world {W} _.

(** How one turn of the [while remaining:] loop ends. *)
Inductive turn (W : Type) :=
| Retry (w : W)                 (* [continue] before step 2 *)
| Commit (group : list string) (st : state W)
| Crash (exn : string).
Arguments Retry {W} w.
Arguments Commit {W} group st.
Arguments Crash {W} exn.

(** The body of the [while remaining:] loop. *)
Definition iteration `{Net W} `{Json} `{PyOrder} (threshold : Q)
  (st : state W) : turn W :=
  match call_lock_and_get_instance_id (world st) with
  | Exn e => Crash e
  | Ok (lock_instance_id, w1) =>
      if bool_decide (lock_instance_id = "unknown") then Retry w1
      else if bool_decide (lock_instance_id ∉ remaining st) then Retry w1
      else
        match collect_measurements NUM_CHECK_REQUESTS w1 with
        | Exn e => Crash e
        | Ok (measurements, w2) =>
            let inst_metric :=
              build_inst_metric (remaining st) measurements in
            let group :=
              set_iter (form_group lock_instance_id threshold inst_metric) in
            Commit group
              {| remaining := discard_all (remaining st) group;
                 groups := groups st ++ [group];
                 world := w2 |}
        end
  end.

Fixpoint sharing_loop `{Net W} `{Json} `{PyOrder} (fuel : nat) (threshold : Q)
  (st : state W) : outcome (state W) :=
  if bool_decide (remaining st = ∅) then Returned st
  else
    match fuel with
    | O => OutOfFuel
    | S fuel' =>
        match iteration threshold st with
        | Retry w1 =>
            sharing_loop fuel' threshold
              {| remaining := remaining st; groups := groups st; world := w1 |}
        | Commit _ st' => sharing_loop fuel' threshold st'
        | Crash e => Raised e
        end
    end.

(** [identify_server_sharing(all_instance_ids)] with the module's
    [SERVER_SHARING_THRESHOLD]. *)
Definition identify_server_sharing `{Net W} `{Json} `{PyOrder} (fuel : nat)
  (SERVER_SHARING_THRESHOLD : option Q) (all_instance_ids : list string)
  (w : W) : outcome (list (list string) * W) :=
  let remaining0 : gset string := list_to_set all_instance_ids in
  let groups0 : list (list string) := [] in
  match SERVER_SHARING_THRESHOLD with
  | None => Returned (groups0, w)
  | Some threshold =>
      match sharing_loop fuel threshold
              {| remaining := remaining0; groups := groups0; world := w |} with
      | Returned st => Returned (groups st, world st)
      | Raised e => Raised e
      | OutOfFuel => OutOfFuel
      end
  end.

End SingleURL.

(** ** The limit on the digits of an integer conversion *)

Module Digits.

(** [sys.get_int_max_str_digits()]: 4300 unless the interpreter is
    configured otherwise, 0 when the limit is off (and for the interpreters
    that have none). Runs of at most 640 digits are never refused. *)
Definition DEFAULT_MAX_STR_DIGITS : nat := 4300.
Definition THRESHOLD : nat := 640.

(** [int(s)] returns for the run of digits [s]. *)
Definition within (max_str_digits : nat) (s : string) : bool :=
  (max_str_digits =? 0)%nat
  || (String.length s <=? max_str_digits)%nat
  || (String.length s <=? THRESHOLD)%nat.

(** [int(s)] for a run of digits [s]. *)
Definition int (max_str_digits : nat) (s : string) : result Z :=
  if within max_str_digits s then Ok (Text.int s) else Exn "ValueError".

(** [extract_count] of iteration_test.py; nothing catches the exception. *)
Definition extract_count (max_str_digits : nat) (response_text : string)
  : result (option Z) :=
  match Text.re_search Text.count_0_here response_text with
  | None => Ok None
  | Some (g1, _) =>
      match int max_str_digits g1 with
      | Ok n => Ok (Some n)
      | Exn e => Exn e
      end
  end.

(** The conversion that a line asks for returns. *)
Definition line_within (max_str_digits : nat) (line : string) : bool :=
  match Text.re_search Text.count_k_here line with
  | Some (g1, _) => within max_str_digits g1
  | None => true
  end.

(** Step 2 of [call_check_and_get_metric_and_id]: the loop over the
    lines, which ends at the first conversion that raises. *)
Fixpoint counts_of_lines (max_str_digits : nat) (lines : list string)
  : result (list Z) :=
  match lines with
  | [] => Ok []
  | line :: lines' =>
      match Text.re_search Text.count_k_here line with
      | None => counts_of_lines max_str_digits lines'
      | Some (g1, _) =>
          match int max_str_digits g1 with
          | Exn e => Exn e
          | Ok n =>
              match counts_of_lines max_str_digits lines' with
              | Ok counts => Ok (n :: counts)
              | Exn e => Exn e
              end
          end
      end
  end.

Definition sum_of_counts (max_str_digits : nat) (text : string)
  : result metric :=
  match counts_of_lines max_str_digits (Text.splitlines text) with
  | Exn e => Exn e
  | Ok [] => Ok Inf
  | Ok counts => Ok (Fin (foldl Z.add 0 counts))
  end.

(** [call_check_and_get_metric_and_id]: the body is parsed before the
    instance is identified, outside the [try]. *)
Definition call_check_and_get_metric_and_id `{Net W} `{SingleURL.Json}
  (max_str_digits : nat) (w : W) : result (SingleURL.measurement * W) :=
  let '(r, w1) :=
    requests_get (SingleURL.BASE_URL ++ SingleURL.CHECK_EP)
      SingleURL.REQUEST_TIMEOUT w in
  match checked_text r with
  | None =>
      Ok ({| SingleURL.instance_id := "unknown";
             SingleURL.sum_count := Inf |}, w1)
  | Some text =>
      match sum_of_counts max_str_digits text with
      | Exn e => Exn e
      | Ok sum_count =>
          match SingleURL.call_instance_id w1 with
          | Ok (inst_id, w2) =>
              Ok ({| SingleURL.instance_id := inst_id;
                     SingleURL.sum_count := sum_count |}, w2)
          | Exn e => Exn e
          end
      end
  end.

End Digits.

(** ** target_victim_locator.py: localisation of the victim *)

Module Locator.

(** A latency in seconds or [float("inf")]; also the type of the threshold
    given on the command line (a threshold that is not a number is not
    modelled). *)
Inductive latency :=
| Seconds (q : Q)
| LatInf.

(** The command-line arguments the core functions take. *)
Record args := {
  victim_url : string;
  latency_threshold : latency;
  lock_endpoint : string;
  probe_runs : Z;
  victim_timeout : Q;
  lock_timeout : Q;
  lock_warmup : Q;
}.

Definition slash : ascii := "/"%char.

(** [s.lstrip("/")] and [s.rstrip("/")] *)
Fixpoint lstrip_slash (s : string) : string :=
  match s with
  | String c s' => if Ascii.eqb c slash then lstrip_slash s' else s
  | EmptyString => ""
  end.

Fixpoint rstrip_slash (s : string) : string :=
  match s with
  | String c s' =>
      match rstrip_slash s' with
      | EmptyString => if Ascii.eqb c slash then "" else String c ""
      | r => String c r
      end
  | EmptyString => ""
  end.

Definition build_endpoint (base_url endpoint : string) : string :=
  rstrip_slash base_url ++ "/" ++ lstrip_slash endpoint.

(** [sorted(data)] on finite latencies. *)
Fixpoint insert_sorted (x : Q) (l : list Q) : list Q :=
  match l with
  | [] => [x]
  | y :: l' => if Qle_bool x y then x :: l else y :: insert_sorted x l'
  end.

Definition sorted (l : list Q) : list Q := foldr insert_sorted [] l.

(** [statistics.median(data)] for a non-empty [data]. *)
Definition median (data : list Q) : Q :=
  let data := sorted data in
  let n := length data in
  if Nat.odd n then nth (n / 2) data 0%Q
  else
    let i := (n / 2)%nat in
    ((nth (i - 1) data 0 + nth i data 0) / 2)%Q.

(** The loop of [measure_victim_latency]: the list [latencies]. *)
Fixpoint sample_latencies `{Net W} (url : string) (timeout : Q) (runs : nat)
  (w : W) : list latency * W :=
  match runs with
  | O => ([], w)
  | S runs' =>
      let '(start, w1) := perf_counter w in
      let '(r, w2) := requests_get url timeout w1 in
      match checked_text r with
      | None =>
          let '(latencies, w3) := sample_latencies url timeout runs' w2 in
          (LatInf :: latencies, w3)
      | Some _ =>
          let '(end_, w3) := perf_counter w2 in
          let '(latencies, w4) := sample_latencies url timeout runs' w3 in
          (Seconds (end_ - start) :: latencies, w4)
      end
  end.

(** [x == float("inf")] on latencies. *)
Definition is_lat_inf (x : latency) : bool :=
  match x with LatInf => true | Seconds _ => false end.

(** [[x for x in latencies if x != float("inf")]] *)
Definition finite_latencies (latencies : list latency) : list Q :=
  omap (fun x => match x with Seconds q => Some q | LatInf => None end)
       latencies.

Definition measure_victim_latency `{Net W} (url : string) (runs : Z)
  (timeout : Q) (w : W) : latency * W :=
  let '(latencies, w1) := sample_latencies url timeout (Z.to_nat runs) w in
  match finite_latencies latencies with
  | [] => (LatInf, w1)
  | finite => (Seconds (median finite), w1)
  end.

(** [trigger_lock_async]: one GET per instance handed to the pool. *)
Definition trigger_lock_async `{Net W} (instance_urls : list string)
  (lock_endpoint : string) (timeout : Q) (w : W) : W :=
  foldl (fun w u => submit_get (build_endpoint u lock_endpoint) timeout w)
        w instance_urls.

Definition measure_latency_with_lock `{Net W} (a : args)
  (instance_urls : list string) (w : W) : latency * W :=
  match instance_urls with
  | [] => measure_victim_latency (victim_url a) (probe_runs a)
            (victim_timeout a) w
  | _ =>
      let w1 :=
        trigger_lock_async instance_urls (lock_endpoint a) (lock_timeout a) w in
      let w2 := sleep (lock_warmup a) w1 in
      measure_victim_latency (victim_url a) (probe_runs a)
        (victim_timeout a) w2
  end.

(** [probed_median >= latency_threshold] *)
Definition is_above_threshold (probed_median latency_threshold : latency)
  : bool :=
  match probed_median, latency_threshold with
  | LatInf, _ => true
  | Seconds _, LatInf => false
  | Seconds m, Seconds t => Qle_bool t m
  end.

(** An entry of [cpu_sets]; [instances] is [cpu_set.get("instances", [])]. *)
Record cpu_set := {
  cpu_brand : option string;
  parsed_freq : option Q;
  instances : list string;
}.

(** The [for idx, cpu_set in enumerate(cpu_sets)] loop of
    [find_candidate_set], from index [idx] on. *)
Fixpoint find_candidate_set_from `{Net W} (a : args) (idx : Z)
  (cpu_sets : list cpu_set) (w : W) : Z * W :=
  match cpu_sets with
  | [] => (-1, w)
  | cpu_set :: rest =>
      match instances cpu_set with
      | [] => find_candidate_set_from a (idx + 1) rest w
      | insts =>
          let '(probed_median, w1) := measure_latency_with_lock a insts w in
          if is_above_threshold probed_median (latency_threshold a)
          then (idx, w1)
          else find_candidate_set_from a (idx + 1) rest w1
      end
  end.

Definition find_candidate_set `{Net W} (a : args) (cpu_sets : list cpu_set)
  (w : W) : Z * W :=
  find_candidate_set_from a 0 cpu_sets w.

(** The state of the loop of [binary_search_localization]. *)
Record search (W : Type) := {
  candidates : list string;
  step : nat;
  world : W;
}.
Arguments candidates {W} _.
Arguments step {W} _.
Arguments world {W} _.

Fixpoint bisect `{Net W} (fuel : nat) (a : args) (st : search W)
  : outcome (search W) :=
  if bool_decide (1 < length (candidates st))%nat then
    match fuel with
    | O => OutOfFuel
    | S fuel' =>
        let step := S (step st) in
        let mid := (length (candidates st) / 2)%nat in
        let left := take mid (candidates st) in
        let right := drop mid (candidates st) in
        let '(probed_median, w1) := measure_latency_with_lock a left (world st) in
        if is_above_threshold probed_median (latency_threshold a)
        then bisect fuel' a {| candidates := left; step := step; world := w1 |}
        else bisect fuel' a {| candidates := right; step := step; world := w1 |}
    end
  else Returned st.

(** [binary_search_localization]: the returned instance, with the number of
    steps the loop made and the world it leaves. *)
Definition binary_search_localization `{Net W} (fuel : nat) (a : args)
  (instances : list string) (w : W) : outcome (string * nat * W) :=
  match bisect fuel a {| candidates := instances; step := 0; world := w |} with
  | Returned st =>
      match candidates st with
      | x :: _ => Returned (x, step st, world st)
      | [] => Raised "IndexError"
      end
  | Raised e => Raised e
  | OutOfFuel => OutOfFuel
  end.

End Locator.

(** ** The spec's reading of the metric and of its aggregation, for
    comparison *)

Module Spec.

(** Every occurrence of [count[<index>] is <integer>] in the whole body,
    left to right and without overlap, as [re.findall] would list them. *)
Fixpoint occurrences_from (fuel : nat) (s : string) : list Z :=
  match fuel with
  | O => []
  | S fuel' =>
      match Text.count_k_here s with
      | Some (g1, rest) => Text.int g1 :: occurrences_from fuel' rest
      | None =>
          match s with
          | String _ s' => occurrences_from fuel' s'
          | EmptyString => []
          end
      end
  end.

Definition occurrences (body : string) : list Z :=
  occurrences_from (S (String.length body)) body.

(** The sum of all occurrences, and +infinity when there is none. *)
Definition measure_metric (body : string) : metric :=
  match occurrences body with
  | [] => Inf
  | counts => Fin (foldl Z.add 0 counts)
  end.

(** The spec's reading of the Aggregator: the maximum, in Python's order
    on numbers, of every metric observed for [id]. *)
Definition max_observed (id : string)
  (measurements : list SingleURL.measurement) : option metric :=
  foldl (fun acc m =>
           if bool_decide (SingleURL.instance_id m = id) then
             match acc with
             | None => Some (SingleURL.sum_count m)
             | Some old =>
                 Some (SingleURL.metric_max old (SingleURL.sum_count m))
             end
           else acc)
        None measurements.

End Spec.

(** ** What the two patterns mean *)

Module Pattern.
Import Text.

Fixpoint all_chars (f : ascii -> bool) (s : string) : bool :=
  match s with
  | String c s' => f c && all_chars f s'
  | EmptyString => true
  end.

(** [a] is a non-empty run of characters of the class [f]. *)
Definition run (f : ascii -> bool) (a : string) : Prop :=
  a ≠ "" ∧ all_chars f a = true.

(** [s] does not go on with a character of the class [f]. *)
Definition stops (f : ascii -> bool) (s : string) : Prop :=
  match s with
  | String c _ => f c = false
  | EmptyString => True
  end.

(** [s] starts with an occurrence of [count[<k>]<ws>is<ws><g>], where the
    index [k] is as [index] wants it and [g] is followed by [rest]; group 1
    is greedy, so [rest] does not go on with a digit. *)
Definition occurrence (index : string -> Prop) (s g rest : string) : Prop :=
  ∃ k ws1 ws2,
    s = ("count[" ++ k ++ "]" ++ ws1 ++ "is" ++ ws2 ++ g ++ rest)%string
    ∧ index k ∧ run is_space ws1 ∧ run is_space ws2
    ∧ run is_digit g ∧ stops is_digit rest.

(** The index of [count\[\d+\]] and of [count\[0\]]. *)
Definition any_index (k : string) : Prop := run is_digit k.
Definition index_0 (k : string) : Prop := k = "0".

(** No occurrence starts anywhere in [s]. *)
Definition absent (index : string -> Prop) (s : string) : Prop :=
  ∀ pre s' g rest, s = (pre ++ s')%string → ¬ occurrence index s' g rest.

(** The leftmost occurrence in [s] has group 1 equal to [g]. *)
Definition leftmost (index : string -> Prop) (s g : string) : Prop :=
  ∃ pre s' rest,
    s = (pre ++ s')%string ∧ occurrence index s' g rest
    ∧ ∀ pre' s'' g' rest', s = (pre' ++ s'')%string →
        (String.length pre' < String.length pre)%nat →
        ¬ occurrence index s'' g' rest'.

(** The counts a list of lines contributes: for each line that has an
    occurrence, the integer of its leftmost one. *)
Inductive line_counts : list string -> list Z -> Prop :=
| line_counts_nil : line_counts [] []
| line_counts_skip line lines counts :
    absent any_index line -> line_counts lines counts ->
    line_counts (line :: lines) counts
| line_counts_take line g lines counts :
    leftmost any_index line g -> line_counts lines counts ->
    line_counts (line :: lines) (int g :: counts).

End Pattern.

(** ** The aggregation step without its guards *)

Module Aggregation.
Import SingleURL.

(** The measurements the loop of step 3 does not skip. *)
Definition kept (remaining : gset string) (m : measurement) : bool :=
  bool_decide (instance_id m ∈ remaining) && negb (is_inf (sum_count m)).

(** The max-reduction alone, without the two [continue] guards. *)
Definition max_reduce_step (inst_metric : gmap string metric)
  (m : measurement) : gmap string metric :=
  match inst_metric !! instance_id m with
  | None => <[instance_id m := sum_count m]> inst_metric
  | Some old => <[instance_id m := metric_max old (sum_count m)]> inst_metric
  end.

Definition max_reduce (measurements : list measurement) : gmap string metric :=
  foldl max_reduce_step ∅ measurements.

End Aggregation.

(** ** Groups as a partition, and the progress of the loops *)

(** The member lists [parts] partition the set [s]: every element of [s] is
    in some part, no part lists an element twice, and two parts at
    different positions share no element. *)
Definition partition_of (parts : list (list string)) (s : gset string) : Prop :=
  (∀ x, x ∈ s ↔ ∃ p, p ∈ parts ∧ x ∈ p)
  ∧ Forall NoDup parts
  ∧ (∀ i j p q x, parts !! i = Some p → parts !! j = Some q → i ≠ j →
       x ∈ p → x ∉ q).

(** The invariant of both partitioner loops: the groups formed so far and
    the remaining set split the original set. *)
Definition splits (original remaining : gset string)
  (parts : list (list string)) : Prop :=
  NoDup (mjoin parts)
  ∧ (∀ x, x ∈ original ↔ x ∈ mjoin parts ∨ x ∈ remaining)
  ∧ (∀ x, x ∈ mjoin parts → x ∉ remaining).

Module Progress.

(** Every turn commits one group: it is non-empty, without repetition, made
    of remaining instances, and exactly its members leave the remaining
    set. *)
Definition commits {W} (st st' : PerURL.state W) : Prop :=
  ∃ g, PerURL.groups st' = (PerURL.groups st ++ [g])%list
    ∧ PerURL.lock_url g ∈ PerURL.members g
    ∧ NoDup (PerURL.members g)
    ∧ (∀ x, x ∈ PerURL.members g → x ∈ PerURL.remaining st)
    ∧ PerURL.remaining st' = PerURL.remaining st ∖ list_to_set (PerURL.members g).


End Progress.

(** ** A scripted world, to run the scripts on concrete inputs *)

Module Script.

(** A reply that waits for a request: the URL it answers, the seconds it
    takes, and the result. *)
Record reply := {
  for_url : string;
  takes : Q;
  gives : http_result;
}.

Record t := {
  now : Q;
  pending : list reply;
}.

(** The first pending reply for [url], and the others. *)
Fixpoint next_reply (url : string) (l : list reply)
  : option (reply * list reply) :=
  match l with
  | [] => None
  | r :: l' =>
      if bool_decide (for_url r = url) then Some (r, l')
      else
        match next_reply url l' with
        | Some (r', l'') => Some (r', r :: l'')
        | None => None
        end
  end.

(** A request consumes the first reply for its URL; with none left the
    connection fails at once. Background requests and sleeping only let
    time pass. *)
#[export] Instance net : Net t := {
  requests_get url timeout w :=
    match next_reply url (pending w) with
    | Some (r, l) => (gives r, {| now := Qred (now w + takes r); pending := l |})
    | None => (RequestException, w)
    end;
  submit_get url timeout w := w;
  sleep d w := {| now := Qred (now w + d); pending := pending w |};
  perf_counter w := (now w, w);
}.

(** A decoder for bodies that are the identifier itself ([""] stands for a
    body that is no JSON). *)
#[export] Instance json : SingleURL.Json := {
  json_instance_id body :=
    match body with
    | EmptyString => SingleURL.NotJson
    | _ => SingleURL.Key body
    end
}.

Definition ok (url body : string) : reply :=
  {| for_url := url; takes := 0; gives := Response 200 body |}.

Definition start (l : list reply) : t := {| now := 0; pending := l |}.

End Script.
Import (hints) Script.

(** A world that counts the requests made in a world [W]. *)
Module Counting.

#[export] Instance net `{Net W} : Net (nat * W) := {
  requests_get url timeout '(n, w) :=
    let '(r, w') := requests_get url timeout w in (r, (S n, w'));
  submit_get url timeout '(n, w) := (n, submit_get url timeout w);
  sleep d '(n, w) := (n, sleep d w);
  perf_counter '(n, w) := let '(t, w') := perf_counter w in (t, (n, w'));
}.

End Counting.
Import (hints) Counting.

(** ** Concrete inputs *)

Definition nl : string := String Text.LF "".

(** The [/check] body of the spec's example. *)
Definition example_body : string :=
  "count[0] is 500" ++ nl ++ "count[1] is 300".

(** Two occurrences on one line. *)
Definition two_on_a_line : string := "count[0] is 5 count[1] is 3".

(** A run of [n] nines, and a count of 4301 digits. *)
Fixpoint nines (n : nat) : string :=
  match n with
  | O => ""
  | S n' => String "9" (nines n')
  end.

Definition long_count : string := "count[0] is " ++ nines 4301.

(** The example of the spec: threshold 1000, instances A to D; with A as
    lock, Round 1 measures B at 1500, C at 200 and D at 1100, and Round 2
    measures B at 1400 and D at 50. *)
Definition count_0 (n : string) : string := "count[0] is " ++ n.

Definition example_world : Script.t :=
  Script.start
    [Script.ok "A/lock" "";
     Script.ok "B/check" (count_0 "1500");
     Script.ok "C/check" (count_0 "200");
     Script.ok "D/check" (count_0 "1100");
     Script.ok "A/lock" "";
     Script.ok "B/check" (count_0 "1400");
     Script.ok "D/check" (count_0 "50")].

Definition example_urls : list string := ["A/"; "B/"; "C/"; "D/"].

Definition example_start : PerURL.state Script.t :=
  {| PerURL.remaining := list_to_set example_urls;
     PerURL.groups := [];
     PerURL.world := example_world |}.

Definition example_round2 : PerURL.state Script.t :=
  PerURL.commit example_start "A/" ["A/"; "B/"]
    {| Script.now := 1 # 5; Script.pending := [] |}.

(** A run of the single-URL variant: the lock lands on A while a check
    lands on B and measures 7, then the lock lands on C. *)
Definition lock_url : string := SingleURL.BASE_URL ++ SingleURL.LOCK_EP.
Definition check_url : string := SingleURL.BASE_URL ++ SingleURL.CHECK_EP.
Definition id_url : string := SingleURL.BASE_URL ++ SingleURL.ID_EP.

Definition sharing_world : Script.t :=
  Script.start
    [Script.ok lock_url ""; Script.ok id_url "A";
     Script.ok check_url "count[0] is 7"; Script.ok id_url "B";
     Script.ok lock_url ""; Script.ok id_url "C"].



Definition mA5 : SingleURL.measurement :=
  {| SingleURL.instance_id := "A"; SingleURL.sum_count := Fin 5 |}.
Definition mA7 : SingleURL.measurement :=
  {| SingleURL.instance_id := "A"; SingleURL.sum_count := Fin 7 |}.
Definition mAinf : SingleURL.measurement :=
  {| SingleURL.instance_id := "A"; SingleURL.sum_count := Inf |}.

Definition mU9 : SingleURL.measurement :=
  {| SingleURL.instance_id := "unknown"; SingleURL.sum_count := Fin 9 |}.

Definition example_args : Locator.args :=
  {| Locator.victim_url := "https://victim/";
     Locator.latency_threshold := Locator.Seconds (1 # 2);
     Locator.lock_endpoint := "lock";
     Locator.probe_runs := 1;
     Locator.victim_timeout := 30;
     Locator.lock_timeout := 60;
     Locator.lock_warmup := 1 # 10 |}.

(** A reply of the victim that takes [d] seconds. *)
Definition victim (d : Q) : Script.reply :=
  {| Script.for_url := "https://victim/"; Script.takes := d;
     Script.gives := Response 200 "ok" |}.

Definition example_sets : list Locator.cpu_set :=
  [{| Locator.cpu_brand := Some "AMD EPYC"; Locator.parsed_freq := None;
      Locator.instances := [] |};
   {| Locator.cpu_brand := Some "Intel Xeon";
      Locator.parsed_freq := Some (2400000000 # 1);
      Locator.instances := ["https://a/"] |};
   {| Locator.cpu_brand := Some "unknown"; Locator.parsed_freq := None;
      Locator.instances := ["https://b/"; "https://c/"] |};
   {| Locator.cpu_brand := Some "AMD EPYC";
      Locator.parsed_freq := Some (2450000000 # 1);
      Locator.instances := ["https://d/"] |}].


(** ** The entry point of the localizer *)

Module LocatorMain.
Import Locator.

(** What [main] prints as its final result. *)
Inductive report :=
| Not_localized              (* no CPU set reached the threshold *)
| Attacker (url : string).   (* the suspected co-resident attacker *)

(** [main] after [load_cpu_sets]: Phase 1, then the single instance of the
    candidate set or the bisection of its instances. *)
Definition main `{Net W} (fuel : nat) (a : args) (cpu_sets : list cpu_set)
  (w : W) : outcome (report * W) :=
  let '(candidate_idx, w1) := find_candidate_set a cpu_sets w in
  if candidate_idx <? 0 then Returned (Not_localized, w1)
  else
    match cpu_sets !! Z.to_nat candidate_idx with
    | None => Raised "IndexError"
    | Some candidate_set =>
        match instances candidate_set with
        | [x] => Returned (Attacker x, w1)
        | candidate_instances =>
            match binary_search_localization fuel a candidate_instances w1 with
            | Returned (x, _, w2) => Returned (Attacker x, w2)
            | Raised e => Raised e
            | OutOfFuel => OutOfFuel
            end
        end
    end.

End LocatorMain.

(** ** A world that tallies the requests and the background requests *)

Module Tally.

Record t (W : Type) := {
  gets : nat;
  submits : nat;
  inner : W;
}.
Arguments gets {W} _.
Arguments submits {W} _.
Arguments inner {W} _.

#[export] Instance net `{Net W} : Net (t W) := {
  requests_get url timeout w :=
    let '(r, w') := requests_get url timeout (inner w) in
    (r, {| gets := S (gets w); submits := submits w; inner := w' |});
  submit_get url timeout w :=
    {| gets := gets w; submits := S (submits w);
       inner := submit_get url timeout (inner w) |};
  sleep d w :=
    {| gets := gets w; submits := submits w; inner := sleep d (inner w) |};
  perf_counter w :=
    let '(t, w') := perf_counter (inner w) in
    (t, {| gets := gets w; submits := submits w; inner := w' |});
}.

End Tally.
Import (hints) Tally.

(** ** A world in which the victim shares a server with one instance *)

Module Ideal.

(** The clock, and whether a lock of the co-resident instance is running. *)
Record t := {
  now : Q;
  hot : bool;
}.

(** A lock request starts the contention when it is one of [co_resident];
    a request to the victim takes one second under contention and a tenth
    of a second without, and the contention has ended when it returns. *)
Definition net (co_resident : string -> bool) : Net t := {|
  requests_get url timeout w :=
    (Response 200 "ok",
     {| now := now w + (if hot w then 1 else 1 # 10); hot := false |});
  submit_get url timeout w :=
    {| now := now w; hot := hot w || co_resident url |};
  sleep d w := {| now := now w + d; hot := hot w |};
  perf_counter w := (now w, w);
|}.

End Ideal.

(** ** A world in which every request fails *)

Module Offline.

#[export] Instance net : Net unit := {
  requests_get url timeout w := (RequestException, w);
  submit_get url timeout w := w;
  sleep d w := w;
  perf_counter w := (0%Q, w);
}.

End Offline.
Import (hints) Offline.

(** ** Vocabulary for the properties of strings *)

Module Strings.

Fixpoint last_char (s : string) : option ascii :=
  match s with
  | EmptyString => None
  | String c EmptyString => Some c
  | String _ s' => last_char s'
  end.

Definition first_char (s : string) : option ascii :=
  match s with
  | EmptyString => None
  | String c _ => Some c
  end.

(** [s] is made of slashes only. *)
Definition slashes (s : string) : Prop :=
  Pattern.all_chars (Ascii.eqb Locator.slash) s = true.

End Strings.

(** ** Counting the samples on each side of a value *)

Module Median.

(** How many of [data] are at most [m], and how many are at least [m]. *)
Definition at_most (m : Q) (data : list Q) : nat :=
  length (filter (fun x => Qle_bool x m = true) data).

Definition at_least (m : Q) (data : list Q) : nat :=
  length (filter (fun x => Qle_bool m x = true) data).

End Median.

(** ** Inputs for the localizer in the world [Ideal] *)

(** The instance [x3] shares the server of the victim. *)
Definition beside_x3 : Net Ideal.t := Ideal.net (String.eqb "x3/lock").

Definition five_instances : list string := ["x1"; "x2"; "x3"; "x4"; "x5"].

Definition calm : Ideal.t := {| Ideal.now := 0; Ideal.hot := false |}.

(** ** Vocabulary for the contention oracle of the localizer *)

Module Oracle.
Import Locator.

(** The oracle is exact for [target] on the parts of [instances], in the
    worlds that satisfy [I]: locking a non-empty part brings the median to
    the threshold exactly when the part contains [target]. *)
Definition exact `{Net W} (a : args) (I : W → Prop) (target : string)
  (instances : list string) : Prop :=
  ∀ left w0, I w0 → left ≠ [] → left ⊆ instances →
    I (measure_latency_with_lock a left w0).2
    ∧ (is_above_threshold (measure_latency_with_lock a left w0).1
         (latency_threshold a) = true ↔ target ∈ left).

(** The victim cannot be measured: no sample of its latency is taken, or
    none succeeds. *)
Definition blind (W : Type) `{Net W} (a : args) : Prop :=
  probe_runs a ≤ 0
  ∨ ∀ timeout (w0 : W),
      checked_text (requests_get (victim_url a) timeout w0).1 = None.

End Oracle.

(** A decoder for which the body [[]] is JSON but no object. *)
Definition strict_json : SingleURL.Json :=
  {| SingleURL.json_instance_id body :=
       if String.eqb body "[]" then SingleURL.NotObject
       else SingleURL.Key body |}.

(** ** prepare_attacker_sets.py: the attacker sets of the localizer *)

Module Prepare.

(** [s.lstrip()], [s.rstrip()] and [s.strip()]; the white space of a [str]
    is the class [\s]. *)
Fixpoint lstrip (s : string) : string :=
  match s with
  | String c s' => if Text.is_space c then lstrip s' else s
  | EmptyString => ""
  end.

Fixpoint rstrip (s : string) : string :=
  match s with
  | String c s' =>
      match rstrip s' with
      | EmptyString => if Text.is_space c then "" else String c ""
      | r => String c r
      end
  | EmptyString => ""
  end.

Definition strip (s : string) : string := rstrip (lstrip s).

(** [line.startswith("#")] *)
Definition is_comment (line : string) : bool :=
  match line with
  | String c _ => Ascii.eqb c "#"
  | EmptyString => false
  end.

(** [load_urls], on the lines that the iteration over the file gives. *)
Definition load_urls (lines : list string) : list string :=
  foldl (fun urls line =>
           let line := strip line in
           if bool_decide (line = "") || is_comment line then urls
           else (urls ++ [line])%list)
        [] lines.

Definition build_info_url (base_url info_endpoint : string) : string :=
  Locator.rstrip_slash base_url ++ "/" ++ Locator.lstrip_slash info_endpoint.

(** What [data.get(key)] gives: [None] (no such key, or [null]), a value
    of the type the script expects, or a list or an object, which cannot be
    hashed. A brand that is a number or a boolean and a frequency that is a
    string or a boolean are not modelled; no step of the script raises on
    them. *)
Inductive field (A : Type) :=
| Missing
| Plain (a : A)
| Compound.
Arguments Missing {A}.
Arguments Plain {A} a.
Arguments Compound {A}.

(** What [resp.json()] and the two [data.get] make of a body (a decoder
    that fails otherwise, as on a document nested too deeply, is not
    modelled). *)
Inductive info :=
| InfoNotJson      (* [resp.json()] raises a [ValueError] *)
| InfoNotObject    (* the document is no object: [data.get] raises *)
| Info (cpu_brand : field string) (parsed_freq : field Q).

Class InfoJson := { json_cpu_info : string -> info }.

Definition fetch_cpu_info `{Net W} `{InfoJson} (base_url info_endpoint : string)
  (timeout : Q) (w : W) : result ((field string * field Q) * W) :=
  let info_url := build_info_url base_url info_endpoint in
  let '(r, w1) := requests_get info_url timeout w in
  match checked_text r with
  | None => Ok ((Missing, Missing), w1)
  | Some body =>
      match json_cpu_info body with
      | InfoNotJson => Ok ((Missing, Missing), w1)
      | InfoNotObject => Exn "AttributeError"
      | Info Missing _ => Ok ((Missing, Missing), w1)
      | Info cpu_brand parsed_freq => Ok ((cpu_brand, parsed_freq), w1)
      end
  end.

(** An architecture key [(cpu_brand, parsed_freq)], and [==] on keys. *)
Definition arch := (string * option Q)%type.

Definition freq_eqb (a b : option Q) : bool :=
  match a, b with
  | None, None => true
  | Some x, Some y => Qeq_bool x y
  | _, _ => false
  end.

Definition arch_eqb (k k' : arch) : bool :=
  bool_decide (k.1 = k'.1) && freq_eqb k.2 k'.2.

(** The key of an answer of [fetch_cpu_info], as the dict takes it: a key
    with a list or an object in it makes [setdefault] raise. *)
Definition arch_key_of (answer : field string * field Q) : result arch :=
  match answer with
  | (Missing, _) => Ok ("unknown", None)
  | (Plain brand, Missing) => Ok (brand, None)
  | (Plain brand, Plain freq) => Ok (brand, Some freq)
  | (Plain _, Compound) => Exn "TypeError"
  | (Compound, _) => Exn "TypeError"
  end.

(** [arch_to_urls.setdefault(arch_key, []).append(url)], on the items of
    the dict in insertion order. *)
Fixpoint setdefault_append (arch_key : arch) (url : string)
  (arch_to_urls : list (arch * list string)) : list (arch * list string) :=
  match arch_to_urls with
  | [] => [(arch_key, [url])]
  | (k, urls) :: rest =>
      if arch_eqb arch_key k then (k, (urls ++ [url])%list) :: rest
      else (k, urls) :: setdefault_append arch_key url rest
  end.

(** The loop over the completed futures of [group_by_architecture]. *)
Fixpoint group_each `{Net W} `{InfoJson} (urls : list string)
  (info_endpoint : string) (timeout : Q)
  (arch_to_urls : list (arch * list string)) (w : W)
  : result (list (arch * list string) * W) :=
  match urls with
  | [] => Ok (arch_to_urls, w)
  | url :: urls' =>
      match fetch_cpu_info url info_endpoint timeout w with
      | Exn e => Exn e
      | Ok (answer, w1) =>
          match arch_key_of answer with
          | Exn e => Exn e
          | Ok arch_key =>
              group_each urls' info_endpoint timeout
                (setdefault_append arch_key url arch_to_urls) w1
          end
      end
  end.

Definition group_by_architecture `{Net W} `{InfoJson} `{PyOrder}
  (urls : list string) (info_endpoint : string) (timeout : Q) (w : W)
  : result (list (arch * list string) * W) :=
  group_each (as_completed urls) info_endpoint timeout [] w.

(** [build_url_to_group_id], from the group of index [gid] on; a group is
    read as the Server Coverage Identifier writes it. *)
Fixpoint build_from (gid : nat) (groups : list PerURL.group)
  (url_to_group : gmap string nat) : gmap string nat :=
  match groups with
  | [] => url_to_group
  | group :: rest =>
      build_from (S gid) rest
        (foldl (fun m url => <[url := gid]> m) url_to_group
               (PerURL.members group))
  end.

Definition build_url_to_group_id (groups : list PerURL.group)
  : gmap string nat :=
  build_from 0 groups ∅.

(** The key [gid] of a URL in [group_to_rep]. *)
Definition server_key (url_to_group : gmap string nat) (url : string)
  : string :=
  match url_to_group !! url with
  | Some n => "group-" ++ pretty n
  | None => "single-" ++ url
  end.

(** One turn of the loop over the URLs of an architecture set. *)
Definition keep_first (url_to_group : gmap string nat)
  (group_to_rep : list (string * string)) (url : string)
  : list (string * string) :=
  let gid := server_key url_to_group url in
  match PerURL.dict_get gid group_to_rep with
  | None => PerURL.dict_set gid url group_to_rep
  | Some _ => group_to_rep
  end.

(** [reps]: the values of [group_to_rep] after the loop. *)
Definition representatives (url_to_group : gmap string nat)
  (urls : list string) : list string :=
  (foldl (keep_first url_to_group) [] urls).*2.

Definition deduplicate_by_server_within_arch_sets
  (arch_to_urls : list (arch * list string))
  (url_to_group : gmap string nat) : list Locator.cpu_set :=
  (fun '((cpu_brand, parsed_freq), urls) =>
     {| Locator.cpu_brand := Some cpu_brand;
        Locator.parsed_freq := parsed_freq;
        Locator.instances :=
          merge_sort String.le (representatives url_to_group urls) |})
  <$> arch_to_urls.

(** [main], from the URL file to the [cpu_sets] it hands to [json.dump];
    [None] stands for [sys.exit(1)]. [urls_file] is what opening and
    reading the URL file gives, its lines or the exception raised. The
    file of the server groups is read after the requests: [server_groups]
    is what [load_server_groups] and the reading of the groups by
    [build_url_to_group_id] make of it, the groups or the exception raised
    (the file cannot be opened or is no JSON, the document is no list, a
    group is no object). Writing the output file is not modelled. *)
Definition main `{Net W} `{InfoJson} `{PyOrder}
  (urls_file : result (list string))
  (server_groups : result (list PerURL.group)) (info_endpoint : string)
  (timeout : Q) (w : W) : result (option (list Locator.cpu_set) * W) :=
  match urls_file with
  | Exn e => Exn e
  | Ok lines =>
      match load_urls lines with
      | [] => Ok (None, w)
      | urls =>
          match group_by_architecture urls info_endpoint timeout w with
          | Exn e => Exn e
          | Ok (arch_to_urls, w1) =>
              match server_groups with
              | Exn e => Exn e
              | Ok groups =>
                  let url_to_group := build_url_to_group_id groups in
                  Ok (Some (deduplicate_by_server_within_arch_sets
                              arch_to_urls url_to_group), w1)
              end
          end
      end
  end.

(** Two URLs are instances on the same server, as far as the server groups
    tell: both in the group of the same index, or the same uncovered URL. *)
Definition same_server (url_to_group : gmap string nat) (u r : string)
  : Prop :=
  match url_to_group !! u with
  | Some gid => url_to_group !! r = Some gid
  | None => url_to_group !! r = None ∧ r = u
  end.

(** [u] is the first of [urls] on its server. *)
Definition first_on_server (url_to_group : gmap string nat)
  (urls : list string) (u : string) : Prop :=
  ∃ before after,
    urls = (before ++ u :: after)%list
    ∧ ∀ x, x ∈ before → ¬ same_server url_to_group x u.

(** No two keys of the dict are equal. *)
Definition distinct_keys (arch_to_urls : list (arch * list string)) : Prop :=
  ∀ i j k1 k2, i ≠ j →
    arch_to_urls.*1 !! i = Some k1 → arch_to_urls.*1 !! j = Some k2 →
    arch_eqb k1 k2 = false.

End Prepare.

(** A decoder for [/info] bodies that are the brand itself; the body
    [[]] stands for a brand that is a list. *)
Definition brand_only : Prepare.InfoJson :=
  {| Prepare.json_cpu_info body :=
       match body with
       | EmptyString => Prepare.InfoNotJson
       | _ =>
           if String.eqb body "[]"
           then Prepare.Info Prepare.Compound Prepare.Missing
           else Prepare.Info (Prepare.Plain body) Prepare.Missing
       end |}.

(** ** Inputs for the preparation of the attacker sets *)

(** Two server groups: [a] and [b] share a server, [c] is alone on its
    own, and [d] is in no group. *)
Definition example_groups : list PerURL.group :=
  [{| PerURL.lock_url := "https://a/";
      PerURL.members := ["https://a/"; "https://b/"] |};
   {| PerURL.lock_url := "https://c/"; PerURL.members := ["https://c/"] |}].

Definition example_arch : list (Prepare.arch * list string) :=
  [(("AMD EPYC", None),
    ["https://b/"; "https://a/"; "https://c/"; "https://d/"])].

(** [a] and [c] report their brand, [b] does not answer. *)
Definition info_world : Script.t :=
  Script.start
    [Script.ok "https://a/info" "AMD EPYC";
     Script.ok "https://c/info" "Intel Xeon"].

(** ** WEBSITE_INSTANCE_ID-image/request.py: the URLs of the discovery *)

Module Discovery.

(** [[f"{base_url}{i}.xxx.net/instance_id" for i in range(start, end + 1)]] *)
Definition generate_urls (base_url : string) (start end_ : Z) : list string :=
  (fun i : Z => base_url ++ pretty i ++ ".xxx.net/instance_id")
  <$> seqZ start (end_ + 1 - start).

End Discovery.

(** * Properties *)

(** ** Parsing the metric *)

Example splitlines_example :
  Text.splitlines example_body = ["count[0] is 500"; "count[1] is 300"].
Proof. reflexivity. Qed.

Example splitlines_crlf :
  Text.splitlines ("a" ++ String Text.CR nl ++ nl ++ "b" ++ nl) = ["a"; ""; "b"].
Proof. reflexivity. Qed.

Example count_k_example :
  Text.re_search Text.count_k_here "x count[12]  is 0042y" = Some ("0042", "y").
Proof. reflexivity. Qed.

Example sum_of_counts_example : SingleURL.sum_of_counts example_body = Fin 800.
Proof. reflexivity. Qed.

Example extract_count_example : PerURL.extract_count example_body = Some 500.
Proof. reflexivity. Qed.

Module PatternFacts.
Import Text Pattern.

Lemma app_cons c (a b : string) :
  (String c a ++ b)%string = String c (a ++ b)%string.
Proof. reflexivity. Qed.

Lemma app_nil_l (b : string) : ("" ++ b)%string = b.
Proof. reflexivity. Qed.

Lemma app_assoc (a b c : string) :
  ((a ++ b) ++ c)%string = (a ++ (b ++ c))%string.
Proof. induction a as [|x a IH]; [reflexivity|]. rewrite !app_cons. by f_equal. Qed.

Lemma literal_spec p s r : literal p s = Some r ↔ s = (p ++ r)%string.
Proof.
  revert s. induction p as [|a p IH]; intros s; cbn [literal].
  - rewrite app_nil_l. split; [by intros [= ->] | by intros ->].
  - rewrite app_cons. destruct s as [|b s]; [by split|].
    destruct (Ascii.eqb a b) eqn:E.
    + apply Ascii.eqb_eq in E as ->. rewrite IH.
      split; [by intros -> | by intros [= ->]].
    + apply Ascii.eqb_neq in E. split; [done | by intros [= -> ->]].
Qed.

Lemma span_spec f s a b :
  span f s = (a, b) ↔ s = (a ++ b)%string ∧ all_chars f a = true ∧ stops f b.
Proof.
  revert a b. induction s as [|c s IH]; intros a b; cbn [span].
  - split.
    + by intros [= <- <-].
    + intros (E & _ & _). destruct a; [|by rewrite app_cons in E].
      rewrite app_nil_l in E. by subst.
  - destruct (f c) eqn:Hc.
    + destruct (span f s) as [a' b'] eqn:Hs.
      split.
      * intros [= <- <-]. destruct (proj1 (IH a' b') eq_refl) as (-> & Ha & Hb).
        rewrite app_cons. cbn [all_chars]. by rewrite Hc, Ha.
      * intros (E & Ha & Hb). destruct a as [|x a].
        { rewrite app_nil_l in E. subst b. cbn in Hb. congruence. }
        rewrite app_cons in E. injection E as <- ->.
        cbn [all_chars] in Ha. apply andb_true_iff in Ha as [_ Ha].
        assert ((a', b') = (a, b)) as Hab by (by apply IH).
        by injection Hab as -> ->.
    + split.
      * intros [= <- <-]. by rewrite app_nil_l.
      * intros (E & Ha & Hb). destruct a as [|x a].
        { rewrite app_nil_l in E. by subst. }
        rewrite app_cons in E. injection E as <- ->.
        cbn [all_chars] in Ha. rewrite Hc in Ha. done.
Qed.

Lemma plus_spec f s a b :
  plus f s = Some (a, b) ↔ s = (a ++ b)%string ∧ run f a ∧ stops f b.
Proof.
  unfold plus, run. destruct (span f s) as [a' b'] eqn:Hs.
  apply span_spec in Hs as Hs'. destruct Hs' as (-> & Ha' & Hb').
  split.
  - destruct a'; [done|]. by intros [= <- <-].
  - intros (E & [Hne Ha] & Hb).
    assert (span f (a ++ b)%string = (a, b)) as Hab by (by apply span_spec).
    rewrite <- E, Hs in Hab. injection Hab as -> ->. by destruct a.
Qed.

Lemma run_stops_other f g a b :
  (∀ c, f c = true → g c = false) → run f a → stops g (a ++ b)%string.
Proof.
  intros Hfg [Hne Ha]. destruct a as [|c a]; [done|].
  rewrite app_cons. cbn in *. apply andb_true_iff in Ha as [Hc _]. auto.
Qed.

Lemma digit_not_space c : is_digit c = true → is_space c = false.
Proof.
  unfold is_digit, is_space. intros H.
  apply andb_true_iff in H as [H1 H2].
  apply N.leb_le in H1, H2.
  repeat (apply orb_false_iff; split); try apply andb_false_iff;
    rewrite ?N.leb_gt, ?N.eqb_neq; lia.
Qed.

#[local] Arguments literal : simpl never.
#[local] Arguments plus : simpl never.
#[local] Arguments is_value : simpl never.

Lemma is_value_spec s g rest :
  is_value s = Some (g, rest) ↔
  ∃ ws1 ws2, s = (ws1 ++ "is" ++ ws2 ++ g ++ rest)%string
    ∧ run is_space ws1 ∧ run is_space ws2
    ∧ run is_digit g ∧ stops is_digit rest.
Proof.
  unfold is_value. split.
  - destruct (plus is_space s) as [[ws1 r1]|] eqn:H1; [|done]. cbn.
    destruct (literal "is" r1) as [r2|] eqn:H2; [|done]. cbn.
    destruct (plus is_space r2) as [[ws2 r3]|] eqn:H3; [|done]. cbn.
    intros H4.
    apply plus_spec in H1 as (-> & R1 & _).
    apply literal_spec in H2 as ->.
    apply plus_spec in H3 as (-> & R3 & _).
    apply plus_spec in H4 as (-> & R4 & S4).
    by exists ws1, ws2.
  - intros (ws1 & ws2 & -> & R1 & R2 & Rg & Sr).
    assert (plus is_space (ws1 ++ "is" ++ ws2 ++ g ++ rest)%string
            = Some (ws1, ("is" ++ ws2 ++ g ++ rest)%string)) as ->.
    { apply plus_spec. split_and!; done. }
    cbn.
    assert (literal "is" ("is" ++ ws2 ++ g ++ rest)%string
            = Some (ws2 ++ g ++ rest)%string) as -> by (by apply literal_spec).
    cbn.
    assert (plus is_space (ws2 ++ g ++ rest)%string
            = Some (ws2, (g ++ rest)%string)) as ->.
    { apply plus_spec. split_and!; [done..|].
      eapply run_stops_other; [apply digit_not_space|done]. }
    cbn. apply plus_spec. by split_and!.
Qed.

Lemma count_k_here_spec s g rest :
  count_k_here s = Some (g, rest) ↔ occurrence any_index s g rest.
Proof.
  unfold count_k_here, occurrence, any_index. split.
  - destruct (literal "count[" s) as [r1|] eqn:H1; [|done]. cbn.
    destruct (plus is_digit r1) as [[k r2]|] eqn:H2; [|done]. cbn.
    destruct (literal "]" r2) as [r3|] eqn:H3; [|done]. cbn.
    intros H4.
    apply literal_spec in H1 as ->.
    apply plus_spec in H2 as (-> & R2 & _).
    apply literal_spec in H3 as ->.
    apply is_value_spec in H4 as (ws1 & ws2 & -> & ?).
    by exists k, ws1, ws2.
  - intros (k & ws1 & ws2 & -> & Rk & R).
    assert (literal "count[" ("count[" ++ k ++ "]" ++ ws1 ++ "is" ++ ws2 ++ g ++ rest)%string
            = Some (k ++ "]" ++ ws1 ++ "is" ++ ws2 ++ g ++ rest)%string) as ->
      by (by apply literal_spec).
    cbn.
    assert (plus is_digit (k ++ "]" ++ ws1 ++ "is" ++ ws2 ++ g ++ rest)%string
            = Some (k, ("]" ++ ws1 ++ "is" ++ ws2 ++ g ++ rest)%string)) as ->.
    { apply plus_spec. by split_and!. }
    cbn.
    assert (literal "]" ("]" ++ ws1 ++ "is" ++ ws2 ++ g ++ rest)%string
            = Some (ws1 ++ "is" ++ ws2 ++ g ++ rest)%string) as ->
      by (by apply literal_spec).
    cbn. apply is_value_spec. by exists ws1, ws2.
Qed.

Lemma count_0_here_spec s g rest :
  count_0_here s = Some (g, rest) ↔ occurrence index_0 s g rest.
Proof.
  unfold count_0_here, occurrence, index_0. split.
  - destruct (literal "count[0]" s) as [r1|] eqn:H1; [|done]. cbn.
    intros H4.
    apply literal_spec in H1 as ->.
    apply is_value_spec in H4 as (ws1 & ws2 & -> & ?).
    by exists "0", ws1, ws2.
  - intros (k & ws1 & ws2 & -> & -> & R).
    assert (literal "count[0]" ("count[" ++ "0" ++ "]" ++ ws1 ++ "is" ++ ws2 ++ g ++ rest)%string
            = Some (ws1 ++ "is" ++ ws2 ++ g ++ rest)%string) as ->
      by (by apply literal_spec).
    cbn. apply is_value_spec. by exists ws1, ws2.
Qed.

Lemma re_search_Some {A} (here : string -> option A) s m :
  re_search here s = Some m ↔
  ∃ pre s', s = (pre ++ s')%string ∧ here s' = Some m
    ∧ ∀ pre' s'', s = (pre' ++ s'')%string →
        (String.length pre' < String.length pre)%nat → here s'' = None.
Proof.
  induction s as [|c s IH]; cbn [re_search].
  - destruct (here "") as [m0|] eqn:H0.
    + split.
      * intros [= ->]. exists "", "". split_and!; [done..|]. cbn. lia.
      * intros (pre & s' & E & Hm & _).
        destruct pre; [|done]. rewrite app_nil_l in E. subst s'. congruence.
    + split; [done|]. intros (pre & s' & E & Hm & _).
      destruct pre; [|done]. rewrite app_nil_l in E. subst s'. congruence.
  - destruct (here (String c s)) as [m0|] eqn:H0.
    + split.
      * intros [= ->]. exists "", (String c s). split_and!; [done..|]. cbn. lia.
      * intros (pre & s' & E & Hm & Hmin). destruct pre as [|x pre].
        { rewrite app_nil_l in E. subst s'. congruence. }
        specialize (Hmin "" (String c s) eq_refl). cbn in Hmin.
        rewrite Hmin in H0 by lia. done.
    + rewrite IH. split.
      * intros (pre & s' & -> & Hm & Hmin). exists (String c pre), s'.
        split_and!; [done..|]. intros pre' s'' E Hlt.
        destruct pre' as [|x pre'].
        { rewrite app_nil_l in E. by subst s''. }
        rewrite app_cons in E. injection E as <- E. cbn in Hlt.
        apply (Hmin pre' s'' E). lia.
      * intros (pre & s' & E & Hm & Hmin). destruct pre as [|x pre].
        { rewrite app_nil_l in E. subst s'. congruence. }
        rewrite app_cons in E. injection E as <- ->. exists pre, s'.
        split_and!; [done..|]. intros pre' s'' E Hlt.
        apply (Hmin (String c pre') s''); [by rewrite app_cons, E|cbn; lia].
Qed.

Lemma re_search_None {A} (here : string -> option A) s :
  re_search here s = None ↔ ∀ pre s', s = (pre ++ s')%string → here s' = None.
Proof.
  induction s as [|c s IH]; cbn [re_search].
  - destruct (here "") as [m0|] eqn:H0.
    + split; [done|]. intros H. by rewrite (H "" "" eq_refl) in H0.
    + split; [|done]. intros _ pre s' E. destruct pre; [|done].
      rewrite app_nil_l in E. by subst s'.
  - destruct (here (String c s)) as [m0|] eqn:H0.
    + split; [done|]. intros H. by rewrite (H "" _ eq_refl) in H0.
    + rewrite IH. split.
      * intros H pre s' E. destruct pre as [|x pre].
        { rewrite app_nil_l in E. by subst s'. }
        rewrite app_cons in E. injection E as <- E. by apply (H pre).
      * intros H pre s' E. apply (H (String c pre)). by rewrite app_cons, E.
Qed.

Section Leftmost.
Context (index : string -> Prop) (here : string -> option (string * string)).
Hypothesis here_spec :
  ∀ s g rest, here s = Some (g, rest) ↔ occurrence index s g rest.

Lemma search_leftmost s g :
  leftmost index s g ↔ ∃ rest, re_search here s = Some (g, rest).
Proof using here_spec.
  split.
  - intros (pre & s' & rest & E & Ho & Hmin). exists rest.
    apply re_search_Some. exists pre, s'. split_and!; [done|by apply here_spec|].
    intros pre' s'' E' Hlt. destruct (here s'') as [[g' rest']|] eqn:Hh; [|done].
    apply here_spec in Hh. by destruct (Hmin pre' s'' g' rest').
  - intros (rest & (pre & s' & E & Hh & Hmin)%re_search_Some).
    exists pre, s', rest. split_and!; [done|by apply here_spec|].
    intros pre' s'' g' rest' E' Hlt Ho%here_spec.
    by rewrite (Hmin pre' s'') in Ho.
Qed.

Lemma search_absent s : absent index s ↔ re_search here s = None.
Proof using here_spec.
  rewrite re_search_None. split.
  - intros Ha pre s' E. destruct (here s') as [[g rest]|] eqn:Hh; [|done].
    apply here_spec in Hh. by destruct (Ha pre s' g rest).
  - intros Hn pre s' g rest E Ho%here_spec. by rewrite (Hn pre s') in Ho.
Qed.

End Leftmost.

Lemma line_count_Some line g :
  leftmost any_index line g → SingleURL.line_count line = Some (int g).
Proof.
  intros [rest H]%(search_leftmost _ _ count_k_here_spec).
  unfold SingleURL.line_count. by rewrite H.
Qed.

Lemma line_count_None line :
  absent any_index line → SingleURL.line_count line = None.
Proof.
  intros H%(search_absent _ _ count_k_here_spec).
  unfold SingleURL.line_count. by rewrite H.
Qed.

Lemma line_counts_parse lines counts :
  line_counts lines counts ↔ counts = omap SingleURL.line_count lines.
Proof.
  split.
  - induction 1 as [|line lines counts Ha _ IH|line g lines counts Hl _ IH];
      cbn; [done|..].
    + by rewrite (line_count_None _ Ha).
    + by rewrite (line_count_Some _ _ Hl), IH.
  - intros ->. induction lines as [|line lines IH]; cbn; [constructor|].
    unfold SingleURL.line_count at 1.
    destruct (re_search count_k_here line) as [[g rest]|] eqn:Hs.
    + apply line_counts_take; [|done].
      apply (search_leftmost _ _ count_k_here_spec). by exists rest.
    + apply line_counts_skip; [|done].
      by apply (search_absent _ _ count_k_here_spec).
Qed.

End PatternFacts.

Module DigitsFacts.
Import Text Pattern.

(** Without a limit, and on runs of at most 640 digits, the conversion
    returns. *)
Lemma within_unlimited g : Digits.within 0 g = true.
Proof. reflexivity. Qed.

Lemma within_short max_str_digits g :
  (String.length g ≤ Digits.THRESHOLD)%nat →
  Digits.within max_str_digits g = true.
Proof.
  intros Hlen. unfold Digits.within.
  rewrite (proj2 (Nat.leb_le _ Digits.THRESHOLD) Hlen).
  by rewrite orb_true_r.
Qed.

(** The loop over the lines returns the counts of the lines exactly when
    every conversion it asks for returns. *)
Lemma counts_of_lines_spec max_str_digits lines :
  Digits.counts_of_lines max_str_digits lines
  = if forallb (Digits.line_within max_str_digits) lines
    then Ok (omap SingleURL.line_count lines) else Exn "ValueError".
Proof.
  induction lines as [|line lines IH]; [done|].
  cbn [Digits.counts_of_lines forallb omap list_omap].
  unfold Digits.line_within at 1, SingleURL.line_count at 1, Digits.int.
  destruct (re_search count_k_here line) as [[g1 rest]|]; [|by rewrite IH].
  destruct (Digits.within max_str_digits g1); [|done].
  rewrite IH. cbn [andb].
  by destruct (forallb (Digits.line_within max_str_digits) lines).
Qed.

Lemma line_within_leftmost max_str_digits line g :
  leftmost any_index line g →
  Digits.line_within max_str_digits line = Digits.within max_str_digits g.
Proof.
  intros [rest Hs]%(PatternFacts.search_leftmost _ _
                      PatternFacts.count_k_here_spec).
  unfold Digits.line_within. by rewrite Hs.
Qed.

Lemma line_within_absent max_str_digits line :
  re_search count_k_here line = None →
  Digits.line_within max_str_digits line = true.
Proof. intros Hs. unfold Digits.line_within. by rewrite Hs. Qed.

(** Where the conversions return, the parsers return what [extract_count]
    and [sum_of_counts] of the partitioner loops give. *)
Lemma extract_count_Ok max_str_digits text r :
  Digits.extract_count max_str_digits text = Ok r →
  r = PerURL.extract_count text.
Proof.
  unfold Digits.extract_count, PerURL.extract_count, Digits.int.
  destruct (re_search count_0_here text) as [[g1 rest]|]; [|by intros [= <-]].
  destruct (Digits.within max_str_digits g1); [|done]. by intros [= <-].
Qed.

Lemma sum_of_counts_Ok max_str_digits text m :
  Digits.sum_of_counts max_str_digits text = Ok m →
  m = SingleURL.sum_of_counts text.
Proof.
  unfold Digits.sum_of_counts, SingleURL.sum_of_counts,
    SingleURL.parse_counts.
  rewrite counts_of_lines_spec.
  destruct (forallb _ _); [|done].
  by destruct (omap _ _); intros [= <-].
Qed.

End DigitsFacts.

(** C3, as stated, fails: on the body of the spec's example the per-URL
    parser answers 500 where the sum of all occurrences is 800; on a body
    without occurrence it answers [None], not +infinity; the single-URL
    parser adds only the first occurrence of a line; and on a count of 4301
    digits both parsers raise where the interpreter has its default limit. *)
Lemma metric_parsing_counterexample :
  Digits.extract_count Digits.DEFAULT_MAX_STR_DIGITS example_body
  = Ok (Some 500)
  ∧ Spec.measure_metric example_body = Fin 800
  ∧ Digits.extract_count Digits.DEFAULT_MAX_STR_DIGITS "no counter here"
    = Ok None
  ∧ Spec.measure_metric "no counter here" = Inf
  ∧ Digits.sum_of_counts Digits.DEFAULT_MAX_STR_DIGITS two_on_a_line
    = Ok (Fin 5)
  ∧ Spec.measure_metric two_on_a_line = Fin 8
  ∧ Digits.extract_count Digits.DEFAULT_MAX_STR_DIGITS long_count
    = Exn "ValueError"
  ∧ Digits.sum_of_counts Digits.DEFAULT_MAX_STR_DIGITS long_count
    = Exn "ValueError".
Proof. split_and!; by vm_compute. Qed.

(** C3, amended. Single-URL variant: each line of the body (as
    [splitlines] cuts it) that has an occurrence of
    [count[<digits>]<ws>is<ws><digits>] contributes the integer of its
    leftmost occurrence; where every such run of digits is within the limit
    of the interpreter on integer conversions the metric is the sum of these
    integers, and +infinity when no line has an occurrence; where one of
    them is beyond the limit the parser raises [ValueError]; the example
    body gives 800, and the metric is the one of the measurement that
    [call_check_and_get_metric_and_id] returns. Per-URL variant:
    [extract_count] gives the integer of the leftmost occurrence of
    [count[0]<ws>is<ws><digits>] in the whole body, raises [ValueError] when
    its digits are beyond the limit, and gives [None] when there is no
    occurrence; the example body gives 500. *)
Theorem metric_parsing `{Net W} `{SingleURL.Json} (max_str_digits : nat)
  (body : string) :
  (∃ counts, Pattern.line_counts (Text.splitlines body) counts)
  ∧ (∀ counts, Pattern.line_counts (Text.splitlines body) counts →
       (∀ line g, line ∈ Text.splitlines body →
          Pattern.leftmost Pattern.any_index line g →
          Digits.within max_str_digits g = true) →
       Digits.sum_of_counts max_str_digits body
       = Ok (match counts with
             | [] => Inf
             | _ => Fin (foldl Z.add 0 counts)
             end))
  ∧ (∀ line g, line ∈ Text.splitlines body →
       Pattern.leftmost Pattern.any_index line g →
       Digits.within max_str_digits g = false →
       Digits.sum_of_counts max_str_digits body = Exn "ValueError")
  ∧ (∀ (w w1 w2 : W) status m,
       requests_get (SingleURL.BASE_URL ++ SingleURL.CHECK_EP)
         SingleURL.REQUEST_TIMEOUT w = (Response status body, w1) →
       raises_for_status status = false →
       Digits.call_check_and_get_metric_and_id max_str_digits w
       = Ok (m, w2) →
       Digits.sum_of_counts max_str_digits body
       = Ok (SingleURL.sum_count m))
  ∧ Digits.sum_of_counts Digits.DEFAULT_MAX_STR_DIGITS example_body
    = Ok (Fin 800)
  ∧ (∀ g, Pattern.leftmost Pattern.index_0 body g →
       Digits.extract_count max_str_digits body
       = if Digits.within max_str_digits g then Ok (Some (Text.int g))
         else Exn "ValueError")
  ∧ (Pattern.absent Pattern.index_0 body →
     Digits.extract_count max_str_digits body = Ok None)
  ∧ Digits.extract_count Digits.DEFAULT_MAX_STR_DIGITS example_body
    = Ok (Some 500)
  ∧ (∀ g, (String.length g ≤ 640)%nat ∨ max_str_digits = O
          ∨ (String.length g ≤ max_str_digits)%nat →
          Digits.within max_str_digits g = true).
Proof.
  split_and!.
  - eexists. by apply PatternFacts.line_counts_parse.
  - intros counts ->%PatternFacts.line_counts_parse Hwithin.
    unfold Digits.sum_of_counts.
    rewrite DigitsFacts.counts_of_lines_spec.
    rewrite (proj2 (forallb_forall _ _)); [by destruct (omap _ _)|].
    intros line Hline%list_elem_of_In.
    destruct (Text.re_search Text.count_k_here line) as [[g rest]|] eqn:Hs;
      [|by apply DigitsFacts.line_within_absent].
    assert (Pattern.leftmost Pattern.any_index line g) as Hleft.
    { apply (PatternFacts.search_leftmost _ _
               PatternFacts.count_k_here_spec). by exists rest. }
    rewrite (DigitsFacts.line_within_leftmost _ _ _ Hleft).
    by apply (Hwithin line).
  - intros line g Hline Hleft Hbeyond.
    unfold Digits.sum_of_counts.
    rewrite DigitsFacts.counts_of_lines_spec.
    destruct (forallb _ _) eqn:Hall; [|done].
    rewrite forallb_forall in Hall.
    apply list_elem_of_In, Hall in Hline.
    rewrite (DigitsFacts.line_within_leftmost _ _ _ Hleft) in Hline.
    congruence.
  - intros w w1 w2 status m Hget Hst.
    unfold Digits.call_check_and_get_metric_and_id.
    rewrite Hget. cbn [checked_text]. rewrite Hst.
    destruct (Digits.sum_of_counts max_str_digits body) as [sum_count|e];
      [|done].
    destruct (SingleURL.call_instance_id w1) as [[inst w3]|e]; [|done].
    by intros [= <- _].
  - by vm_compute.
  - intros g [rest Hs]%(PatternFacts.search_leftmost _ _
                          PatternFacts.count_0_here_spec).
    unfold Digits.extract_count, Digits.int. rewrite Hs.
    by destruct (Digits.within max_str_digits g).
  - intros Hs%(PatternFacts.search_absent _ _
                 PatternFacts.count_0_here_spec).
    unfold Digits.extract_count. by rewrite Hs.
  - by vm_compute.
  - intros g [Hshort|[->|Hlimit]].
    + by apply DigitsFacts.within_short.
    + apply DigitsFacts.within_unlimited.
    + unfold Digits.within.
      rewrite (proj2 (Nat.leb_le _ max_str_digits) Hlimit).
      by rewrite orb_true_r.
Qed.

(** The two parsers on the body of the spec's example. *)
Lemma metric_parsing_witness :
  Pattern.line_counts (Text.splitlines example_body) [500; 300]
  ∧ Digits.sum_of_counts Digits.DEFAULT_MAX_STR_DIGITS example_body
    = Ok (Fin 800)
  ∧ Pattern.leftmost Pattern.index_0 example_body "500"
  ∧ Digits.extract_count Digits.DEFAULT_MAX_STR_DIGITS example_body
    = Ok (Some 500).
Proof.
  assert (Pattern.line_counts (Text.splitlines example_body) [500; 300]) as Hl
    by (by apply PatternFacts.line_counts_parse).
  assert (Pattern.leftmost Pattern.index_0 example_body "500") as H0.
  { apply (PatternFacts.search_leftmost _ _ PatternFacts.count_0_here_spec).
    by exists (nl ++ "count[1] is 300")%string. }
  pose proof (metric_parsing (W:=Script.t) Digits.DEFAULT_MAX_STR_DIGITS
                example_body)
    as (_ & _ & _ & _ & Hsum & Hfirst & _).
  split_and!; [exact Hl|exact Hsum|exact H0|exact (Hfirst _ H0)].
Defined.

(** ** The aggregation step of the single-URL variant *)

Module AggregationFacts.
Import SingleURL Aggregation.

Lemma record_kept remaining acc m :
  record_measurement remaining acc m =
  if kept remaining m then max_reduce_step acc m else acc.
Proof.
  unfold record_measurement, kept, max_reduce_step.
  destruct (decide (instance_id m ∈ remaining)) as [Hin|Hin].
  - rewrite (bool_decide_eq_false_2 (_ ∉ _)) by tauto.
    rewrite bool_decide_eq_true_2 by done. by destruct (is_inf _).
  - rewrite (bool_decide_eq_true_2 (_ ∉ _)) by done.
    by rewrite bool_decide_eq_false_2.
Qed.

Lemma foldl_record_filter remaining ms acc :
  foldl (record_measurement remaining) acc ms =
  foldl max_reduce_step acc (filter (fun m => kept remaining m = true) ms).
Proof.
  revert acc. induction ms as [|m ms IH]; intros acc; [done|].
  cbn [foldl]. rewrite record_kept, IH.
  destruct (kept remaining m) eqn:Hk.
  - by rewrite filter_cons_True.
  - rewrite filter_cons_False; [done|]. by rewrite Hk.
Qed.

Lemma record_lookup remaining acc m id :
  record_measurement remaining acc m !! id =
  if kept remaining m && bool_decide (id = instance_id m)
  then Some (match acc !! id with
             | None => sum_count m
             | Some old => metric_max old (sum_count m)
             end)
  else acc !! id.
Proof.
  rewrite record_kept. destruct (kept remaining m); [|done]. cbn.
  unfold max_reduce_step. case_bool_decide as Hid.
  - subst id. destruct (acc !! instance_id m); by rewrite lookup_insert_eq.
  - destruct (acc !! instance_id m); by rewrite lookup_insert_ne.
Qed.

Lemma build_snoc remaining ms m :
  build_inst_metric remaining (ms ++ [m]) =
  record_measurement remaining (build_inst_metric remaining ms) m.
Proof. unfold build_inst_metric. by rewrite foldl_snoc. Qed.

Ltac in_snoc := rewrite elem_of_app, list_elem_of_singleton; auto.

(** What an aggregated value is: a finite metric observed for its key,
    which is a remaining instance, and at least every finite metric observed
    for that key. *)
Lemma build_lookup_Some remaining ms id v :
  build_inst_metric remaining ms !! id = Some v →
  id ∈ remaining
  ∧ ∃ n, v = Fin n
    ∧ (∃ m, m ∈ ms ∧ instance_id m = id ∧ sum_count m = Fin n)
    ∧ (∀ m k, m ∈ ms → instance_id m = id → sum_count m = Fin k → k ≤ n).
Proof.
  revert v. induction ms as [|m ms IH] using rev_ind; intros v.
  { unfold build_inst_metric. cbn. by rewrite lookup_empty. }
  rewrite build_snoc, record_lookup.
  destruct (kept remaining m) eqn:Hk; cbn.
  - apply andb_true_iff in Hk as [Hin%bool_decide_eq_true Hfin%negb_true_iff].
    destruct (sum_count m) as [c|] eqn:Hc; [|done].
    case_bool_decide as Hid.
    + subst id.
      destruct (build_inst_metric remaining ms !! instance_id m) as [old|] eqn:Ho.
      * destruct (IH _ eq_refl) as (_ & n & -> & (m0 & Hm0 & Hi0 & Hs0) & Hmax).
        intros [= <-]. split; [done|]. unfold metric_max, metric_lt.
        destruct (Z.ltb_spec n c).
        -- exists c. split_and!; [done|exists m; split_and!; [in_snoc|done..]|].
           intros m1 k [Hm1| ->%list_elem_of_singleton]%elem_of_app Hi1 Hs1.
           ++ specialize (Hmax _ _ Hm1 Hi1 Hs1). lia.
           ++ rewrite Hc in Hs1. injection Hs1 as <-. lia.
        -- exists n. split_and!; [done|exists m0; split_and!; [in_snoc|done..]|].
           intros m1 k [Hm1| ->%list_elem_of_singleton]%elem_of_app Hi1 Hs1.
           ++ by apply (Hmax _ _ Hm1 Hi1 Hs1).
           ++ rewrite Hc in Hs1. injection Hs1 as <-. lia.
      * intros [= <-]. split; [done|]. exists c.
        split_and!; [done|exists m; split_and!; [in_snoc|done..]|].
        intros m1 k [Hm1| ->%list_elem_of_singleton]%elem_of_app Hi1 Hs1.
        -- exfalso. clear IH.
           assert (is_Some (build_inst_metric remaining ms !! instance_id m))
             as [? ?]; [|congruence].
           revert Hm1 Ho. clear -Hin Hi1 Hs1.
           induction ms as [|m2 ms IH] using rev_ind; [set_solver|].
           rewrite build_snoc, record_lookup.
           intros [Hm1| ->%list_elem_of_singleton]%elem_of_app.
           ++ destruct (_ && _); [done|]. auto.
           ++ unfold kept. rewrite Hi1, Hs1.
              rewrite !bool_decide_eq_true_2 by done. done.
        -- rewrite Hc in Hs1. injection Hs1 as <-. lia.
    + intros Hv. destruct (IH _ Hv) as (? & n & -> & (m0 & ? & ? & ?) & Hmax).
      split; [done|]. exists n. split_and!; [done|exists m0; split_and!; [in_snoc|done..]|].
      intros m1 k [Hm1| ->%list_elem_of_singleton]%elem_of_app Hi1 Hs1;
        [by apply (Hmax _ _ Hm1 Hi1 Hs1)|done].
  - intros Hv. destruct (IH _ Hv) as (? & n & -> & (m0 & ? & ? & ?) & Hmax).
    split; [done|]. exists n. split_and!; [done|exists m0; split_and!; [in_snoc|done..]|].
    intros m1 k [Hm1| ->%list_elem_of_singleton]%elem_of_app Hi1 Hs1;
      [by apply (Hmax _ _ Hm1 Hi1 Hs1)|].
    unfold kept in Hk. rewrite Hi1, Hs1 in Hk. cbn in Hk.
    apply andb_false_iff in Hk as [Hk|Hk]; [|done].
    apply bool_decide_eq_false in Hk.
    exfalso. apply Hk. by rewrite <- Hi1.
Qed.

Lemma build_lookup_is_Some remaining ms m k :
  m ∈ ms → instance_id m ∈ remaining → sum_count m = Fin k →
  is_Some (build_inst_metric remaining ms !! instance_id m).
Proof.
  intros Hm Hin Hs. induction ms as [|m2 ms IH] using rev_ind.
  { by apply not_elem_of_nil in Hm. }
  rewrite build_snoc, record_lookup.
  apply elem_of_app in Hm as [Hm| ->%list_elem_of_singleton].
  - destruct (_ && _); [done|]. auto.
  - unfold kept. rewrite Hs. by rewrite !bool_decide_eq_true_2.
Qed.

Lemma kept_false remaining m :
  kept remaining m = false ↔
  sum_count m = Inf ∨ instance_id m ∉ remaining.
Proof.
  unfold kept. rewrite andb_false_iff, bool_decide_eq_false, negb_false_iff.
  destruct (sum_count m); cbn; intuition congruence.
Qed.

Lemma build_filter remaining ms :
  build_inst_metric remaining ms =
  max_reduce (filter (fun m => kept remaining m = true) ms).
Proof. apply foldl_record_filter. Qed.

Lemma build_discard remaining ms1 m ms2 :
  kept remaining m = false →
  build_inst_metric remaining (ms1 ++ m :: ms2) =
  build_inst_metric remaining (ms1 ++ ms2).
Proof.
  intros Hk. rewrite !build_filter, !filter_app, filter_cons_False; [done|].
  by rewrite Hk.
Qed.

(** Adding a measurement anywhere in the batch. *)
Lemma build_insert remaining ms1 m' ms2 id n :
  build_inst_metric remaining (ms1 ++ ms2) !! id = Some (Fin n) →
  ∃ n', build_inst_metric remaining (ms1 ++ m' :: ms2) !! id = Some (Fin n')
    ∧ n ≤ n'
    ∧ (∀ k, sum_count m' = Fin k → k ≤ n → n' = n)
    ∧ (sum_count m' = Inf → n' = n).
Proof.
  intros (Hin & n0 & [= <-] & (m0 & Hm0 & Hi0 & Hs0) & Hmax)%build_lookup_Some.
  assert (m0 ∈ (ms1 ++ m' :: ms2)%list) as Hm0'.
  { apply elem_of_app in Hm0 as [?|?]; apply elem_of_app;
      [by left|right; by apply elem_of_cons; right]. }
  destruct (build_lookup_is_Some remaining _ _ _ Hm0' ltac:(by rewrite Hi0) Hs0)
    as [v' Hv'].
  rewrite Hi0 in Hv'.
  destruct (build_lookup_Some _ _ _ _ Hv')
    as (_ & n' & -> & (m1 & Hm1 & Hi1 & Hs1) & Hmax').
  exists n'. split; [done|].
  assert (n ≤ n') as Hle by (by apply (Hmax' m0)).
  assert (m1 = m' ∨ m1 ∈ (ms1 ++ ms2)%list) as Hcase.
  { apply elem_of_app in Hm1 as [?|[?|?]%elem_of_cons];
      [right|by left|right]; apply elem_of_app; auto. }
  split_and!; [done|..].
  - intros k Hk Hkn. destruct Hcase as [->|Hm1'].
    + rewrite Hk in Hs1. injection Hs1 as <-. lia.
    + specialize (Hmax _ _ Hm1' Hi1 Hs1). lia.
  - intros Hinf. destruct Hcase as [->|Hm1']; [congruence|].
    specialize (Hmax _ _ Hm1' Hi1 Hs1). lia.
Qed.

Lemma elem_of_form_group lock threshold (inst_metric : gmap string metric) x :
  x ∈ form_group lock threshold inst_metric ↔
  x = lock ∨ ∃ v, inst_metric !! x = Some v ∧ metric_ge v threshold = true.
Proof.
  unfold form_group.
  assert (∀ (l : list (string * metric)) (g0 : gset string),
    x ∈ foldl (fun group '(inst_id, metric) =>
                 if bool_decide (inst_id = lock) then group
                 else if metric_ge metric threshold then group ∪ {[inst_id]}
                 else group) g0 l ↔
    x ∈ g0 ∨ ∃ v, (x, v) ∈ l ∧ x ≠ lock ∧ metric_ge v threshold = true) as Hf.
  { induction l as [|[i v] l IH]; intros g0; cbn [foldl].
    - split; [auto|]. intros [?|(v & []%not_elem_of_nil & _)]. done.
    - rewrite IH. case_bool_decide as Hi.
      + split.
        * intros [?|(v' & ? & ? & ?)]; [by left|right].
          exists v'. split_and!; [by apply elem_of_cons; right|done..].
        * intros [?|(v' & [[= -> ->]|?]%elem_of_cons & ? & ?)];
            [by left|done|right]. by exists v'.
      + destruct (metric_ge v threshold) eqn:Hge.
        * rewrite elem_of_union, elem_of_singleton. split.
          -- intros [[?| ->]|(v' & ? & ? & ?)]; [by left|right..].
             ++ exists v. split_and!; [by apply elem_of_cons; left|done..].
             ++ exists v'. split_and!; [by apply elem_of_cons; right|done..].
          -- intros [?|(v' & [[= -> ->]|?]%elem_of_cons & ? & ?)];
               [by left; left|by left; right|right]. by exists v'.
        * split.
          -- intros [?|(v' & ? & ? & ?)]; [by left|right].
             exists v'. split_and!; [by apply elem_of_cons; right|done..].
          -- intros [?|(v' & [[= -> ->]|?]%elem_of_cons & ? & ?)];
               [by left|congruence|right]. by exists v'. }
  rewrite Hf, elem_of_singleton. split.
  - intros [?|(v & Hv%elem_of_map_to_list & ? & ?)]; [by left|right].
    by exists v.
  - intros [?|(v & Hv & ?)]; [by left|].
    destruct (decide (x = lock)); [by left|right].
    exists v. by rewrite elem_of_map_to_list.
Qed.

End AggregationFacts.

(** What a committing turn of the single-URL loop did. *)
Lemma iteration_Commit `{Net W} `{SingleURL.Json} `{PyOrder}
  (threshold : Q) (st st' : SingleURL.state W) group :
  SingleURL.iteration threshold st = SingleURL.Commit group st' →
  ∃ lock w1 ms w2,
    SingleURL.call_lock_and_get_instance_id (SingleURL.world st) = Ok (lock, w1)
    ∧ lock ≠ "unknown" ∧ lock ∈ SingleURL.remaining st
    ∧ SingleURL.collect_measurements SingleURL.NUM_CHECK_REQUESTS w1
      = Ok (ms, w2)
    ∧ group = set_iter (SingleURL.form_group lock threshold
                (SingleURL.build_inst_metric (SingleURL.remaining st) ms))
    ∧ st' = {| SingleURL.remaining :=
                 discard_all (SingleURL.remaining st) group;
               SingleURL.groups := SingleURL.groups st ++ [group];
               SingleURL.world := w2 |}.
Proof.
  unfold SingleURL.iteration.
  destruct (SingleURL.call_lock_and_get_instance_id _) as [[lock w1]|e]
    eqn:Hlock; [|done].
  case_bool_decide as Hu; [done|]. case_bool_decide as Hin; [done|].
  destruct (SingleURL.collect_measurements _ _) as [[ms w2]|e] eqn:Hms;
    [|done].
  intros [= <- <-]. exists lock, w1, ms, w2. split_and!; try done.
Qed.

(** C4, as stated, fails: of two measurements of the remaining instance A,
    5 and +infinity, the aggregated value is 5 where the maximum metric
    observed is +infinity; and an instance that is not remaining has no
    aggregated value at all. *)
Lemma max_aggregation_counterexample :
  SingleURL.build_inst_metric {["A"]} [mA5; mAinf] !! "A" = Some (Fin 5)
  ∧ Spec.max_observed "A" [mA5; mAinf] = Some Inf
  ∧ SingleURL.build_inst_metric {["B"]} [mA5; mA7] !! "A" = None
  ∧ Spec.max_observed "A" [mA5; mA7] = Some (Fin 7).
Proof. split_and!; reflexivity. Qed.

(** C4, amended. Within one batch, the aggregated value of an instance ID
    of RemainingSet is the maximum of the finite metrics observed for it: it
    is the metric of one of its measurements and no measurement of that ID
    has a higher finite one; unmeasurable results (+infinity) are skipped,
    and an ID that is not remaining, or has no finite measurement, has no
    aggregated value. Consequently adding a further measurement anywhere in
    the batch never lowers the aggregated value of an already-measured ID,
    and leaves it unchanged when the added metric is not higher. *)
Theorem max_aggregation (remaining : gset string)
  (ms : list SingleURL.measurement) (id : string) :
  (∀ v, SingleURL.build_inst_metric remaining ms !! id = Some v →
     id ∈ remaining
     ∧ ∃ n, v = Fin n
       ∧ (∃ m, m ∈ ms ∧ SingleURL.instance_id m = id
               ∧ SingleURL.sum_count m = Fin n)
       ∧ (∀ m k, m ∈ ms → SingleURL.instance_id m = id →
                 SingleURL.sum_count m = Fin k → k ≤ n))
  ∧ (∀ m k, m ∈ ms → SingleURL.instance_id m = id → id ∈ remaining →
            SingleURL.sum_count m = Fin k →
            is_Some (SingleURL.build_inst_metric remaining ms !! id))
  ∧ (∀ ms1 ms2 m' n, ms = (ms1 ++ ms2)%list →
       SingleURL.build_inst_metric remaining ms !! id = Some (Fin n) →
       ∃ n', SingleURL.build_inst_metric remaining (ms1 ++ m' :: ms2) !! id
             = Some (Fin n')
         ∧ n ≤ n'
         ∧ (∀ k, SingleURL.sum_count m' = Fin k → k ≤ n → n' = n)).
Proof.
  split_and!.
  - apply AggregationFacts.build_lookup_Some.
  - intros m k Hm <- Hin Hs. by eapply AggregationFacts.build_lookup_is_Some.
  - intros ms1 ms2 m' n -> Hn.
    destruct (AggregationFacts.build_insert _ _ m' _ _ _ Hn) as (n' & ? & ? & ? & _).
    by exists n'.
Qed.

(** A batch with 7 and +infinity for A, to which a measurement of 5 is
    added. *)
Lemma max_aggregation_witness :
  SingleURL.build_inst_metric {["A"]} [mA7; mAinf] !! "A" = Some (Fin 7)
  ∧ ∃ n', SingleURL.build_inst_metric {["A"]} [mA7; mA5; mAinf] !! "A"
          = Some (Fin n')
      ∧ 7 ≤ n' ∧ (∀ k, Fin 5 = Fin k → k ≤ 7 → n' = 7).
Proof.
  assert (SingleURL.build_inst_metric {["A"]} [mA7; mAinf] !! "A"
          = Some (Fin 7)) as H7 by reflexivity.
  split; [exact H7|].
  exact (proj2 (proj2 (max_aggregation {["A"]} [mA7; mAinf] "A"))
           [mA7] [mAinf] mA5 7 eq_refl H7).
Defined.

(** C10. In the aggregation step of the single-URL variant a measurement
    whose metric is +infinity or whose instance ID is not in RemainingSet is
    skipped before the max-reduction, so dropping it from the batch changes
    nothing; every aggregated value is finite and every key is in
    RemainingSet, the sentinel ["unknown"] is no key unless it is itself a
    remaining ID; and every member of a committed group other than the lock
    instance is a remaining ID with a finite measurement at or above the
    threshold in the batch. *)
Theorem unmeasurable_discarded `{Net W} `{SingleURL.Json} `{PyOrder}
  (remaining : gset string) (ms : list SingleURL.measurement)
  (threshold : Q) :
  SingleURL.build_inst_metric remaining ms
    = Aggregation.max_reduce
        (filter (fun m => Aggregation.kept remaining m = true) ms)
  ∧ (∀ m, Aggregation.kept remaining m = false ↔
          SingleURL.sum_count m = Inf ∨ SingleURL.instance_id m ∉ remaining)
  ∧ (∀ ms1 m ms2, ms = (ms1 ++ m :: ms2)%list →
       SingleURL.sum_count m = Inf ∨ SingleURL.instance_id m ∉ remaining →
       SingleURL.build_inst_metric remaining ms
         = SingleURL.build_inst_metric remaining (ms1 ++ ms2))
  ∧ (∀ id v, SingleURL.build_inst_metric remaining ms !! id = Some v →
       is_inf v = false ∧ id ∈ remaining)
  ∧ ("unknown" ∉ remaining →
       SingleURL.build_inst_metric remaining ms !! "unknown" = None)
  ∧ (∀ lock x,
       x ∈ SingleURL.form_group lock threshold
             (SingleURL.build_inst_metric remaining ms) →
       x = lock
       ∨ x ∈ remaining
         ∧ ∃ m n, m ∈ ms ∧ SingleURL.instance_id m = x
                  ∧ SingleURL.sum_count m = Fin n
                  ∧ (threshold <= inject_Z n)%Q)
  ∧ (∀ (st st' : SingleURL.state W) group,
       SingleURL.iteration threshold st = SingleURL.Commit group st' →
       ∃ lock w1 batch w2,
         SingleURL.call_lock_and_get_instance_id (SingleURL.world st)
           = Ok (lock, w1)
         ∧ SingleURL.collect_measurements SingleURL.NUM_CHECK_REQUESTS w1
           = Ok (batch, w2)
         ∧ ∀ x, x ∈ group →
             x = lock
             ∨ x ∈ SingleURL.remaining st
               ∧ ∃ m n, m ∈ batch ∧ SingleURL.instance_id m = x
                        ∧ SingleURL.sum_count m = Fin n
                        ∧ (threshold <= inject_Z n)%Q).
Proof.
  assert (∀ remaining ms lock x,
    x ∈ SingleURL.form_group lock threshold
          (SingleURL.build_inst_metric remaining ms) →
    x = lock
    ∨ x ∈ remaining
      ∧ ∃ m n, m ∈ ms ∧ SingleURL.instance_id m = x
               ∧ SingleURL.sum_count m = Fin n
               ∧ (threshold <= inject_Z n)%Q) as Hgroup.
  { intros R l lock x [?|(v & Hv & Hge)]%AggregationFacts.elem_of_form_group;
      [by left|right].
    apply AggregationFacts.build_lookup_Some in Hv
      as (? & n & -> & (m & ? & ? & ?) & _).
    split; [done|]. exists m, n. split_and!; [done..|].
    by apply Qle_bool_iff. }
  split_and!.
  - apply AggregationFacts.build_filter.
  - apply AggregationFacts.kept_false.
  - intros ms1 m ms2 -> Hm. apply AggregationFacts.build_discard.
    by apply AggregationFacts.kept_false.
  - intros id v (? & n & -> & _)%AggregationFacts.build_lookup_Some. done.
  - intros Hu. destruct (_ !! "unknown") as [v|] eqn:Hv; [|done].
    by apply AggregationFacts.build_lookup_Some in Hv as [? _].
  - apply Hgroup.
  - intros st st' group
      (lock & w1 & batch & w2 & Hl & _ & _ & Hc & -> & _)%iteration_Commit.
    exists lock, w1, batch, w2. split_and!; [done..|].
    intros x Hx. apply (Hgroup _ _ lock).
    rewrite set_iter_perm in Hx. by apply elem_of_elements in Hx.
Qed.

Lemma discard_all_difference (remaining : gset string) xs :
  discard_all remaining xs = remaining ∖ list_to_set xs.
Proof.
  unfold discard_all. revert remaining.
  induction xs as [|x xs IH]; intros remaining; cbn [foldl].
  - set_solver.
  - rewrite IH. set_solver.
Qed.

Lemma splits_start (original : gset string) : splits original original [].
Proof.
  split_and!; cbn; [constructor|set_solver|set_solver].
Qed.

Lemma splits_commit original remaining parts (g : list string) :
  splits original remaining parts → NoDup g → (∀ x, x ∈ g → x ∈ remaining) →
  splits original (discard_all remaining g) (parts ++ [g]).
Proof.
  intros (Hnd & Hall & Hdis) Hg Hsub. unfold splits.
  rewrite discard_all_difference, join_app. cbn. rewrite app_nil_r.
  split_and!.
  - apply NoDup_app. split_and!; [done| |done].
    intros x Hx Hxg. by apply (Hdis x Hx), Hsub.
  - intros x. rewrite Hall, elem_of_app, elem_of_difference, elem_of_list_to_set.
    destruct (decide (x ∈ g)); naive_solver.
  - intros x. rewrite elem_of_app, elem_of_difference, elem_of_list_to_set.
    naive_solver.
Qed.

Lemma NoDup_join_parts (parts : list (list string)) :
  NoDup (mjoin parts) →
  Forall NoDup parts
  ∧ (∀ i j p q x, parts !! i = Some p → parts !! j = Some q → i ≠ j →
       x ∈ p → x ∉ q).
Proof.
  induction parts as [|p0 parts IH]; cbn.
  { intros _. split; [constructor|]. intros i j p q x Hi. done. }
  intros (Hp0 & Hdis & Hrest)%NoDup_app.
  destruct (IH Hrest) as [Hall Hpair]. split; [by constructor|].
  intros [|i] [|j] p q x Hi Hj Hij Hxp Hxq; cbn in *; simplify_eq.
  - apply (Hdis x Hxp). apply list_elem_of_join. exists q.
    split; [done|]. by eapply list_elem_of_lookup_2.
  - apply (Hdis x Hxq). apply list_elem_of_join. exists p.
    split; [done|]. by eapply list_elem_of_lookup_2.
  - apply (Hpair i j p q x); auto.
Qed.

Lemma splits_done original parts :
  splits original ∅ parts → partition_of parts original.
Proof.
  intros (Hnd & Hall & _). destruct (NoDup_join_parts _ Hnd) as [? ?].
  split_and!; [|done..].
  intros x. rewrite Hall, list_elem_of_join. set_solver.
Qed.

(** ** The per-URL partitioner *)

Module PerURLFacts.
Import PerURL Progress.

Lemma dict_set_keys {V} k (v : V) d x :
  x ∈ (dict_set k v d).*1 ↔ x = k ∨ x ∈ d.*1.
Proof.
  induction d as [|[k' v'] d IH]; cbn.
  - rewrite list_elem_of_singleton. set_solver.
  - case_bool_decide as Hk; cbn.
    + subst k'. rewrite !elem_of_cons. naive_solver.
    + rewrite !elem_of_cons, IH. naive_solver.
Qed.

Section World.
Context `{Net W} `{PyOrder}.

Lemma check_each_keys urls results (w : W) x :
  x ∈ (check_each urls results w).1.*1 ↔ x ∈ results.*1 ∨ x ∈ urls.
Proof.
  revert results w. induction urls as [|url urls IH]; intros results w; cbn.
  - set_solver.
  - destruct (execute_endpoint url CHECK_ENDPOINT w) as [text w1].
    rewrite IH, dict_set_keys, elem_of_cons. naive_solver.
Qed.

Lemma run_iteration_keys lock check_urls (w : W) x :
  x ∈ (run_iteration_for_lock lock check_urls w).1.*1 ↔ x ∈ check_urls.
Proof.
  unfold run_iteration_for_lock.
  destruct (execute_endpoint lock LOCK_ENDPOINT w) as [text w1].
  destruct check_urls as [|u us]; [done|].
  rewrite check_each_keys, as_completed_perm. cbn. set_solver.
Qed.

Lemma round1_candidates_keys threshold results x :
  x ∈ round1_candidates threshold results → x ∈ results.*1.
Proof.
  unfold round1_candidates.
  intros ([k v] & -> & [_ ?]%list_elem_of_filter)%list_elem_of_fmap.
  apply list_elem_of_fmap. by exists (k, v).
Qed.

Lemma round2_verified_candidates threshold candidate_urls results x :
  x ∈ round2_verified threshold candidate_urls results → x ∈ candidate_urls.
Proof. unfold round2_verified. by intros [_ ?]%list_elem_of_filter. Qed.

Lemma set_iter_elem_of (s : gset string) x : x ∈ set_iter s ↔ x ∈ s.
Proof. by rewrite set_iter_perm, elem_of_elements. Qed.

Lemma set_iter_NoDup (s : gset string) : NoDup (set_iter s).
Proof. rewrite set_iter_perm. apply NoDup_elements. Qed.

(** What one turn of the loop does on a non-empty remaining set. *)
Lemma iteration_spec threshold (st : state W) :
  remaining st ≠ ∅ →
  ∃ lock, head (set_iter (remaining st)) = Some lock ∧ lock ∈ remaining st ∧
  match iteration threshold st with
  | Stop_iteration => False
  | Last_one st' =>
      remaining st = {[lock]} ∧ ∃ w, st' = commit st lock [lock] w
  | No_candidate st' => ∃ w, st' = commit st lock [lock] w
  | Reverified candidate_urls verified_members st' =>
      (∀ x, x ∈ candidate_urls → x ∈ remaining st ∧ x ≠ lock)
      ∧ (∀ x, x ∈ verified_members → x ∈ candidate_urls)
      ∧ ∃ group_members w,
          st' = commit st lock group_members w
          ∧ NoDup group_members
          ∧ ∀ x, x ∈ group_members ↔ x = lock ∨ x ∈ verified_members
  end.
Proof.
  intros Hne. unfold iteration.
  destruct (set_iter (remaining st)) as [|lock rest] eqn:Hiter.
  { exfalso. apply Hne. apply set_eq. intros x.
    rewrite <- set_iter_elem_of, Hiter. set_solver. }
  assert (lock ∈ remaining st) as Hlock.
  { apply set_iter_elem_of. rewrite Hiter. by left. }
  exists lock. split_and!; [done..|].
  destruct (filter (λ u, u ≠ lock) (lock :: rest)) as [|u us] eqn:Hcheck.
  { split; [|by eexists].
    apply set_eq. intros x. rewrite elem_of_singleton.
    rewrite <- set_iter_elem_of, Hiter. split; [|by intros ->; left].
    intros Hx. destruct (decide (x = lock)) as [|Hxl]; [done|].
    by destruct (filter_nil_not_elem_of _ _ x Hcheck Hxl). }
  rewrite <- Hcheck.
  destruct (run_iteration_for_lock lock _ (world st)) as [r1 w1] eqn:Hr1.
  destruct (round1_candidates threshold r1) as [|c cs] eqn:Hcand.
  { by eexists. }
  rewrite <- Hcand.
  destruct (run_iteration_for_lock lock _ w1) as [r2 w2] eqn:Hr2.
  split_and!.
  - intros x Hx%round1_candidates_keys.
    change r1 with (r1, w1).1 in Hx. rewrite <- Hr1 in Hx.
    apply run_iteration_keys, list_elem_of_filter in Hx as [? Hx].
    split; [|done]. apply set_iter_elem_of. by rewrite Hiter.
  - apply round2_verified_candidates.
  - eexists _, _. split_and!; [done|apply set_iter_NoDup|].
    intros x. rewrite set_iter_elem_of, elem_of_list_to_set, elem_of_cons.
    done.
Qed.

Lemma commit_commits (st : state W) lock group_members w :
  lock ∈ group_members → NoDup group_members →
  (∀ x, x ∈ group_members → x ∈ remaining st) →
  commits st (commit st lock group_members w).
Proof.
  intros Hl Hnd Hsub. eexists {| lock_url := lock |}. cbn.
  split_and!; [done..|]. apply discard_all_difference.
Qed.

Lemma iteration_commits threshold (st : state W) :
  remaining st ≠ ∅ →
  match iteration threshold st with
  | Stop_iteration => False
  | Last_one st' => commits st st' ∧ remaining st' = ∅
  | No_candidate st' => commits st st'
  | Reverified _ _ st' => commits st st'
  end.
Proof.
  intros Hne. destruct (iteration_spec threshold st Hne) as (lock & _ & Hl & Hi).
  assert (NoDup [lock]) as Hnd1 by (apply NoDup_singleton).
  destruct (iteration threshold st) as [st'|st'|cands ver st'|]; [| | |done].
  - destruct Hi as [Hrem [w ->]]. split.
    + apply commit_commits; set_solver.
    + unfold commit; cbn. rewrite Hrem. set_solver.
  - destruct Hi as [w ->]. apply commit_commits; set_solver.
  - destruct Hi as (Hc & Hv & gm & w & -> & Hnd & Hgm).
    apply commit_commits; [by apply Hgm; left|done|].
    intros x [->|Hx]%Hgm; [done|]. by apply Hc, Hv.
Qed.

Lemma commits_size (st st' : state W) :
  commits st st' → (size (remaining st') < size (remaining st))%nat.
Proof.
  intros (g & _ & Hl & _ & Hsub & ->). apply subset_size.
  assert (lock_url g ∈ remaining st) by auto.
  assert (lock_url g ∈ (list_to_set (members g) : gset string))
    by (by apply elem_of_list_to_set).
  set_solver.
Qed.

Lemma commits_splits original (st st' : state W) :
  commits st st' →
  splits original (remaining st) (members <$> groups st) →
  splits original (remaining st') (members <$> groups st').
Proof.
  intros (g & -> & _ & Hnd & Hsub & ->) Hs.
  rewrite fmap_app, <- discard_all_difference. by apply splits_commit.
Qed.

(** The loop keeps the invariant, and its result has no remaining
    instance. *)
Lemma coverage_loop_splits original fuel threshold (st st' : state W) :
  splits original (remaining st) (members <$> groups st) →
  coverage_loop fuel threshold st = Returned st' →
  splits original ∅ (members <$> groups st').
Proof.
  revert st. induction fuel as [|fuel IH]; intros st Hs; cbn [coverage_loop].
  - case_bool_decide as He; [|done]. intros [= <-]. by rewrite <- He.
  - case_bool_decide as He; [intros [= <-]; by rewrite <- He|].
    pose proof (iteration_commits threshold st He) as Hi.
    destruct (iteration threshold st) as [st1|st1|cands ver st1|]; [| | |done].
    + destruct Hi as [Hc Hrem]. intros [= <-]. rewrite <- Hrem.
      by eapply commits_splits.
    + apply IH. by eapply commits_splits.
    + apply IH. by eapply commits_splits.
Qed.


End World.
End PerURLFacts.

(** ** The single-URL partitioner *)

Module SingleURLFacts.
Import SingleURL Progress.

Section World.
Context `{Net W} `{Json} `{PyOrder}.

(** A turn is retried exactly when the lock landed on an instance that
    cannot be named or that is not remaining. *)
Lemma iteration_Retry threshold (st : state W) w1 :
  iteration threshold st = Retry w1 ↔
  ∃ lock, call_lock_and_get_instance_id (world st) = Ok (lock, w1)
          ∧ (lock = "unknown" ∨ lock ∉ remaining st).
Proof.
  unfold iteration.
  destruct (call_lock_and_get_instance_id _) as [[lock w2]|e].
  - case_bool_decide as Hu.
    { split; [intros [= <-]; exists lock; auto|].
      by intros (? & [= <- <-] & _). }
    case_bool_decide as Hin.
    { split; [intros [= <-]; exists lock; auto|].
      by intros (? & [= <- <-] & _). }
    destruct (collect_measurements _ _) as [[ms w3]|e];
      (split; [done|]); intros (? & [= <- <-] & [?|?]); done.
  - split; [done|]. by intros (? & [=] & _).
Qed.

(** A committing turn forms a group of remaining instances, the lock
    instance among them, and removes exactly this group. *)
Lemma iteration_Commit_group threshold (st st' : state W) group :
  iteration threshold st = Commit group st' →
  NoDup group
  ∧ (∃ lock, lock ∈ group ∧ lock ∈ remaining st)
  ∧ (∀ x, x ∈ group → x ∈ remaining st)
  ∧ remaining st' = remaining st ∖ list_to_set group
  ∧ groups st' = (groups st ++ [group])%list.
Proof.
  intros (lock & w1 & ms & w2 & _ & _ & Hin & _ & -> & ->)%iteration_Commit.
  cbn. split_and!.
  - apply PerURLFacts.set_iter_NoDup.
  - exists lock. split; [|done].
    apply PerURLFacts.set_iter_elem_of, AggregationFacts.elem_of_form_group.
    by left.
  - intros x [->|(v & Hv & _)]%PerURLFacts.set_iter_elem_of
      %AggregationFacts.elem_of_form_group; [done|].
    by apply AggregationFacts.build_lookup_Some in Hv as [? _].
  - apply discard_all_difference.
  - done.
Qed.

Lemma iteration_Commit_size threshold (st st' : state W) group :
  iteration threshold st = Commit group st' →
  (size (remaining st') < size (remaining st))%nat.
Proof.
  intros (_ & (lock & Hl & Hin) & Hsub & -> & _)%iteration_Commit_group.
  apply subset_size.
  assert (lock ∈ (list_to_set group : gset string))
    by (by apply elem_of_list_to_set).
  set_solver.
Qed.



End World.
End SingleURLFacts.


Example example_coverage :
  @PerURL.identify_server_coverage _ _ sorted_order 4 (Some 1000)
    example_urls example_world
  = Returned
      ([{| PerURL.lock_url := "A/"; PerURL.members := ["A/"; "B/"] |};
        {| PerURL.lock_url := "C/"; PerURL.members := ["C/"] |};
        {| PerURL.lock_url := "D/"; PerURL.members := ["D/"] |}],
       {| Script.now := 3 # 10; Script.pending := [] |}).
Proof. vm_compute. reflexivity. Qed.

Example example_sharing :
  @SingleURL.identify_server_sharing _ _ _ sorted_order 4 (Some 5%Q)
    ["A"; "B"; "C"] sharing_world
  = Returned ([["A"; "B"]; ["C"]], Script.start []).
Proof. vm_compute. reflexivity. Qed.


(** C5. In a turn of the per-URL partitioner that runs Round 2, the
    candidates of Round 1 are remaining instances other than the lock
    instance, the verified members are among the candidates, the committed
    group is the lock instance together with the verified members, exactly
    the members of this group leave RemainingSet, and a candidate that
    failed reverification is still in RemainingSet. *)
Theorem reverification_filter `{Net W} `{PyOrder} (threshold : Z)
  (st st' : PerURL.state W) (candidate_urls verified_members : list string) :
  PerURL.iteration threshold st
    = PerURL.Reverified candidate_urls verified_members st' →
  ∃ lock g,
    head (set_iter (PerURL.remaining st)) = Some lock
    ∧ lock ∈ PerURL.remaining st
    ∧ (∀ x, x ∈ candidate_urls → x ∈ PerURL.remaining st ∧ x ≠ lock)
    ∧ (∀ x, x ∈ verified_members → x ∈ candidate_urls)
    ∧ PerURL.groups st' = (PerURL.groups st ++ [g])%list
    ∧ PerURL.lock_url g = lock
    ∧ NoDup (PerURL.members g)
    ∧ (∀ x, x ∈ PerURL.members g ↔ x = lock ∨ x ∈ verified_members)
    ∧ (∀ x, x ∈ PerURL.remaining st' ↔
            x ∈ PerURL.remaining st ∧ x ∉ PerURL.members g)
    ∧ (∀ x, x ∈ candidate_urls → x ∉ verified_members →
            x ∈ PerURL.remaining st').
Proof.
  intros Hi.
  assert (PerURL.remaining st ≠ ∅) as Hne.
  { intros He. unfold PerURL.iteration in Hi.
    destruct (set_iter (PerURL.remaining st)) as [|l r] eqn:Hs; [done|].
    assert (l ∈ PerURL.remaining st) as Hl.
    { apply PerURLFacts.set_iter_elem_of. rewrite Hs. by left. }
    rewrite He in Hl. set_solver. }
  destruct (PerURLFacts.iteration_spec threshold st Hne)
    as (lock & Hhead & Hlock & Hspec).
  rewrite Hi in Hspec.
  destruct Hspec as (Hc & Hv & gm & w & -> & Hnd & Hgm).
  exists lock, {| PerURL.lock_url := lock; PerURL.members := gm |}. cbn.
  assert (∀ x, x ∈ discard_all (PerURL.remaining st) gm ↔
               x ∈ PerURL.remaining st ∧ x ∉ gm) as Hrem.
  { intros x.
    by rewrite discard_all_difference, elem_of_difference,
      elem_of_list_to_set. }
  split_and!; try done.
  intros x Hx Hnv. apply Hrem. split; [by apply Hc|].
  intros [->|?]%Hgm; [|done]. by destruct (Hc _ Hx).
Qed.

(** The first turn of the spec's example runs Round 2 on B and D and
    verifies B. *)
Example example_first_turn :
  @PerURL.iteration _ _ sorted_order 1000 example_start
  = PerURL.Reverified ["B/"; "D/"] ["B/"] example_round2.
Proof. vm_compute. reflexivity. Qed.

(** In the first turn of the spec's example D fails reverification and
    stays remaining. *)
Lemma reverification_filter_witness :
  "D/" ∈ ["B/"; "D/"] ∧ ("D/" ∉ ["B/"])
  ∧ "D/" ∈ PerURL.remaining example_round2.
Proof.
  assert ("D/" ∈ ["B/"; "D/"]) as Hin by (by apply elem_of_cons; right; left).
  assert ("D/" ∉ ["B/"]) as Hout by (by intros [=]%list_elem_of_singleton).
  split_and!; [exact Hin|exact Hout|].
  destruct (reverification_filter (H0 := sorted_order) _ _ _ _ _
              example_first_turn)
    as (lock & g & _ & _ & _ & _ & _ & _ & _ & _ & _ & Hstay).
  exact (Hstay _ Hin Hout).
Defined.

(** C9. With the threshold unset both partitioners return an empty list
    of groups at once: the world is the one they were called in, so no
    request was made. *)
Theorem threshold_unset `{Net W} `{SingleURL.Json} `{PyOrder} (fuel : nat)
  (instances : list string) (w : W) :
  PerURL.identify_server_coverage fuel None instances w = Returned ([], w)
  ∧ SingleURL.identify_server_sharing fuel None instances w
    = Returned ([], w).
Proof. split; reflexivity. Qed.

(** ** Progress of the partitioner loops *)





(** ** The oracle client *)




(** ** The localizer *)

Module LocatorFacts.
Import Locator.

(** Halving: the two logarithms of the halves of [n]. *)
Lemma log2_half n : (2 ≤ n → Nat.log2 n ≤ S (Nat.log2 (n / 2)))%nat.
Proof.
  intros Hn.
  assert (0 < n / 2)%nat as Hpos.
  { apply Nat.div_str_pos. lia. }
  destruct (Nat.log2 n) as [|k] eqn:Hk; [lia|].
  apply le_n_S. apply Nat.log2_le_pow2; [done|].
  assert (2 ^ S k ≤ n)%nat as Hp.
  { rewrite <- Hk. apply Nat.log2_spec. lia. }
  rewrite Nat.pow_succ_r' in Hp.
  apply Nat.div_le_lower_bound; lia.
Qed.

Lemma log2_up_half n : (2 ≤ n → S (Nat.log2_up (n - n / 2)) ≤ Nat.log2_up n)%nat.
Proof.
  intros Hn.
  assert (n / 2 < n)%nat by (apply Nat.div_lt; lia).
  assert (0 < Nat.log2_up n)%nat as Hpos by (apply Nat.log2_up_pos; lia).
  destruct (Nat.log2_up n) as [|k] eqn:Hk; [lia|].
  apply le_n_S. apply Nat.log2_up_le_pow2; [lia|].
  assert (n ≤ 2 ^ S k)%nat as Hp.
  { rewrite <- Hk. apply Nat.log2_log2_up_spec. lia. }
  rewrite Nat.pow_succ_r' in Hp.
  pose proof (Nat.div_mod_eq n 2) as Hdm.
  pose proof (Nat.mod_upper_bound n 2 ltac:(lia)) as Hm.
  lia.
Qed.

Lemma half_le n : (n / 2 ≤ n - n / 2)%nat.
Proof.
  pose proof (Nat.div_mod_eq n 2) as Hdm. lia.
Qed.

Section World.
Context `{Net W}.

(** The loop of the bisection on a non-empty list: it returns within
    [log2_up] of the length turns, with one candidate of the list left, after
    a number of steps between the two logarithms of the length. *)
Lemma bisect_spec fuel a (st : search W) :
  candidates st ≠ [] →
  (Nat.log2_up (length (candidates st)) ≤ fuel)%nat →
  ∃ st' x,
    bisect fuel a st = Returned st'
    ∧ candidates st' = [x] ∧ x ∈ candidates st
    ∧ (step st + Nat.log2 (length (candidates st)) ≤ step st')%nat
    ∧ (step st' ≤ step st + Nat.log2_up (length (candidates st)))%nat.
Proof.
  revert st. induction fuel as [|fuel IH]; intros st Hne Hfuel.
  - assert (length (candidates st) ≤ 1)%nat as Hlen.
    { apply Nat.log2_up_null. lia. }
    destruct (candidates st) as [|x [|y l]] eqn:Hc; [done| |cbn in Hlen; lia].
    exists st, x. cbn [bisect]. rewrite Hc. cbn.
    split_and!; [done|done|by left|lia|lia].
  - cbn [bisect]. case_bool_decide as Hlen.
    + set (n := length (candidates st)) in *.
      set (mid := (n / 2)%nat).
      assert (2 ≤ n)%nat as Hn by lia.
      assert (0 < mid)%nat as Hmid by (apply Nat.div_str_pos; lia).
      assert (mid < n)%nat as Hmid' by (apply Nat.div_lt; lia).
      pose proof (log2_half n Hn) as Hlo.
      pose proof (log2_up_half n Hn) as Hhi.
      pose proof (half_le n) as Hhalf. fold mid in Hlo, Hhi, Hhalf.
      pose proof (Nat.log2_le_mono _ _ Hhalf) as Hlo'.
      pose proof (Nat.log2_up_le_mono _ _ Hhalf) as Hhi'.
      destruct (measure_latency_with_lock a _ (world st)) as [m w1].
      destruct (is_above_threshold m (latency_threshold a)).
      * destruct (IH {| candidates := take mid (candidates st);
                        step := S (step st); world := w1 |})
          as (st' & x & Hb & Hx & Hin & Hs1 & Hs2); cbn [candidates step].
        { intros He%(f_equal length). rewrite length_take in He.
          fold n in He. change (length (@nil string)) with O in He. lia. }
        { rewrite length_take. fold n.
          replace (mid `min` n)%nat with mid by lia. lia. }
        cbn [candidates step] in Hin, Hs1, Hs2.
        rewrite length_take in Hs1, Hs2.
        fold n in Hs1, Hs2.
        replace (mid `min` n)%nat with mid in Hs1, Hs2 by lia.
        exists st', x. split_and!; [done|done| |lia..].
        by apply (subseteq_take mid (candidates st)).
      * destruct (IH {| candidates := drop mid (candidates st);
                        step := S (step st); world := w1 |})
          as (st' & x & Hb & Hx & Hin & Hs1 & Hs2); cbn [candidates step].
        { intros He%(f_equal length). rewrite length_drop in He.
          fold n in He. change (length (@nil string)) with O in He. lia. }
        { rewrite length_drop. fold n. lia. }
        cbn [candidates step] in Hin, Hs1, Hs2.
        rewrite length_drop in Hs1, Hs2.
        fold n in Hs1, Hs2.
        exists st', x. split_and!; [done|done| |lia..].
        by apply (subseteq_drop mid (candidates st)).
    + destruct (candidates st) as [|x [|y l]] eqn:Hc;
        [done| |cbn in Hlen; lia].
      exists st, x. rewrite Hc. cbn.
      split_and!; [done|done|by left|lia|lia].
Qed.

End World.
End LocatorFacts.

(** The example of the spec: eight candidates, medians 0.8 s, 0.3 s and
    then one at the threshold or above. *)
Example example_bisection :
  Locator.binary_search_localization 3 example_args
    ["x1"; "x2"; "x3"; "x4"; "x5"; "x6"; "x7"; "x8"]
    (Script.start [victim (8 # 10); victim (3 # 10); victim (9 # 10)])
  = Returned ("x3", 3%nat, {| Script.now := 23 # 10; Script.pending := [] |}).
Proof. vm_compute. reflexivity. Qed.

(** C2, as stated, fails: with three candidates and a victim that is slow
    in the first round, the left half of one candidate is kept and the search
    ends after one round, where the ceiling of log2(3) is two. *)
Lemma bisection_convergence_counterexample :
  Locator.binary_search_localization 2 example_args ["x1"; "x2"; "x3"]
    (Script.start [victim (8 # 10)])
  = Returned ("x1", 1%nat, {| Script.now := 9 # 10; Script.pending := [] |})
  ∧ Nat.log2_up 3 = 2%nat.
Proof. split; vm_compute; reflexivity. Qed.

(** C2, amended. On a list of N >= 1 candidates the Binary-Search
    Localizer ends within ceil(log2 N) turns and returns one instance of the
    list; the number of trigger/measure rounds it makes lies between
    floor(log2 N) and ceil(log2 N), depending on the halves kept, and is
    exactly log2 N when N is a power of two. Each round splits the list by
    position into the first floor(len/2) candidates and the rest, triggers
    the first part, and keeps it iff the measured median is at or above the
    threshold. *)
Theorem bisection_convergence `{Net W} (a : Locator.args)
  (instances : list string) (w : W) (fuel : nat) :
  instances ≠ [] → (Nat.log2_up (length instances) ≤ fuel)%nat →
  (∃ x steps w',
     Locator.binary_search_localization fuel a instances w
     = Returned (x, steps, w')
     ∧ x ∈ instances
     ∧ (Nat.log2 (length instances) ≤ steps)%nat
     ∧ (steps ≤ Nat.log2_up (length instances))%nat
     ∧ (∀ k, length instances = (2 ^ k)%nat → steps = k))
  ∧ (∀ fuel' (st : Locator.search W),
       (1 < length (Locator.candidates st))%nat →
       Locator.bisect (S fuel') a st =
       let mid := (length (Locator.candidates st) / 2)%nat in
       let left := take mid (Locator.candidates st) in
       let right := drop mid (Locator.candidates st) in
       let '(probed_median, w1) :=
         Locator.measure_latency_with_lock a left (Locator.world st) in
       Locator.bisect fuel' a
         {| Locator.candidates :=
              if Locator.is_above_threshold probed_median
                   (Locator.latency_threshold a)
              then left else right;
            Locator.step := S (Locator.step st);
            Locator.world := w1 |}).
Proof.
  intros Hne Hfuel. split.
  - destruct (LocatorFacts.bisect_spec fuel a
                {| Locator.candidates := instances; Locator.step := 0;
                   Locator.world := w |} Hne Hfuel)
      as (st' & x & Hb & Hx & Hin & Hs1 & Hs2).
    cbn in Hin, Hs1, Hs2.
    exists x, (Locator.step st'), (Locator.world st').
    unfold Locator.binary_search_localization. rewrite Hb, Hx.
    split_and!; [done..|].
    intros k Hk. rewrite Hk in Hs1, Hs2.
    rewrite Nat.log2_pow2 in Hs1 by lia.
    rewrite Nat.log2_up_pow2 in Hs2 by lia. lia.
  - intros fuel' st Hlen. cbn [Locator.bisect].
    rewrite bool_decide_eq_true_2 by done. cbn zeta.
    destruct (Locator.measure_latency_with_lock a _ _) as [m w1].
    by destruct (Locator.is_above_threshold _ _).
Qed.

(** Eight candidates: three rounds. *)
Lemma bisection_convergence_witness :
  ∃ x steps w',
    Locator.binary_search_localization 3 example_args
      ["x1"; "x2"; "x3"; "x4"; "x5"; "x6"; "x7"; "x8"]
      (Script.start [victim (8 # 10); victim (3 # 10); victim (9 # 10)])
    = Returned (x, steps, w')
    ∧ x ∈ ["x1"; "x2"; "x3"; "x4"; "x5"; "x6"; "x7"; "x8"]
    ∧ (Nat.log2 8 ≤ steps)%nat
    ∧ (steps ≤ Nat.log2_up 8)%nat
    ∧ (∀ k, 8%nat = (2 ^ k)%nat → steps = k).
Proof.
  apply (bisection_convergence example_args
           ["x1"; "x2"; "x3"; "x4"; "x5"; "x6"; "x7"; "x8"]).
  - done.
  - vm_compute. lia.
Defined.

Module SelectionFacts.
Import Locator.

Lemma finite_latencies_filter latencies :
  Seconds <$> finite_latencies latencies
  = filter (fun x => is_lat_inf x = false) latencies.
Proof.
  induction latencies as [|[q|] l IH]; [done|..].
  - rewrite filter_cons_True by done. rewrite <- IH. done.
  - rewrite filter_cons_False by done. rewrite <- IH. done.
Qed.

Lemma finite_latencies_nil latencies :
  finite_latencies latencies = [] ↔ forallb is_lat_inf latencies = true.
Proof.
  induction latencies as [|[q|] l IH]; cbn; [done|by split|done].
Qed.

Section World.
Context `{Net W}.

Lemma sample_latencies_length url timeout runs (w : W) :
  length (sample_latencies url timeout runs w).1 = runs.
Proof.
  revert w. induction runs as [|runs IH]; intros w; cbn; [done|].
  destruct (perf_counter w) as [start w1].
  destruct (requests_get url timeout w1) as [r w2].
  destruct (checked_text r).
  - destruct (perf_counter w2) as [end_ w3]. specialize (IH w3).
    destruct (sample_latencies url timeout runs w3). cbn in *. by f_equal.
  - specialize (IH w2).
    destruct (sample_latencies url timeout runs w2). cbn in *. by f_equal.
Qed.

Lemma measure_victim_latency_spec url runs timeout (w : W) latencies w1 :
  sample_latencies url timeout (Z.to_nat runs) w = (latencies, w1) →
  measure_victim_latency url runs timeout w
  = (if forallb is_lat_inf latencies then LatInf
     else Seconds (median (finite_latencies latencies)), w1).
Proof.
  intros Hs. unfold measure_victim_latency. rewrite Hs.
  destruct (finite_latencies latencies) as [|q l] eqn:Hf.
  - apply finite_latencies_nil in Hf. by rewrite Hf.
  - destruct (forallb is_lat_inf latencies) eqn:Hall; [|done].
    apply finite_latencies_nil in Hall. congruence.
Qed.

Lemma find_from_range a sets idx (w : W) r w' :
  0 ≤ idx → find_candidate_set_from a idx sets w = (r, w') →
  r = -1 ∨ idx ≤ r < idx + Z.of_nat (length sets).
Proof.
  revert idx w. induction sets as [|s sets IH]; intros idx w Hidx;
    cbn [find_candidate_set_from app length].
  { intros [= <- <-]. by left. }
  destruct (instances s) as [|i l].
  - intros Hr. destruct (IH (idx + 1) w ltac:(lia) Hr) as [?|?];
      [by left|right; lia].
  - destruct (measure_latency_with_lock a (i :: l) w) as [m w1].
    destruct (is_above_threshold m (latency_threshold a)).
    + intros [= <- <-]. right. lia.
    + intros Hr. destruct (IH (idx + 1) w1 ltac:(lia) Hr) as [?|?];
        [by left|right; lia].
Qed.

Lemma find_from_app_fail a before rest idx (w w0 : W) :
  0 ≤ idx → find_candidate_set_from a idx before w = (-1, w0) →
  find_candidate_set_from a idx (before ++ rest) w
  = find_candidate_set_from a (idx + Z.of_nat (length before)) rest w0.
Proof.
  revert idx w. induction before as [|s before IH]; intros idx w Hidx;
    cbn [find_candidate_set_from app length].
  { intros [= <-]. by rewrite Z.add_0_r. }
  replace (idx + Z.of_nat (S (length before)))
    with (idx + 1 + Z.of_nat (length before)) by lia.
  destruct (instances s) as [|i l].
  - apply IH. lia.
  - destruct (measure_latency_with_lock a (i :: l) w) as [m w1].
    destruct (is_above_threshold m (latency_threshold a)).
    + intros [= -> _]. lia.
    + apply IH. lia.
Qed.

Lemma find_from_fail_split a before rest idx (w w' : W) :
  0 ≤ idx → find_candidate_set_from a idx (before ++ rest) w = (-1, w') →
  ∃ w0, find_candidate_set_from a idx before w = (-1, w0)
        ∧ find_candidate_set_from a (idx + Z.of_nat (length before)) rest w0
          = (-1, w').
Proof.
  revert idx w. induction before as [|s before IH]; intros idx w Hidx;
    cbn [find_candidate_set_from app length].
  { intros Hr. exists w. by rewrite Z.add_0_r. }
  replace (idx + Z.of_nat (S (length before)))
    with (idx + 1 + Z.of_nat (length before)) by lia.
  destruct (instances s) as [|i l].
  - apply IH. lia.
  - destruct (measure_latency_with_lock a (i :: l) w) as [m w1].
    destruct (is_above_threshold m (latency_threshold a)).
    + intros [= -> _]. lia.
    + apply IH. lia.
Qed.

Lemma find_from_hit a sets idx (w : W) r w' :
  0 ≤ idx → find_candidate_set_from a idx sets w = (r, w') → r ≠ -1 →
  ∃ before s after w0 m,
    sets = (before ++ s :: after)%list
    ∧ r = idx + Z.of_nat (length before)
    ∧ find_candidate_set_from a idx before w = (-1, w0)
    ∧ instances s ≠ []
    ∧ measure_latency_with_lock a (instances s) w0 = (m, w')
    ∧ is_above_threshold m (latency_threshold a) = true.
Proof.
  revert idx w. induction sets as [|s sets IH]; intros idx w Hidx;
    cbn [find_candidate_set_from app length].
  { by intros [= <- <-]. }
  destruct (instances s) as [|i l] eqn:Hi.
  - intros Hr Hne.
    destruct (IH (idx + 1) w ltac:(lia) Hr Hne)
      as (before & s' & after & w0 & m & -> & -> & Hb & ? & ? & ?).
    exists (s :: before), s', after, w0, m.
    cbn [find_candidate_set_from app length]. rewrite Hi.
    split_and!; [done|lia|done..].
  - destruct (measure_latency_with_lock a (i :: l) w) as [m w1] eqn:Hm.
    destruct (is_above_threshold m (latency_threshold a)) eqn:Ha.
    + intros [= <- <-] _. exists [], s, sets, w, m.
      cbn [find_candidate_set_from app length]. rewrite Hi.
      split_and!; [done|lia|done..].
    + intros Hr Hne.
      destruct (IH (idx + 1) w1 ltac:(lia) Hr Hne)
        as (before & s' & after & w0 & m' & -> & -> & Hb & ? & ? & ?).
      exists (s :: before), s', after, w0, m'.
      cbn [find_candidate_set_from app length]. rewrite Hi, Hm, Ha.
      split_and!; [done|lia|done..].
Qed.

End World.
End SelectionFacts.

(** C6. Phase 1 of the Localizer measures the non-empty architecture sets
    in input order and returns the index of the first one whose median is at
    or above the threshold, in the world that its measurement leaves: the
    sets after it are not scanned, whatever they are. When no measured set
    qualifies it returns the sentinel -1. The median of a measurement is
    taken over [probe_runs] samples; a failed request is the sample
    +infinity and is left out of the median, and the median is +infinity
    exactly when every sample is. *)
Theorem candidate_set_selection `{Net W} (a : Locator.args)
  (cpu_sets : list Locator.cpu_set) (w : W) :
  (∀ url runs timeout (w0 : W) latencies w1,
     Locator.sample_latencies url timeout (Z.to_nat runs) w0
     = (latencies, w1) →
     length latencies = Z.to_nat runs
     ∧ Locator.Seconds <$> Locator.finite_latencies latencies
       = filter (fun x => Locator.is_lat_inf x = false) latencies
     ∧ Locator.measure_victim_latency url runs timeout w0
       = (if forallb Locator.is_lat_inf latencies then Locator.LatInf
          else Locator.Seconds
                 (Locator.median (Locator.finite_latencies latencies)),
          w1))
  ∧ (∀ url timeout runs (w0 : W) start w1 r w2,
       perf_counter w0 = (start, w1) →
       requests_get url timeout w1 = (r, w2) →
       checked_text r = None →
       (Locator.sample_latencies url timeout (S runs) w0).1
       = Locator.LatInf
         :: (Locator.sample_latencies url timeout runs w2).1)
  ∧ (∀ idx w',
       Locator.find_candidate_set a cpu_sets w = (idx, w') →
       (idx = -1
        ∧ ∀ before s after,
            cpu_sets = (before ++ s :: after)%list →
            Locator.instances s ≠ [] →
            ∃ w0 m w1,
              Locator.find_candidate_set a before w = (-1, w0)
              ∧ Locator.measure_latency_with_lock a (Locator.instances s) w0
                = (m, w1)
              ∧ Locator.is_above_threshold m (Locator.latency_threshold a)
                = false)
       ∨ (∃ before s after w0 m,
            cpu_sets = (before ++ s :: after)%list
            ∧ idx = Z.of_nat (length before)
            ∧ Locator.find_candidate_set a before w = (-1, w0)
            ∧ Locator.instances s ≠ []
            ∧ Locator.measure_latency_with_lock a (Locator.instances s) w0
              = (m, w')
            ∧ Locator.is_above_threshold m (Locator.latency_threshold a)
              = true
            ∧ ∀ after',
                Locator.find_candidate_set a (before ++ s :: after') w
                = (idx, w'))).
Proof.
  split_and!.
  - intros url runs timeout w0 latencies w1 Hs. split_and!.
    + pose proof (SelectionFacts.sample_latencies_length
                    url timeout (Z.to_nat runs) w0) as Hl.
      by rewrite Hs in Hl.
    + apply SelectionFacts.finite_latencies_filter.
    + by apply SelectionFacts.measure_victim_latency_spec.
  - intros url timeout runs w0 start w1 r w2 Hp Hg Hc.
    cbn [Locator.sample_latencies]. rewrite Hp, Hg, Hc.
    by destruct (Locator.sample_latencies url timeout runs w2).
  - intros idx w' Hf. unfold Locator.find_candidate_set in *.
    destruct (decide (idx = -1)) as [->|Hne].
    + left. split; [done|]. intros before s after -> Hs.
      apply SelectionFacts.find_from_fail_split in Hf as (w0 & Hb & Hr);
        [|done].
      exists w0. cbn [Locator.find_candidate_set_from] in Hr.
      destruct (Locator.instances s) as [|i l]; [done|].
      destruct (Locator.measure_latency_with_lock a (i :: l) w0)
        as [m w1].
      exists m, w1.
      destruct (Locator.is_above_threshold m _); [|done].
      injection Hr as Hr _. lia.
    + right.
      destruct (SelectionFacts.find_from_hit a cpu_sets 0 w idx w'
                  ltac:(done) Hf Hne)
        as (before & s & after & w0 & m & -> & -> & Hb & Hs & Hm & Ha).
      exists before, s, after, w0, m. split_and!; try done.
      intros after'.
      rewrite (SelectionFacts.find_from_app_fail a before (s :: after')
                 0 w w0 ltac:(done) Hb).
      cbn [Locator.find_candidate_set_from].
      destruct (Locator.instances s) as [|i l]; [done|].
      by rewrite Hm, Ha.
Qed.

(** The first measured set is below the threshold of 0.5 s, the second at
    0.7 s is selected, and the reply kept for a third measurement is never
    asked for. *)
Example example_selection :
  Locator.find_candidate_set example_args example_sets
    (Script.start [victim (1 # 10); victim (7 # 10); victim (9 # 10)])
  = (2, {| Script.now := 1; Script.pending := [victim (9 # 10)] |}).
Proof. vm_compute. reflexivity. Qed.

Example example_no_candidate :
  Locator.find_candidate_set example_args example_sets
    (Script.start [victim (1 # 10); victim (2 # 10); victim (3 # 10)])
  = (-1, {| Script.now := 9 # 10; Script.pending := [] |}).
Proof. vm_compute. reflexivity. Qed.

(** With every request failing the median is +infinity. *)
Example example_all_failed :
  Locator.measure_victim_latency "https://victim/" 3 30 (Script.start [])
  = (Locator.LatInf, Script.start []).
Proof. vm_compute. reflexivity. Qed.

(** The selection of the third of the example sets. *)
Lemma candidate_set_selection_witness :
  ∃ before s after w0 m,
    example_sets = (before ++ s :: after)%list
    ∧ 2 = Z.of_nat (length before)
    ∧ Locator.find_candidate_set example_args before
        (Script.start [victim (1 # 10); victim (7 # 10); victim (9 # 10)])
      = (-1, w0)
    ∧ Locator.instances s ≠ []
    ∧ Locator.measure_latency_with_lock example_args
        (Locator.instances s) w0
      = (m, {| Script.now := 1; Script.pending := [victim (9 # 10)] |})
    ∧ Locator.is_above_threshold m
        (Locator.latency_threshold example_args) = true
    ∧ ∀ after',
        Locator.find_candidate_set example_args (before ++ s :: after')
          (Script.start [victim (1 # 10); victim (7 # 10); victim (9 # 10)])
        = (2, {| Script.now := 1; Script.pending := [victim (9 # 10)] |}).
Proof.
  destruct (proj2 (proj2 (candidate_set_selection example_args example_sets
                            _)) _ _ example_selection) as [[Hs _]|Hhit].
  - discriminate Hs.
  - exact Hhit.
Defined.

(** A batch with a measurement attributed to nobody. *)
Lemma unmeasurable_discarded_witness :
  SingleURL.build_inst_metric {["A"; "B"]} [mA7; mU9; mAinf] !! "unknown"
  = None
  ∧ SingleURL.build_inst_metric {["A"; "B"]} [mA7; mU9; mAinf]
    = SingleURL.build_inst_metric {["A"; "B"]} [mA7; mAinf].
Proof.
  pose proof (unmeasurable_discarded (W := Script.t) (H1 := elements_order)
                {["A"; "B"]} [mA7; mU9; mAinf] 5%Q)
    as (_ & _ & Hdrop & _ & Hunknown & _).
  split.
  - apply Hunknown. by vm_compute.
  - apply (Hdrop [mA7] mU9 [mAinf] eq_refl). right. by vm_compute.
Defined.


(** * Further properties of the scripts *)

(** ** The localizer *)

Module EndpointFacts.
Import Locator Strings.

Lemma last_char_cons c s :
  s ≠ "" → last_char (String c s) = last_char s.
Proof. by destruct s. Qed.

Lemma rstrip_slash_spec s :
  ∃ t, s = (rstrip_slash s ++ t)%string ∧ slashes t
       ∧ last_char (rstrip_slash s) ≠ Some slash.
Proof.
  induction s as [|c s (t & Hs & Ht & Hl)]; [by exists ""|].
  cbn [rstrip_slash].
  destruct (rstrip_slash s) as [|c' r] eqn:Hr.
  - destruct (Ascii.eqb c slash) eqn:Hc.
    + apply Ascii.eqb_eq in Hc as ->. exists (String slash t).
      split_and!; [by rewrite Hs| |done].
      unfold slashes in *. cbn. by rewrite Ht.
    + exists t. split_and!; [by rewrite Hs, PatternFacts.app_cons|done|].
      cbn. intros [= ->]. by rewrite Ascii.eqb_refl in Hc.
  - exists t. split_and!; [by rewrite Hs at 1|done|].
    by rewrite last_char_cons.
Qed.

Lemma lstrip_slash_spec s :
  ∃ t, s = (t ++ lstrip_slash s)%string ∧ slashes t
       ∧ first_char (lstrip_slash s) ≠ Some slash.
Proof.
  induction s as [|c s (t & Hs & Ht & Hl)]; [by exists ""|].
  cbn [lstrip_slash]. destruct (Ascii.eqb c slash) eqn:Hc.
  - apply Ascii.eqb_eq in Hc as ->. exists (String slash t).
    split_and!; [by rewrite PatternFacts.app_cons, <- Hs| |done].
    unfold slashes in *. cbn. by rewrite Ht.
  - exists "". split_and!; [done..|].
    cbn. intros [= ->]. by rewrite Ascii.eqb_refl in Hc.
Qed.

Lemma rstrip_slash_app_slash s :
  rstrip_slash (s ++ "/") = rstrip_slash s.
Proof.
  induction s as [|c s IH]; [done|].
  rewrite PatternFacts.app_cons. cbn [rstrip_slash]. by rewrite IH.
Qed.

End EndpointFacts.

(** X1. [build_endpoint] drops exactly the slashes that end [base_url] and the
    slashes that start [endpoint], and joins what is left with one slash; so
    one more slash at the end of the base or at the start of the endpoint
    does not change the URL. *)
Theorem build_endpoint_join (base_url endpoint : string) :
  (∃ b t1 t2 e,
     base_url = (b ++ t1)%string ∧ endpoint = (t2 ++ e)%string
     ∧ Strings.slashes t1 ∧ Strings.slashes t2
     ∧ Strings.last_char b ≠ Some Locator.slash
     ∧ Strings.first_char e ≠ Some Locator.slash
     ∧ Locator.build_endpoint base_url endpoint = (b ++ "/" ++ e)%string)
  ∧ Locator.build_endpoint (base_url ++ "/") endpoint
    = Locator.build_endpoint base_url endpoint
  ∧ Locator.build_endpoint base_url ("/" ++ endpoint)
    = Locator.build_endpoint base_url endpoint.
Proof.
  split_and!.
  - destruct (EndpointFacts.rstrip_slash_spec base_url) as (t1 & ? & ? & ?).
    destruct (EndpointFacts.lstrip_slash_spec endpoint) as (t2 & ? & ? & ?).
    by exists (Locator.rstrip_slash base_url), t1, t2,
      (Locator.lstrip_slash endpoint).
  - unfold Locator.build_endpoint.
    by rewrite EndpointFacts.rstrip_slash_app_slash.
  - reflexivity.
Qed.

Module MedianFacts.
Import Locator Median.

Lemma mid_between (a b : Q) :
  (a <= b → a <= (a + b) / 2 ∧ (a + b) / 2 <= b)%Q.
Proof.
  intros Hab. split.
  - apply Qle_shift_div_l; [reflexivity|]. lra.
  - apply Qle_shift_div_r; [reflexivity|]. lra.
Qed.

Lemma insert_sorted_perm x l : insert_sorted x l ≡ₚ x :: l.
Proof.
  induction l as [|y l IH]; cbn; [done|].
  destruct (Qle_bool x y); [done|]. rewrite IH. apply Permutation_swap.
Qed.

Lemma sorted_perm l : sorted l ≡ₚ l.
Proof.
  induction l as [|x l IH]; [done|].
  cbn. by rewrite insert_sorted_perm, IH.
Qed.

Lemma insert_sorted_sorted x l :
  StronglySorted Qle l → StronglySorted Qle (insert_sorted x l).
Proof.
  induction 1 as [|y l Hs IH Hy]; cbn.
  { repeat constructor. }
  destruct (Qle_bool x y) eqn:Hxy.
  - apply Qle_bool_iff in Hxy. constructor; [by constructor|].
    constructor; [done|].
    eapply Forall_impl; [exact Hy|]. intros z Hz. by eapply Qle_trans.
  - constructor; [done|]. rewrite insert_sorted_perm. constructor; [|done].
    destruct (Qlt_le_dec y x) as [?|Hle]; [by apply Qlt_le_weak|].
    apply Qle_bool_iff in Hle. congruence.
Qed.

Lemma sorted_sorted l : StronglySorted Qle (sorted l).
Proof.
  induction l as [|x l IH]; cbn; [constructor|].
  by apply insert_sorted_sorted.
Qed.

Lemma sorted_prefix_le (s : list Q) k m :
  StronglySorted Qle s → s !! k = Some m →
  Forall (fun x => (x <= m)%Q) (take (S k) s).
Proof.
  intros Hs Hk. rewrite (take_S_r _ _ _ Hk). apply Forall_app. split.
  - apply Forall_forall. intros x Hx.
    rewrite <- (take_drop k s) in Hs.
    apply (StronglySorted_app_1_elem_of _ _ _ x m Hs Hx).
    apply list_elem_of_lookup. exists O. by rewrite lookup_drop, Nat.add_0_r.
  - repeat constructor. apply Qle_refl.
Qed.

Lemma sorted_suffix_ge (s : list Q) k m :
  StronglySorted Qle s → s !! k = Some m →
  Forall (fun x => (m <= x)%Q) (drop k s).
Proof.
  intros Hs Hk. apply Forall_forall. intros x Hx.
  apply list_elem_of_lookup in Hx as [[|j] Hj]; rewrite lookup_drop in Hj.
  - rewrite Nat.add_0_r in Hj. assert (x = m) as -> by congruence.
    apply Qle_refl.
  - rewrite <- (take_drop (S k) s) in Hs.
    apply (StronglySorted_app_1_elem_of _ _ _ m x Hs).
    + rewrite (take_S_r _ _ _ Hk). apply elem_of_app. right. by left.
    + apply list_elem_of_lookup. exists j. rewrite lookup_drop.
      by replace (S k + j)%nat with (k + S j)%nat by lia.
Qed.

Lemma filter_take_length (P : Q → Prop) `{∀ x, Decision (P x)} s j :
  Forall P (take j s) → (j ≤ length s)%nat →
  (j ≤ length (filter P s))%nat.
Proof.
  intros Hall Hj. rewrite <- (take_drop j s) at 1.
  rewrite filter_app, length_app.
  assert (filter P (take j s) = take j s) as ->.
  { clear Hj. induction (take j s) as [|x l IH]; [done|].
    apply Forall_cons in Hall as [? ?].
    rewrite filter_cons_True by done. by rewrite IH. }
  rewrite length_take. lia.
Qed.

Lemma filter_drop_length (P : Q → Prop) `{∀ x, Decision (P x)} s j :
  Forall P (drop j s) → (length s - j ≤ length (filter P s))%nat.
Proof.
  intros Hall. rewrite <- (take_drop j s) at 2.
  rewrite filter_app, length_app.
  assert (filter P (drop j s) = drop j s) as ->.
  { induction (drop j s) as [|x l IH]; [done|].
    apply Forall_cons in Hall as [? ?].
    rewrite filter_cons_True by done. by rewrite IH. }
  rewrite length_drop. lia.
Qed.

(** The value [median] returns has at least half of the data on each side
    and lies between two of the data. *)
Lemma median_spec data :
  data ≠ [] →
  (length data ≤ 2 * at_most (median data) data)%nat
  ∧ (length data ≤ 2 * at_least (median data) data)%nat
  ∧ ∃ lo hi, lo ∈ data ∧ hi ∈ data
             ∧ (lo <= median data)%Q ∧ (median data <= hi)%Q.
Proof.
  intros Hne. unfold at_most, at_least.
  pose proof (sorted_perm data) as Hp.
  pose proof (sorted_sorted data) as Hs.
  assert (length (sorted data) = length data) as Hlen
    by (by apply Permutation_length).
  assert (0 < length data)%nat as Hpos by (destruct data; [done|cbn; lia]).
  rewrite <- !(Permutation_length
                 (filter_Permutation _ _ _ Hp)).
  unfold median. rewrite Hlen.
  set (n := length data) in *. set (s := sorted data) in *.
  pose proof (Nat.div_mod_eq n 2) as Hdm.
  pose proof (Nat.mod_upper_bound n 2 ltac:(lia)) as Hmod.
  destruct (Nat.odd n) eqn:Hodd.
  - assert (n `div` 2 < length s)%nat as Hk.
    { rewrite Hlen. apply Nat.div_lt; lia. }
    destruct (lookup_lt_is_Some_2 _ _ Hk) as [m Hm].
    rewrite (nth_lookup_Some _ _ _ _ Hm).
    pose proof (sorted_prefix_le _ _ _ Hs Hm) as Hle.
    pose proof (sorted_suffix_ge _ _ _ Hs Hm) as Hge.
    split_and!.
    + assert (Forall (fun x => Qle_bool x m = true)
                (take (S (n `div` 2)) s)) as Hle'.
      { eapply Forall_impl; [exact Hle|]. intros x. apply Qle_bool_iff. }
      pose proof (filter_take_length _ s _ Hle' ltac:(lia)). lia.
    + assert (Forall (fun x => Qle_bool m x = true)
                (drop (n `div` 2) s)) as Hge'.
      { eapply Forall_impl; [exact Hge|]. intros x. apply Qle_bool_iff. }
      pose proof (filter_drop_length _ s _ Hge'). lia.
    + assert (m ∈ data) as Hin.
      { rewrite <- Hp. by eapply list_elem_of_lookup_2. }
      exists m, m. split_and!; [done..|apply Qle_refl|apply Qle_refl].
  - set (i := (n `div` 2)%nat) in *.
    assert (n = (2 * i)%nat) as Hn.
    { rewrite <- Nat.negb_even, negb_false_iff in Hodd.
      apply Nat.even_spec in Hodd as [j Hj].
      subst i. rewrite Hj, Nat.mul_comm, Nat.div_mul by lia. lia. }
    assert (0 < i)%nat as Hi by lia.
    assert (i - 1 < length s)%nat as Hk1 by lia.
    assert (i < length s)%nat as Hk2 by lia.
    destruct (lookup_lt_is_Some_2 _ _ Hk1) as [a Ha].
    destruct (lookup_lt_is_Some_2 _ _ Hk2) as [b Hb].
    rewrite (nth_lookup_Some _ _ _ _ Ha), (nth_lookup_Some _ _ _ _ Hb).
    pose proof (sorted_prefix_le _ _ _ Hs Ha) as Hle.
    pose proof (sorted_suffix_ge _ _ _ Hs Hb) as Hge.
    pose proof (sorted_suffix_ge _ _ _ Hs Ha) as Hab.
    assert (a <= b)%Q as Hab'.
    { apply (proj1 (Forall_forall _ _) Hab).
      apply list_elem_of_lookup. exists 1%nat. rewrite lookup_drop.
      by replace (i - 1 + 1)%nat with i by lia. }
    replace (S (i - 1)) with i in Hle by lia.
    destruct (mid_between a b Hab') as [Hlo Hhi].
    split_and!.
    + assert (Forall (fun x => Qle_bool x ((a + b) / 2) = true)
                (take i s)) as Hle'.
      { eapply Forall_impl; [exact Hle|]. intros x Hx.
        apply Qle_bool_iff. by apply (Qle_trans _ a). }
      pose proof (filter_take_length _ s _ Hle' ltac:(lia)). lia.
    + assert (Forall (fun x => Qle_bool ((a + b) / 2) x = true)
                (drop i s)) as Hge'.
      { eapply Forall_impl; [exact Hge|]. intros x Hx.
        apply Qle_bool_iff. by apply (Qle_trans _ b). }
      pose proof (filter_drop_length _ s _ Hge'). lia.
    + exists a, b. split_and!; [| |done..].
      * rewrite <- Hp. by eapply list_elem_of_lookup_2.
      * rewrite <- Hp. by eapply list_elem_of_lookup_2.
Qed.

End MedianFacts.

(** X2. [measure_victim_latency], when it returns a number, returns a median
    of the latencies of the requests that succeeded: there is at least one
    of them, at least half of them are at most the result and at least half
    are at least the result, and the result lies between two of them. *)
Theorem victim_median `{Net W} (url : string) (runs : Z) (timeout : Q)
  (w : W) latencies w1 m w' :
  Locator.sample_latencies url timeout (Z.to_nat runs) w = (latencies, w1) →
  Locator.measure_victim_latency url runs timeout w
  = (Locator.Seconds m, w') →
  w' = w1
  ∧ Locator.finite_latencies latencies ≠ []
  ∧ (length (Locator.finite_latencies latencies)
     ≤ 2 * Median.at_most m (Locator.finite_latencies latencies))%nat
  ∧ (length (Locator.finite_latencies latencies)
     ≤ 2 * Median.at_least m (Locator.finite_latencies latencies))%nat
  ∧ ∃ lo hi,
      lo ∈ Locator.finite_latencies latencies
      ∧ hi ∈ Locator.finite_latencies latencies
      ∧ (lo <= m)%Q ∧ (m <= hi)%Q.
Proof.
  intros Hs. unfold Locator.measure_victim_latency. rewrite Hs.
  destruct (Locator.finite_latencies latencies) as [|q l] eqn:Hf; [done|].
  intros [= <- <-]. split; [done|]. split; [done|].
  by apply MedianFacts.median_spec.
Qed.

Module TallyFacts.
Import Locator.

Section World.
Context `{Net W}.

Lemma sample_latencies_tally url timeout runs (w : Tally.t W) :
  Tally.gets (sample_latencies url timeout runs w).2
  = (Tally.gets w + runs)%nat
  ∧ Tally.submits (sample_latencies url timeout runs w).2 = Tally.submits w.
Proof.
  revert w. induction runs as [|runs IH]; intros w;
    cbn [sample_latencies]; [cbn; lia|].
  cbn [perf_counter requests_get Tally.net].
  destruct (perf_counter (Tally.inner w)) as [start i1]. cbn.
  destruct (requests_get url timeout i1) as [r i2].
  destruct (checked_text r).
  - cbn [perf_counter Tally.net Tally.inner].
    destruct (perf_counter i2) as [end_ i3].
    match goal with |- context [sample_latencies url timeout runs ?w0] =>
      destruct (IH w0) as [Hg Hs];
      destruct (sample_latencies url timeout runs w0) as [ls w4] end.
    cbn in *. lia.
  - match goal with |- context [sample_latencies url timeout runs ?w0] =>
      destruct (IH w0) as [Hg Hs];
      destruct (sample_latencies url timeout runs w0) as [ls w4] end.
    cbn in *. lia.
Qed.

Lemma trigger_lock_async_tally urls endpoint timeout (w : Tally.t W) :
  Tally.gets (trigger_lock_async urls endpoint timeout w) = Tally.gets w
  ∧ Tally.submits (trigger_lock_async urls endpoint timeout w)
    = (Tally.submits w + length urls)%nat.
Proof.
  unfold trigger_lock_async. revert w.
  induction urls as [|u urls IH]; intros w; cbn [foldl length]; [lia|].
  destruct (IH (submit_get (build_endpoint u endpoint) timeout w))
    as [-> ->].
  cbn. lia.
Qed.

Lemma measure_victim_latency_tally url runs timeout (w : Tally.t W) :
  Tally.gets (measure_victim_latency url runs timeout w).2
  = (Tally.gets w + Z.to_nat runs)%nat
  ∧ Tally.submits (measure_victim_latency url runs timeout w).2
    = Tally.submits w.
Proof.
  unfold measure_victim_latency.
  pose proof (sample_latencies_tally url timeout (Z.to_nat runs) w) as Hs.
  destruct (sample_latencies url timeout (Z.to_nat runs) w) as [ls w1].
  by destruct (finite_latencies ls).
Qed.

Lemma measure_latency_with_lock_tally a urls (w : Tally.t W) :
  Tally.gets (measure_latency_with_lock a urls w).2
  = (Tally.gets w + Z.to_nat (probe_runs a))%nat
  ∧ Tally.submits (measure_latency_with_lock a urls w).2
    = (Tally.submits w + length urls)%nat.
Proof.
  unfold measure_latency_with_lock. destruct urls as [|u urls].
  - destruct (measure_victim_latency_tally (victim_url a) (probe_runs a)
                (victim_timeout a) w) as [-> ->]. cbn. lia.
  - match goal with |- context [measure_victim_latency _ _ _ ?w0] =>
      destruct (measure_victim_latency_tally (victim_url a) (probe_runs a)
                  (victim_timeout a) w0) as [-> ->] end.
    destruct (trigger_lock_async_tally (u :: urls) (lock_endpoint a)
                (lock_timeout a) w) as [Hg Hs].
    cbn [sleep Tally.net Tally.gets Tally.submits]. by rewrite Hg, Hs.
Qed.

Lemma bisect_tally fuel a (st st' : search (Tally.t W)) :
  bisect fuel a st = Returned st' →
  (Tally.submits (world st') + length (candidates st')
   ≤ Tally.submits (world st) + length (candidates st))%nat
  ∧ (step st ≤ step st')%nat
  ∧ Tally.gets (world st')
    = (Tally.gets (world st)
       + (step st' - step st) * Z.to_nat (probe_runs a))%nat.
Proof.
  revert st. induction fuel as [|fuel IH]; intros st; cbn [bisect].
  - case_bool_decide; [done|]. intros [= <-]. lia.
  - case_bool_decide as Hlen; [|intros [= <-]; lia].
    set (n := length (candidates st)) in *.
    pose proof (measure_latency_with_lock_tally a
                  (take (n `div` 2) (candidates st)) (world st)) as [Hg Hs].
    destruct (measure_latency_with_lock a _ (world st)) as [m w1].
    cbn [snd] in Hg, Hs. rewrite length_take in Hs. fold n in Hs.
    assert (n `div` 2 < n)%nat by (apply Nat.div_lt; lia).
    pose proof (LocatorFacts.half_le n) as Hhalf.
    set (h := (n `div` 2)%nat) in *.
    set (r := Z.to_nat (probe_runs a)) in *.
    destruct (is_above_threshold m (latency_threshold a)).
    + intros (H1 & H2 & H3)%IH. cbn [candidates step world] in *.
      rewrite length_take in H1. fold n h in H1.
      split_and!; [lia..|]. rewrite H3, Hg.
      replace (step st' - step st)%nat with (S (step st' - S (step st)))
        by lia.
      lia.
    + intros (H1 & H2 & H3)%IH. cbn [candidates step world] in *.
      rewrite length_drop in H1. fold n h in H1.
      split_and!; [lia..|]. rewrite H3, Hg.
      replace (step st' - step st)%nat with (S (step st' - S (step st)))
        by lia.
      lia.
Qed.

End World.
End TallyFacts.

(** X3. A bisection over N instances that returns has sent at most N - 1
    lock requests in all, and as many victim requests as it made rounds
    times [probe_runs]. *)
Theorem bisection_budget `{Net W} (a : Locator.args) (instances : list string)
  (w : Tally.t W) (fuel : nat) x steps w' :
  Locator.binary_search_localization fuel a instances w
  = Returned (x, steps, w') →
  (Tally.submits w' + 1 ≤ Tally.submits w + length instances)%nat
  ∧ Tally.gets w'
    = (Tally.gets w + steps * Z.to_nat (Locator.probe_runs a))%nat.
Proof.
  unfold Locator.binary_search_localization.
  destruct (Locator.bisect fuel a _) as [st'| |] eqn:Hb; [|done..].
  destruct (Locator.candidates st') as [|y l] eqn:Hc; [done|].
  intros [= <- <- <-].
  apply TallyFacts.bisect_tally in Hb as (H1 & H2 & H3).
  cbn [Locator.candidates Locator.step Locator.world] in *.
  rewrite Hc in H1. cbn [length] in H1. rewrite H3. split; [lia|].
  f_equal. f_equal. lia.
Qed.

Lemma victim_median_witness :
  (2 ≤ 2 * Median.at_most (275 # 500) [4 # 5; 15 # 50])%nat
  ∧ (2 ≤ 2 * Median.at_least (275 # 500) [4 # 5; 15 # 50])%nat.
Proof.
  pose proof (victim_median "https://victim/" 2 30
    (Script.start [victim (8 # 10); victim (3 # 10)])
    [Locator.Seconds (4 # 5); Locator.Seconds (15 # 50)]
    {| Script.now := 11 # 10; Script.pending := [] |} (275 # 500) _
    eq_refl eq_refl) as (_ & _ & H1 & H2 & _).
  exact (conj H1 H2).
Defined.

Lemma bisection_budget_witness :
  (7 + 1 ≤ 0 + 8)%nat ∧ 3%nat = (0 + 3 * 1)%nat.
Proof.
  exact (bisection_budget example_args
    ["x1"; "x2"; "x3"; "x4"; "x5"; "x6"; "x7"; "x8"]
    {| Tally.gets := 0; Tally.submits := 0;
       Tally.inner :=
         Script.start [victim (8 # 10); victim (3 # 10); victim (9 # 10)] |}
    3 "x3" 3
    {| Tally.gets := 3; Tally.submits := 7;
       Tally.inner := {| Script.now := 23 # 10; Script.pending := [] |} |}
    eq_refl).
Defined.

Module OracleFacts.
Import Locator.

Section World.
Context `{Net W}.

Lemma bisect_target fuel a I target instances (st st' : search W) :
  Oracle.exact a I target instances →
  candidates st ⊆ instances →
  I (world st) → target ∈ candidates st →
  bisect fuel a st = Returned st' →
  target ∈ candidates st' ∧ I (world st').
Proof.
  intros Horacle. revert st.
  induction fuel as [|fuel IH]; intros st Hsub HI Ht; cbn [bisect].
  - case_bool_decide; [done|]. by intros [= <-].
  - case_bool_decide as Hlen; [|by intros [= <-]].
    set (n := length (candidates st)) in *.
    assert (0 < n `div` 2)%nat as Hmid
      by (apply Nat.div_str_pos; lia).
    assert (take (n `div` 2) (candidates st) ≠ []) as Hne.
    { intros Hnil%(f_equal length). rewrite length_take in Hnil.
      fold n in Hnil. change (length (@nil string)) with O in Hnil. lia. }
    assert (take (n `div` 2) (candidates st) ⊆ instances) as Hl
      by (etrans; [apply subseteq_take|done]).
    destruct (Horacle _ (world st) HI Hne Hl) as [HI' Habove].
    destruct (measure_latency_with_lock a _ (world st)) as [m w1].
    cbn [fst snd] in HI', Habove.
    destruct (is_above_threshold m (latency_threshold a)).
    + apply IH; cbn [candidates world]; [done..|]. by apply Habove.
    + apply IH; cbn [candidates world]; [|done|].
      * etrans; [apply subseteq_drop|done].
      * rewrite <-(take_drop (n `div` 2) (candidates st)) in Ht.
        apply elem_of_app in Ht as [Ht|Ht]; [|done].
        by apply Habove in Ht.
Qed.

End World.
End OracleFacts.

(** X4. With a contention oracle that is exact (locking a non-empty part of
    the instances pushes the victim's median to the threshold exactly when
    the part contains the co-resident instance), the bisection returns the
    co-resident instance, for every list that contains it. *)
Theorem bisection_finds_target `{Net W} (a : Locator.args) (I : W → Prop)
  (target : string) (instances : list string) (w : W) (fuel : nat) :
  Oracle.exact a I target instances →
  I w → target ∈ instances →
  (Nat.log2_up (length instances) ≤ fuel)%nat →
  ∃ steps w',
    Locator.binary_search_localization fuel a instances w
    = Returned (target, steps, w')
    ∧ I w'.
Proof.
  intros Horacle HI Ht Hfuel.
  set (st := {| Locator.candidates := instances; Locator.step := 0;
                Locator.world := w |}).
  destruct (LocatorFacts.bisect_spec fuel a st)
    as (st' & x & Hb & Hc & _); cbn [Locator.candidates st]; [|done|].
  { intros ->. by apply elem_of_nil in Ht. }
  assert (Locator.candidates st ⊆ instances) as Hsub by done.
  destruct (OracleFacts.bisect_target fuel a I target instances st st'
              Horacle Hsub HI Ht Hb) as [Hin HI'].
  rewrite Hc in Hin. apply list_elem_of_singleton in Hin as ->.
  exists (Locator.step st'), (Locator.world st').
  unfold Locator.binary_search_localization. fold st. by rewrite Hb, Hc.
Qed.

Module IdealFacts.
Import Locator.

Lemma trigger_hot co urls endpoint timeout (w : Ideal.t) :
  Ideal.hot (@trigger_lock_async _ (Ideal.net co) urls endpoint timeout w)
  = Ideal.hot w || existsb (λ u, co (build_endpoint u endpoint)) urls.
Proof.
  unfold trigger_lock_async. revert w.
  induction urls as [|u urls IH]; intros w; cbn [foldl existsb].
  - by rewrite orb_false_r.
  - rewrite IH. cbn. by rewrite orb_assoc.
Qed.

(** One probe of the victim in [Ideal]: slow exactly when a lock of the
    co-resident instance is running, and the contention is over afterwards. *)
Lemma probe co (a : args) (t : Q) (w : Ideal.t) :
  probe_runs a = 1 → latency_threshold a = Seconds t →
  (1 # 10 < t)%Q → (t <= 1)%Q →
  Ideal.hot
    (@measure_victim_latency _ (Ideal.net co) (victim_url a) (probe_runs a)
       (victim_timeout a) w).2 = false
  ∧ is_above_threshold
      (@measure_victim_latency _ (Ideal.net co) (victim_url a) (probe_runs a)
         (victim_timeout a) w).1 (latency_threshold a)
    = Ideal.hot w.
Proof.
  intros -> -> Hlo Hhi. split; [done|].
  unfold measure_victim_latency. change (Z.to_nat 1) with 1%nat.
  cbn -[Qle_bool Qplus Qminus median].
  unfold median; cbn -[Qle_bool Qplus Qminus].
  destruct (Ideal.hot w).
  - apply Qle_bool_iff. lra.
  - apply not_true_is_false. intros Hle%Qle_bool_iff. lra.
Qed.

Lemma oracle co (a : args) (t : Q) target instances :
  probe_runs a = 1 → latency_threshold a = Seconds t →
  (1 # 10 < t)%Q → (t <= 1)%Q →
  (∀ u, u ∈ instances →
     co (build_endpoint u (lock_endpoint a)) = true ↔ u = target) →
  @Oracle.exact _ (Ideal.net co) a (λ w, Ideal.hot w = false)
    target instances.
Proof.
  intros Hruns Ht Hlo Hhi Hco left w0 Hcalm Hne Hsub.
  unfold measure_latency_with_lock. destruct left as [|u left']; [done|].
  match goal with |- context [measure_victim_latency _ _ _ ?w1] =>
    destruct (probe co a t w1 Hruns Ht Hlo Hhi) as [-> ->] end.
  split; [done|].
  change (Ideal.hot (@sleep _ (Ideal.net co) ?d ?w1)) with (Ideal.hot w1).
  rewrite trigger_hot, Hcalm, orb_false_l.
  rewrite existsb_exists. split.
  - intros (x & Hx%list_elem_of_In & Hcox).
    assert (x = target) as <- by (apply Hco; [by apply Hsub|done]). done.
  - intros Hin. exists target. split; [by apply list_elem_of_In|].
    apply Hco; [by apply Hsub|done].
Qed.

Lemma beside_x3_spec u :
  u ∈ five_instances →
  String.eqb "x3/lock" (build_endpoint u "lock") = true ↔ u = "x3".
Proof.
  unfold five_instances. rewrite !elem_of_cons, elem_of_nil.
  intros [->|[->|[->|[->|[->|[]]]]]]; by vm_compute.
Qed.

End IdealFacts.

Lemma bisection_finds_target_witness :
  ∃ steps w',
    @Locator.binary_search_localization _ beside_x3 3 example_args
      five_instances calm
    = Returned ("x3", steps, w')
    ∧ Ideal.hot w' = false.
Proof.
  apply (@bisection_finds_target _ beside_x3 example_args
           (λ w, Ideal.hot w = false) "x3" five_instances calm 3).
  - apply (IdealFacts.oracle _ example_args (1 # 2));
      [reflexivity|reflexivity|reflexivity|discriminate|].
    apply IdealFacts.beside_x3_spec.
  - reflexivity.
  - unfold five_instances. apply list_elem_of_In. cbn. tauto.
  - vm_compute. lia.
Defined.

Module MainFacts.
Import Locator LocatorMain.

Section World.
Context `{Net W}.

Lemma find_lookup a cpu_sets (w : W) r w' :
  find_candidate_set a cpu_sets w = (r, w') → r ≠ -1 →
  ∃ s, 0 ≤ r ∧ cpu_sets !! Z.to_nat r = Some s ∧ instances s ≠ [].
Proof.
  intros Hfind Hr.
  destruct (SelectionFacts.find_from_hit a cpu_sets 0 w r w')
    as (before & s & after & w0 & m & -> & -> & _ & Hne & _); [lia|done..|].
  exists s. split; [lia|]. split; [|done].
  rewrite Z.add_0_l, Nat2Z.id.
  by rewrite lookup_app_r, Nat.sub_diag by lia.
Qed.

Lemma sample_latencies_failed a timeout runs (w : W) :
  (∀ timeout (w0 : W),
     checked_text (requests_get (victim_url a) timeout w0).1 = None) →
  finite_latencies (sample_latencies (victim_url a) timeout runs w).1 = [].
Proof.
  intros Hfail. revert w.
  induction runs as [|runs IH]; intros w; cbn [sample_latencies]; [done|].
  destruct (perf_counter w) as [start w1].
  pose proof (Hfail timeout w1) as Hr.
  destruct (requests_get (victim_url a) timeout w1) as [r w2].
  cbn [fst] in Hr. rewrite Hr.
  pose proof (IH w2) as Hrest.
  by destruct (sample_latencies (victim_url a) timeout runs w2).
Qed.

Lemma measure_victim_blind a (w : W) :
  Oracle.blind W a →
  (measure_victim_latency (victim_url a) (probe_runs a) (victim_timeout a)
     w).1 = LatInf.
Proof.
  intros [Hruns|Hfail]; unfold measure_victim_latency.
  - replace (Z.to_nat (probe_runs a)) with O by lia. done.
  - pose proof (sample_latencies_failed a (victim_timeout a)
                  (Z.to_nat (probe_runs a)) w Hfail) as Hnil.
    destruct (sample_latencies _ _ _ w) as [ls w1].
    cbn [fst] in Hnil. by rewrite Hnil.
Qed.

Lemma measure_blind a urls (w : W) :
  Oracle.blind W a → (measure_latency_with_lock a urls w).1 = LatInf.
Proof.
  intros Hblind. unfold measure_latency_with_lock.
  destruct urls; by apply measure_victim_blind.
Qed.

Lemma find_blind_fail a sets idx (w w' : W) :
  Oracle.blind W a → 0 ≤ idx →
  find_candidate_set_from a idx sets w = (-1, w') →
  Forall (λ s, instances s = []) sets.
Proof.
  intros Hblind. revert idx w.
  induction sets as [|s sets IH]; intros idx w Hidx;
    cbn [find_candidate_set_from]; [by constructor|].
  destruct (instances s) as [|u l] eqn:Hs.
  - intros Hrest. constructor; [done|]. eapply (IH (idx + 1)); [lia|done].
  - pose proof (measure_blind a (u :: l) w Hblind) as Hm.
    destruct (measure_latency_with_lock a (u :: l) w) as [m w1].
    cbn [fst] in Hm. subst m. cbn [is_above_threshold].
    intros [= -> _]. lia.
Qed.

Lemma join_empty (sets : list cpu_set) :
  Forall (λ s, instances s = []) sets → mjoin (instances <$> sets) = [].
Proof.
  induction 1 as [|s sets Hs _ IH]; [done|].
  change (mjoin (instances <$> s :: sets))
    with (instances s ++ mjoin (instances <$> sets))%list.
  by rewrite Hs, IH.
Qed.

Lemma bisect_blind fuel a (st st' : search W) :
  Oracle.blind W a → bisect fuel a st = Returned st' →
  head (candidates st') = head (candidates st).
Proof.
  intros Hblind. revert st.
  induction fuel as [|fuel IH]; intros st; cbn [bisect].
  - case_bool_decide; [done|]. by intros [= <-].
  - case_bool_decide as Hlen; [|by intros [= <-]].
    set (n := length (candidates st)) in *.
    assert (0 < n `div` 2)%nat as Hmid by (apply Nat.div_str_pos; lia).
    pose proof (measure_blind a (take (n `div` 2) (candidates st))
                  (world st) Hblind) as Hm.
    destruct (measure_latency_with_lock a _ (world st)) as [m w1].
    cbn [fst] in Hm. subst m. cbn [is_above_threshold].
    intros ->%IH. cbn [candidates].
    destruct (candidates st) as [|x l]; [done|].
    by destruct (n `div` 2)%nat; [lia|].
Qed.

End World.
End MainFacts.

(** X5. [main] never fails on a list index once the sets are loaded. With
    fuel for the largest set it returns: it reports no localization exactly
    when Phase 1 answered -1, and otherwise an instance of the set at the
    index Phase 1 selected. *)
Theorem main_localizes `{Net W} (a : Locator.args)
  (cpu_sets : list Locator.cpu_set) (w : W) (fuel : nat) :
  (∀ s, s ∈ cpu_sets →
     (Nat.log2_up (length (Locator.instances s)) ≤ fuel)%nat) →
  ∃ r w',
    LocatorMain.main fuel a cpu_sets w = Returned (r, w')
    ∧ match r with
      | LocatorMain.Not_localized =>
          Locator.find_candidate_set a cpu_sets w = (-1, w')
      | LocatorMain.Attacker x =>
          ∃ idx s,
            (Locator.find_candidate_set a cpu_sets w).1 = Z.of_nat idx
            ∧ cpu_sets !! idx = Some s
            ∧ x ∈ Locator.instances s
      end.
Proof.
  intros Hfuel. unfold LocatorMain.main.
  destruct (Locator.find_candidate_set a cpu_sets w) as [r w1] eqn:Hfind.
  pose proof (SelectionFacts.find_from_range a cpu_sets 0 w r w1
                ltac:(lia) Hfind) as Hrange.
  destruct (Z.ltb_spec r 0) as [Hneg|Hpos].
  { exists LocatorMain.Not_localized, w1. split; [done|].
    f_equal. lia. }
  destruct (MainFacts.find_lookup a cpu_sets w r w1 Hfind ltac:(lia))
    as (s & _ & Hs & Hne).
  rewrite Hs.
  assert (∀ x, x ∈ Locator.instances s →
            ∃ idx s0, (r, w1).1 = Z.of_nat idx ∧ cpu_sets !! idx = Some s0
                      ∧ x ∈ Locator.instances s0) as Hin.
  { intros x Hx. exists (Z.to_nat r), s. cbn [fst].
    split; [lia|done]. }
  pose proof (Hfuel s (list_elem_of_lookup_2 _ _ _ Hs)) as Hlog.
  destruct (Locator.instances s) as [|x [|y l]] eqn:Hi; [done|..].
  { exists (LocatorMain.Attacker x), w1. split; [done|].
    apply Hin. by left. }
  set (st := {| Locator.candidates := x :: y :: l; Locator.step := 0;
                Locator.world := w1 |}).
  destruct (LocatorFacts.bisect_spec fuel a st)
    as (st' & z & Hb & Hc & Hz & _); [done|done|].
  unfold Locator.binary_search_localization. fold st. rewrite Hb, Hc.
  exists (LocatorMain.Attacker z), (Locator.world st'). split; [done|].
  by apply Hin.
Qed.

Lemma main_localizes_witness :
  ∃ r w',
    LocatorMain.main 1 example_args example_sets
      (Script.start [victim (2 # 10); victim (9 # 10); victim (1 # 10)])
    = Returned (r, w')
    ∧ match r with
      | LocatorMain.Not_localized =>
          Locator.find_candidate_set example_args example_sets
            (Script.start [victim (2 # 10); victim (9 # 10); victim (1 # 10)])
          = (-1, w')
      | LocatorMain.Attacker x =>
          ∃ idx s,
            (Locator.find_candidate_set example_args example_sets
               (Script.start
                  [victim (2 # 10); victim (9 # 10); victim (1 # 10)])).1
            = Z.of_nat idx
            ∧ example_sets !! idx = Some s
            ∧ x ∈ Locator.instances s
      end.
Proof.
  apply (main_localizes example_args example_sets
           (Script.start [victim (2 # 10); victim (9 # 10); victim (1 # 10)])
           1).
  intros s Hs. apply list_elem_of_In in Hs. cbn in Hs.
  destruct Hs as [<-|[<-|[<-|[<-|[]]]]]; vm_compute; lia.
Defined.

(** X6. When the victim's latency cannot be measured ([probe_runs] is not
    positive, or every request to the victim fails or is answered with an
    error status), the median is +infinity, which counts as reaching any
    threshold: [main] reports the first instance of the first non-empty set,
    whatever the instances are, and no localization only when every set is
    empty. *)
Theorem unmeasurable_victim_first_instance `{Net W} (a : Locator.args)
  (cpu_sets : list Locator.cpu_set) (w : W) (fuel : nat) :
  Oracle.blind W a →
  (∀ s, s ∈ cpu_sets →
     (Nat.log2_up (length (Locator.instances s)) ≤ fuel)%nat) →
  ∃ w',
    LocatorMain.main fuel a cpu_sets w
    = Returned (match head (mjoin (Locator.instances <$> cpu_sets)) with
                | Some x => LocatorMain.Attacker x
                | None => LocatorMain.Not_localized
                end, w').
Proof.
  intros Hblind Hfuel. unfold LocatorMain.main.
  destruct (Locator.find_candidate_set a cpu_sets w) as [r w1] eqn:Hfind.
  pose proof (SelectionFacts.find_from_range a cpu_sets 0 w r w1
                ltac:(lia) Hfind) as Hrange.
  destruct (Z.ltb_spec r 0) as [Hneg|Hpos].
  { assert (r = -1) as -> by lia.
    rewrite (MainFacts.join_empty cpu_sets); [by exists w1|].
    by eapply (MainFacts.find_blind_fail a cpu_sets 0 w w1). }
  destruct (SelectionFacts.find_from_hit a cpu_sets 0 w r w1)
    as (before & s & after & w0 & m & Hsets & Hr & Hbefore & Hne & _);
    [lia|done|lia|].
  assert (cpu_sets !! Z.to_nat r = Some s) as Hs.
  { rewrite Hsets, Hr, Z.add_0_l, Nat2Z.id.
    by rewrite lookup_app_r, Nat.sub_diag by lia. }
  rewrite Hs.
  assert (head (mjoin (Locator.instances <$> cpu_sets))
          = head (Locator.instances s)) as ->.
  { rewrite Hsets, fmap_app, join_app.
    rewrite (MainFacts.join_empty before)
      by (by eapply (MainFacts.find_blind_fail a before 0 w w0)).
    change (mjoin (Locator.instances <$> s :: after))
      with (Locator.instances s
            ++ mjoin (Locator.instances <$> after))%list.
    by destruct (Locator.instances s). }
  pose proof (Hfuel s (list_elem_of_lookup_2 _ _ _ Hs)) as Hlog.
  destruct (Locator.instances s) as [|x [|y l]] eqn:Hi; [done|..].
  { by exists w1. }
  set (st := {| Locator.candidates := x :: y :: l; Locator.step := 0;
                Locator.world := w1 |}).
  destruct (LocatorFacts.bisect_spec fuel a st)
    as (st' & z & Hb & Hc & _); [done|done|].
  pose proof (MainFacts.bisect_blind fuel a st st' Hblind Hb) as Hhead.
  rewrite Hc in Hhead. cbn in Hhead. injection Hhead as ->.
  unfold Locator.binary_search_localization. fold st. rewrite Hb, Hc.
  by exists (Locator.world st').
Qed.

Lemma unmeasurable_victim_first_instance_witness :
  ∃ w',
    LocatorMain.main 1 example_args example_sets ()
    = Returned (LocatorMain.Attacker "https://a/", w').
Proof.
  apply (unmeasurable_victim_first_instance example_args example_sets () 1).
  - right. reflexivity.
  - intros s Hs. apply list_elem_of_In in Hs. cbn in Hs.
    destruct Hs as [<-|[<-|[<-|[<-|[]]]]]; vm_compute; lia.
Defined.

(** ** More on the per-URL partitioner *)

Module CoverageFacts.
Import PerURL Progress.

Lemma filter_all {A} (P : A → Prop) `{∀ x, Decision (P x)} l :
  Forall P l → filter P l = l.
Proof.
  induction 1 as [|x l Hx _ IH]; [done|].
  by rewrite filter_cons_True, IH.
Qed.


Lemma dict_set_length {V} k (v : V) d :
  (length (dict_set k v d) ≤ S (length d))%nat.
Proof.
  induction d as [|[k' v'] d IH]; cbn; [lia|].
  case_bool_decide; cbn; lia.
Qed.



Lemma leaders_NoDup (groups : list group) :
  NoDup (mjoin (members <$> groups)) →
  Forall (λ g, lock_url g ∈ members g) groups →
  NoDup (lock_url <$> groups).
Proof.
  induction groups as [|g groups IH]; [constructor|].
  change (mjoin (members <$> g :: groups))
    with (members g ++ mjoin (members <$> groups))%list.
  intros (_ & Hdis & Hrest)%NoDup_app [Hg Hall]%Forall_cons.
  cbn [fmap list_fmap]. apply NoDup_cons. split; [|by apply IH].
  intros (g' & Heq & Hg')%list_elem_of_fmap.
  apply (Hdis (lock_url g) Hg). apply list_elem_of_join.
  exists (members g'). split.
  - rewrite Heq. by apply (proj1 (Forall_forall _ _) Hall).
  - apply list_elem_of_fmap. by exists g'.
Qed.

Section World.
Context `{Net W} `{PyOrder}.

Lemma check_each_length urls results (w : W) :
  (length (check_each urls results w).1 ≤ length results + length urls)%nat.
Proof.
  revert results w. induction urls as [|url urls IH]; intros results w;
    cbn [check_each length]; [cbn; lia|].
  destruct (execute_endpoint url CHECK_ENDPOINT w) as [text w1].
  etrans; [apply IH|]. pose proof (dict_set_length url (extract_count text)
                                     results). lia.
Qed.


Lemma run_iteration_length lock check_urls (w : W) :
  (length (run_iteration_for_lock lock check_urls w).1
   ≤ length check_urls)%nat.
Proof.
  unfold run_iteration_for_lock.
  destruct (execute_endpoint lock LOCK_ENDPOINT w) as [text w1].
  destruct check_urls as [|u us]; [done|].
  etrans; [apply check_each_length|].
  rewrite (Permutation_length (as_completed_perm (u :: us))). done.
Qed.


Lemma round1_candidates_length threshold results :
  (length (round1_candidates threshold results) ≤ length results)%nat.
Proof.
  unfold round1_candidates. rewrite length_fmap. apply length_filter.
Qed.

(** The [/check] URLs of a turn: all remaining instances but the lock. *)
Lemma check_urls_length (s : gset string) lock rest :
  set_iter s = lock :: rest →
  filter (λ u, u ≠ lock) (set_iter s) = rest ∧ S (length rest) = size s.
Proof.
  intros Hiter. pose proof (PerURLFacts.set_iter_NoDup s) as Hnd.
  rewrite Hiter in Hnd. apply NoDup_cons in Hnd as [Hl _]. split.
  - rewrite Hiter, filter_cons_False by naive_solver.
    apply filter_all, Forall_forall. intros x Hx ->. done.
  - unfold size, set_size. cbn.
    by rewrite <- (Permutation_length (set_iter_perm s)), Hiter.
Qed.

(** The groups the loop returns are led by their lock instance, and there
    is at most one per instance. *)
Lemma coverage_loop_led fuel threshold (st : state W) :
  Forall (λ g, lock_url g ∈ members g) (groups st) →
  match coverage_loop fuel threshold st with
  | Returned st' =>
      Forall (λ g, lock_url g ∈ members g) (groups st')
      ∧ (length (groups st')
         ≤ length (groups st) + size (remaining st))%nat
  | Raised _ | OutOfFuel => True
  end.
Proof.
  revert st. induction fuel as [|fuel IH]; intros st Hled;
    cbn [coverage_loop].
  - case_bool_decide as He; [split; [done|lia]|done].
  - case_bool_decide as He; [split; [done|lia]|].
    pose proof (PerURLFacts.iteration_commits threshold st He) as Hi.
    assert (∀ st1, commits st st1 →
              Forall (λ g, lock_url g ∈ members g) (groups st1)
              ∧ length (groups st1) = S (length (groups st))
              ∧ (size (remaining st1) < size (remaining st))%nat) as Hstep.
    { intros st1 Hc. pose proof (PerURLFacts.commits_size st st1 Hc).
      destruct Hc as (g & -> & Hg & _).
      split_and!; [|by rewrite length_app, Nat.add_1_r|done].
      apply Forall_app. split; [done|]. by repeat constructor. }
    destruct (iteration threshold st) as [st1|st1|cands ver st1|]; [| | |done].
    + destruct Hi as [Hc _]. destruct (Hstep st1 Hc) as (? & ? & ?).
      split; [done|lia].
    + destruct (Hstep st1 Hi) as (Hled1 & ? & ?).
      specialize (IH st1 Hled1).
      destruct (coverage_loop fuel threshold st1); [|done..].
      destruct IH. split; [done|lia].
    + destruct (Hstep st1 Hi) as (Hled1 & ? & ?).
      specialize (IH st1 Hled1).
      destruct (coverage_loop fuel threshold st1); [|done..].
      destruct IH. split; [done|lia].
Qed.




End World.

Section Requests.
Context `{Net W} `{PyOrder}.

(** What a turn costs in requests. *)
Lemma execute_endpoint_count base endpoint (c : nat * W) :
  (execute_endpoint base endpoint c).2.1 = S c.1.
Proof.
  destruct c as [n w]. unfold execute_endpoint.
  cbn [requests_get Counting.net].
  destruct (requests_get (base ++ endpoint) REQUEST_TIMEOUT w) as [r w1].
  by destruct (checked_text r).
Qed.

Lemma check_each_count urls results (c : nat * W) :
  (check_each urls results c).2.1 = (c.1 + length urls)%nat.
Proof.
  revert results c. induction urls as [|url urls IH]; intros results c;
    cbn [check_each length]; [cbn; lia|].
  pose proof (execute_endpoint_count url CHECK_ENDPOINT c) as Hc.
  destruct (execute_endpoint url CHECK_ENDPOINT c) as [text c1].
  cbn [snd] in Hc. rewrite IH, Hc. lia.
Qed.

Lemma run_coverage_turn_count lock check_urls (c : nat * W) :
  (run_iteration_for_lock lock check_urls c).2.1
  = (c.1 + 1 + length check_urls)%nat.
Proof.
  unfold run_iteration_for_lock.
  pose proof (execute_endpoint_count lock LOCK_ENDPOINT c) as Hc.
  destruct (execute_endpoint lock LOCK_ENDPOINT c) as [text [n1 w1]].
  cbn [snd fst] in Hc. subst n1.
  destruct check_urls as [|u us]; [cbn; lia|].
  rewrite check_each_count.
  rewrite (Permutation_length (as_completed_perm (u :: us))). cbn. lia.
Qed.

Lemma coverage_turn_count threshold (st : state (nat * W)) :
  remaining st ≠ ∅ →
  match iteration threshold st with
  | Last_one st' => (world st').1 = (world st).1
  | No_candidate st' =>
      (world st').1 = ((world st).1 + size (remaining st))%nat
  | Reverified candidate_urls _ st' =>
      (world st').1
      = ((world st).1 + size (remaining st) + 1 + length candidate_urls)%nat
      ∧ (length candidate_urls < size (remaining st))%nat
  | Stop_iteration => False
  end.
Proof.
  intros Hne. unfold iteration.
  destruct (set_iter (remaining st)) as [|lock rest] eqn:Hiter.
  { apply Hne. apply set_eq. intros x.
    rewrite <- PerURLFacts.set_iter_elem_of, Hiter. set_solver. }
  destruct (check_urls_length (remaining st) lock rest Hiter) as [Hf Hsz].
  rewrite Hiter in Hf. rewrite Hf.
  destruct rest as [|u us]; [done|].
  pose proof (run_coverage_turn_count lock (u :: us) (world st)) as Hc1.
  pose proof (run_iteration_length lock (u :: us) (world st)) as Hl1.
  destruct (run_iteration_for_lock lock (u :: us) (world st)) as [r1 w1].
  cbn [fst snd] in Hc1, Hl1.
  pose proof (round1_candidates_length threshold r1) as Hl2.
  destruct (round1_candidates threshold r1) as [|c cs] eqn:Hcand.
  { unfold commit; cbn [world]. lia. }
  pose proof (run_coverage_turn_count lock (c :: cs) w1) as Hc2.
  destruct (run_iteration_for_lock lock (c :: cs) w1) as [r2 w2].
  cbn [fst snd] in Hc2. unfold commit; cbn [world]. lia.
Qed.

Lemma coverage_loop_count fuel threshold (st st' : state (nat * W)) :
  coverage_loop fuel threshold st = Returned st' →
  ((world st').1
   ≤ (world st).1 + size (remaining st) * (size (remaining st) + 1))%nat.
Proof.
  revert st. induction fuel as [|fuel IH]; intros st; cbn [coverage_loop].
  - case_bool_decide; [|done]. intros [= <-]. lia.
  - case_bool_decide as He; [intros [= <-]; lia|].
    pose proof (coverage_turn_count threshold st He) as Hc.
    pose proof (PerURLFacts.iteration_commits threshold st He) as Hi.
    destruct (iteration threshold st) as [st1|st1|cands ver st1|]; [| | |done].
    + intros [= <-]. lia.
    + apply PerURLFacts.commits_size in Hi. intros Hr%IH. nia.
    + apply PerURLFacts.commits_size in Hi. intros Hr%IH. nia.
Qed.

End Requests.
End CoverageFacts.


(** X8. What the per-URL partitioner costs in requests. A turn with r
    remaining instances sends r requests in Round 1 (the lock and one check
    for each other instance, so none when r = 1) and, when Round 1 leaves c
    candidates, 1 + c more in Round 2, where c < r. A run over n distinct
    instances that returns has sent at most n * (n + 1) requests. *)
Theorem coverage_request_bound `{Net W} `{PyOrder} (fuel : nat)
  (threshold : Z) (instance_urls : list string) (n : nat) (w : W)
  (st : PerURL.state (nat * W)) :
  match PerURL.iteration threshold st with
  | PerURL.Last_one st' =>
      size (PerURL.remaining st) = 1%nat
      ∧ (PerURL.world st').1 = (PerURL.world st).1
  | PerURL.No_candidate st' =>
      (PerURL.world st').1
      = ((PerURL.world st).1 + size (PerURL.remaining st))%nat
  | PerURL.Reverified candidate_urls _ st' =>
      (PerURL.world st').1
      = ((PerURL.world st).1 + size (PerURL.remaining st)
         + (1 + length candidate_urls))%nat
      ∧ (length candidate_urls < size (PerURL.remaining st))%nat
  | PerURL.Stop_iteration => PerURL.remaining st = ∅
  end
  ∧ match PerURL.identify_server_coverage fuel (Some threshold)
            instance_urls (n, w) with
    | Returned (_, w') =>
        (w'.1 ≤ n + size (list_to_set instance_urls : gset string)
                    * (size (list_to_set instance_urls : gset string) + 1))%nat
    | Raised _ | OutOfFuel => True
    end.
Proof.
  split.
  - destruct (decide (PerURL.remaining st = ∅)) as [He|Hne].
    + unfold PerURL.iteration.
      assert (set_iter (PerURL.remaining st) = []) as ->; [|done].
      apply Permutation_nil_r. rewrite set_iter_perm, He.
      by rewrite elements_empty.
    + pose proof (CoverageFacts.coverage_turn_count threshold st Hne) as Hc.
      destruct (PerURLFacts.iteration_spec threshold st Hne)
        as (lock & _ & _ & Hspec).
      destruct (PerURL.iteration threshold st) as [st'|st'|cands ver st'|];
        [|done| |done].
      * destruct Hspec as [-> _]. by rewrite size_singleton.
      * destruct Hc as [-> ?]. split; [lia|done].
  - unfold PerURL.identify_server_coverage.
    destruct (PerURL.coverage_loop fuel threshold _) as [st'| |] eqn:Hloop;
      [|done..].
    by apply CoverageFacts.coverage_loop_count in Hloop.
Qed.

(** X9. In the groups that [identify_server_coverage] returns, every
    group contains its own lock instance, no instance is the lock of two
    groups, and there are at most as many groups as distinct instances. *)
Theorem coverage_groups_led_by_lock `{Net W} `{PyOrder} (fuel : nat)
  (threshold : Z) (instance_urls : list string) (w : W)
  (groups : list PerURL.group) (w' : W) :
  PerURL.identify_server_coverage fuel (Some threshold) instance_urls w
  = Returned (groups, w') →
  Forall (λ g, PerURL.lock_url g ∈ PerURL.members g) groups
  ∧ NoDup (PerURL.lock_url <$> groups)
  ∧ (length groups ≤ size (list_to_set instance_urls : gset string))%nat.
Proof.
  unfold PerURL.identify_server_coverage.
  set (st := {| PerURL.remaining := list_to_set instance_urls;
                PerURL.groups := []; PerURL.world := w |}).
  pose proof (CoverageFacts.coverage_loop_led fuel threshold st
                ltac:(constructor)) as Hled.
  destruct (PerURL.coverage_loop fuel threshold st) as [st'| |] eqn:Hloop;
    [|done..].
  intros [= <- <-].
  destruct Hled as [Hled Hlen]. split_and!; [done| |done].
  apply CoverageFacts.leaders_NoDup; [|done].
  eapply (PerURLFacts.coverage_loop_splits (list_to_set instance_urls))
    in Hloop as [Hnd _]; [done|].
  apply splits_start.
Qed.

Lemma coverage_groups_led_by_lock_witness :
  Forall (λ g, PerURL.lock_url g ∈ PerURL.members g)
    [{| PerURL.lock_url := "A/"; PerURL.members := ["A/"; "B/"] |};
     {| PerURL.lock_url := "C/"; PerURL.members := ["C/"] |};
     {| PerURL.lock_url := "D/"; PerURL.members := ["D/"] |}]
  ∧ NoDup ["A/"; "C/"; "D/"]
  ∧ (3 ≤ size (list_to_set example_urls : gset string))%nat.
Proof.
  exact (@coverage_groups_led_by_lock _ _ sorted_order 4 1000 example_urls
           example_world _ _ example_coverage).
Defined.



(** ** More on the single-URL partitioner *)

Module SharingFacts.
Import SingleURL Progress.

Section World.
Context `{Net W} `{Json} `{PyOrder}.

Lemma sharing_loop_outcome fuel threshold (st : state W) :
  Forall (λ g, g ≠ []) (groups st) →
  match sharing_loop fuel threshold st with
  | Returned st' =>
      Forall (λ g, g ≠ []) (groups st')
      ∧ (length (groups st')
         ≤ length (groups st) + size (remaining st))%nat
  | Raised _ | OutOfFuel => True
  end.
Proof.
  revert st. induction fuel as [|fuel IH]; intros st Hne;
    cbn [sharing_loop].
  - case_bool_decide; [split; [done|lia]|done].
  - case_bool_decide as He; [split; [done|lia]|].
    destruct (iteration threshold st) as [w1|group st1|e] eqn:Hi.
    + specialize (IH {| remaining := remaining st; groups := groups st;
                        world := w1 |} Hne).
      by destruct (sharing_loop fuel threshold _).
    + pose proof (SingleURLFacts.iteration_Commit_size _ _ _ _ Hi) as Hsz.
      apply SingleURLFacts.iteration_Commit_group in Hi
        as (_ & (lock & Hl & _) & _ & _ & Hg).
      assert (Forall (λ g, g ≠ []) (groups st1)) as Hne1.
      { rewrite Hg. apply Forall_app. split; [done|].
        constructor; [|constructor]. intros ->. by apply elem_of_nil in Hl. }
      specialize (IH st1 Hne1).
      destruct (sharing_loop fuel threshold st1); [|done..].
      destruct IH as [? Hlen]. split; [done|].
      rewrite Hg, length_app in Hlen. cbn [length] in Hlen. lia.
    + done.
Qed.

End World.

Section Requests.
Context `{Net W} `{Json} `{PyOrder}.

Lemma call_instance_id_count (c : nat * W) r c' :
  call_instance_id c = Ok (r, c') → c'.1 = S c.1.
Proof.
  destruct c as [n w]. unfold call_instance_id.
  cbn [requests_get Counting.net].
  destruct (requests_get _ _ w) as [res w1].
  destruct (checked_text res) as [body|]; [|by intros [= <- <-]].
  by destruct (json_instance_id body); intros [= <- <-].
Qed.

Lemma call_lock_count (c : nat * W) r c' :
  call_lock_and_get_instance_id c = Ok (r, c') → c'.1 = S (S c.1).
Proof.
  destruct c as [n w]. unfold call_lock_and_get_instance_id.
  cbn [requests_get Counting.net].
  destruct (requests_get _ _ w) as [res w1].
  by intros ->%call_instance_id_count.
Qed.

Lemma call_check_count (c : nat * W) m c' :
  call_check_and_get_metric_and_id c = Ok (m, c') →
  (S c.1 ≤ c'.1 ≤ S (S c.1))%nat.
Proof.
  destruct c as [n w]. unfold call_check_and_get_metric_and_id.
  cbn [requests_get Counting.net].
  destruct (requests_get _ _ w) as [res w1].
  destruct (checked_text res) as [text|]; [|intros [= <- <-]; cbn; lia].
  destruct (call_instance_id (S n, w1)) as [[inst_id c2]|e] eqn:Hid; [|done].
  apply call_instance_id_count in Hid. intros [= <- <-]. cbn in *. lia.
Qed.

Lemma collect_measurements_count k (c : nat * W) ms c' :
  collect_measurements k c = Ok (ms, c') →
  (c.1 + k ≤ c'.1 ≤ c.1 + 2 * k)%nat ∧ length ms = k.
Proof.
  revert c ms. induction k as [|k IH]; intros c ms;
    cbn [collect_measurements].
  { intros [= <- <-]. cbn. lia. }
  destruct (call_check_and_get_metric_and_id c) as [[m c1]|e] eqn:Hc; [|done].
  destruct (collect_measurements k c1) as [[ms' c2]|e] eqn:Hms; [|done].
  intros [= <- <-]. apply call_check_count in Hc.
  apply IH in Hms as [? ?]. cbn [length]. lia.
Qed.

Lemma sharing_turn_count threshold (st : state (nat * W)) :
  match iteration threshold st with
  | Retry w1 => w1.1 = ((world st).1 + 2)%nat
  | Commit _ st' =>
      ((world st).1 + 2 + NUM_CHECK_REQUESTS ≤ (world st').1
       ≤ (world st).1 + 2 + 2 * NUM_CHECK_REQUESTS)%nat
  | Crash _ => True
  end.
Proof.
  destruct (iteration threshold st) as [w1|group st1|e] eqn:Hi; [| |done].
  - apply SingleURLFacts.iteration_Retry in Hi as (lock & Hl & _).
    apply call_lock_count in Hl. lia.
  - apply iteration_Commit in Hi as (lock & w1 & ms & w2 & Hl & _ & _ & Hms
                                     & _ & ->).
    apply call_lock_count in Hl.
    apply collect_measurements_count in Hms as [? _]. cbn [world]. lia.
Qed.

Lemma sharing_loop_count fuel threshold (st st' : state (nat * W)) :
  sharing_loop fuel threshold st = Returned st' →
  ((world st').1
   ≤ (world st).1 + fuel * (2 + 2 * NUM_CHECK_REQUESTS))%nat.
Proof.
  revert st. induction fuel as [|fuel IH]; intros st; cbn [sharing_loop].
  - case_bool_decide; [|done]. intros [= <-]. lia.
  - case_bool_decide as He; [intros [= <-]; lia|].
    pose proof (sharing_turn_count threshold st) as Hc.
    destruct (iteration threshold st) as [w1|group st1|e]; [| |done].
    + intros Hr%IH. cbn [world] in Hr. lia.
    + intros Hr%IH. lia.
Qed.

End Requests.
End SharingFacts.

(** X11. What the single-URL partitioner costs in requests: a retried turn
    sends two (the lock and the identification of its instance), a
    committing turn between 62 and 122 (each of the 60 checks is followed by
    an identification unless the check itself failed), and a run that
    returns within [fuel] turns has sent at most 122 requests per turn. *)
Theorem sharing_turn_requests `{Net W} `{SingleURL.Json} `{PyOrder}
  (fuel : nat) (threshold : Q) (st : SingleURL.state (nat * W)) :
  match SingleURL.iteration threshold st with
  | SingleURL.Retry w1 => w1.1 = ((SingleURL.world st).1 + 2)%nat
  | SingleURL.Commit _ st' =>
      ((SingleURL.world st).1 + 62 ≤ (SingleURL.world st').1
       ≤ (SingleURL.world st).1 + 122)%nat
  | SingleURL.Crash _ => True
  end
  ∧ match SingleURL.sharing_loop fuel threshold st with
    | Returned st' =>
        ((SingleURL.world st').1
         ≤ (SingleURL.world st).1 + fuel * 122)%nat
    | Raised _ | OutOfFuel => True
    end.
Proof.
  split.
  - pose proof (SharingFacts.sharing_turn_count threshold st) as Hc.
    destruct (SingleURL.iteration threshold st); [done| |done].
    unfold SingleURL.NUM_CHECK_REQUESTS in Hc. lia.
  - destruct (SingleURL.sharing_loop fuel threshold st) as [st'| |] eqn:Hl;
      [|done..].
    apply SharingFacts.sharing_loop_count in Hl.
    unfold SingleURL.NUM_CHECK_REQUESTS in Hl. lia.
Qed.

(** X12. In the groups that [identify_server_sharing] returns, no group
    is empty, and there are at most as many groups as distinct instance
    IDs. *)
Theorem sharing_groups_nonempty `{Net W} `{SingleURL.Json} `{PyOrder} (fuel : nat)
  (threshold : Q) (all_instance_ids : list string) (w : W)
  (groups : list (list string)) (w' : W) :
  SingleURL.identify_server_sharing fuel (Some threshold) all_instance_ids w
  = Returned (groups, w') →
  Forall (λ g, g ≠ []) groups
  ∧ (length groups
     ≤ size (list_to_set all_instance_ids : gset string))%nat.
Proof.
  unfold SingleURL.identify_server_sharing.
  set (st := {| SingleURL.remaining := list_to_set all_instance_ids;
                SingleURL.groups := []; SingleURL.world := w |}).
  pose proof (SharingFacts.sharing_loop_outcome fuel threshold st
                ltac:(constructor)) as Hout.
  destruct (SingleURL.sharing_loop fuel threshold st) as [st'| |]; [|done..].
  by intros [= <- <-].
Qed.

Lemma sharing_groups_nonempty_witness :
  Forall (λ g : list string, g ≠ []) [["A"; "B"]; ["C"]]
  ∧ (2 ≤ size (list_to_set ["A"; "B"; "C"] : gset string))%nat.
Proof.
  exact (@sharing_groups_nonempty _ _ _ sorted_order 4 5%Q ["A"; "B"; "C"]
           sharing_world _ _ example_sharing).
Defined.

(** A run that raises: the lock lands, and [/instance_id] answers with a
    JSON list. *)
Example sharing_crash :
  @SingleURL.identify_server_sharing _ _ strict_json elements_order 1
    (Some 1%Q) ["A"]
    (Script.start [Script.ok lock_url ""; Script.ok id_url "[]"])
  = Raised "AttributeError".
Proof. by vm_compute. Qed.

(** ** More on the metric *)

Module DecimalFacts.
Import Text Pattern.

Lemma digit_value_range c : is_digit c = true → 0 ≤ digit_value c ≤ 9.
Proof.
  unfold is_digit, digit_value.
  intros [?%N.leb_le ?%N.leb_le]%andb_true_iff. lia.
Qed.

Lemma int_from_nonneg acc g :
  all_chars is_digit g = true → 0 ≤ acc → 0 ≤ int_from acc g.
Proof.
  revert acc. induction g as [|c g IH]; intros acc; cbn; [done|].
  intros [Hc Hg]%andb_true_iff Hacc. apply IH; [done|].
  pose proof (digit_value_range c Hc). lia.
Qed.

Lemma int_nonneg g : run is_digit g → 0 ≤ int g.
Proof. intros [_ Hg]. by apply int_from_nonneg. Qed.

Lemma foldl_add_nonneg acc (counts : list Z) :
  0 ≤ acc → Forall (λ n, 0 ≤ n) counts → 0 ≤ foldl Z.add acc counts.
Proof.
  intros Hacc Hall. revert acc Hacc.
  induction Hall as [|n counts Hn _ IH]; intros acc Hacc; cbn; [done|].
  apply IH. lia.
Qed.

Lemma line_count_nonneg line n :
  SingleURL.line_count line = Some n → 0 ≤ n.
Proof.
  unfold SingleURL.line_count.
  destruct (re_search count_k_here line) as [[g rest]|] eqn:Hs; [|done].
  intros [= <-].
  apply PatternFacts.re_search_Some in Hs as (pre & s' & _ & Hh & _).
  apply PatternFacts.count_k_here_spec in Hh
    as (k & ws1 & ws2 & _ & _ & _ & _ & Hg & _).
  by apply int_nonneg.
Qed.

(** The digits stdpp's [pretty] writes for a natural number, read back. *)
Lemma digit_value_pretty d :
  (d < 10)%N → digit_value (pretty_N_char d) = Z.of_N d
               ∧ is_digit (pretty_N_char d) = true.
Proof.
  intros Hd.
  assert (d = 0 ∨ d = 1 ∨ d = 2 ∨ d = 3 ∨ d = 4 ∨ d = 5 ∨ d = 6 ∨ d = 7
          ∨ d = 8 ∨ d = 9)%N as Hcases by lia.
  repeat (destruct Hcases as [->|Hcases]; [by vm_compute|]).
  subst d. by vm_compute.
Qed.

Lemma pretty_N_go_read x :
  ∀ s acc, ∃ k : Z,
    0 ≤ k
    ∧ int_from acc (pretty_N_go x s) = int_from (acc * 10 ^ k + Z.of_N x) s.
Proof.
  induction (N.lt_wf_0 x) as [x _ IH]. intros s acc.
  destruct (decide (x = 0)%N) as [->|Hx].
  { exists 0. rewrite pretty_N_go_0. split; [done|]. f_equal. lia. }
  rewrite pretty_N_go_step by lia.
  destruct (IH (x `div` 10)%N ltac:(apply N.div_lt; lia)
              (String (pretty_N_char (x `mod` 10)) s) acc) as (k & Hk & ->).
  exists (k + 1). split; [lia|]. cbn [int_from]. f_equal.
  destruct (digit_value_pretty (x `mod` 10)%N) as [-> _].
  { apply N.mod_lt. lia. }
  rewrite Z.pow_add_r by lia.
  pose proof (N.div_mod x 10 ltac:(lia)) as Hdm.
  apply (f_equal Z.of_N) in Hdm. rewrite N2Z.inj_add, N2Z.inj_mul in Hdm.
  change (Z.of_N 10) with 10 in Hdm. lia.
Qed.

Lemma pretty_N_go_digits x :
  ∀ s, all_chars is_digit s = true →
       all_chars is_digit (pretty_N_go x s) = true.
Proof.
  induction (N.lt_wf_0 x) as [x _ IH]. intros s Hs.
  destruct (decide (x = 0)%N) as [->|Hx].
  { by rewrite pretty_N_go_0. }
  rewrite pretty_N_go_step by lia.
  apply IH; [apply N.div_lt; lia|]. cbn [all_chars].
  destruct (digit_value_pretty (x `mod` 10)%N) as [_ ->]; [|done].
  apply N.mod_lt. lia.
Qed.

Lemma pretty_N_go_nonempty x s : (0 < x)%N → pretty_N_go x s ≠ "".
Proof.
  revert s. induction (N.lt_wf_0 x) as [x _ IH]. intros s Hx.
  rewrite pretty_N_go_step by done.
  destruct (decide (x `div` 10 = 0)%N) as [->|Hd].
  { by rewrite pretty_N_go_0. }
  apply IH; [apply N.div_lt; lia|by apply N.neq_0_lt_0].
Qed.

Lemma int_pretty (n : N) : int (pretty n) = Z.of_N n.
Proof.
  unfold pretty, pretty_N. case_decide as Hn; [by subst n|].
  destruct (pretty_N_go_read n "" 0) as (k & _ & Hk).
  unfold int. rewrite Hk. cbn [int_from]. lia.
Qed.

Lemma run_pretty (n : N) : run is_digit (pretty n).
Proof.
  unfold pretty, pretty_N. case_decide as Hn; [by subst n|]. split.
  - apply pretty_N_go_nonempty. lia.
  - by apply pretty_N_go_digits.
Qed.

(** A number below 10^k is written with at most k digits. *)
Lemma length_pretty_N_go x :
  ∀ s (k : nat), (x < 10 ^ N.of_nat k)%N →
    (String.length (pretty_N_go x s) ≤ String.length s + k)%nat.
Proof.
  induction (N.lt_wf_0 x) as [x _ IH]. intros s k Hx.
  destruct (decide (x = 0)%N) as [->|Hpos].
  { rewrite pretty_N_go_0. lia. }
  rewrite pretty_N_go_step by lia.
  destruct k as [|k].
  { change (10 ^ N.of_nat 0)%N with 1%N in Hx. lia. }
  assert (x `div` 10 < 10 ^ N.of_nat k)%N as Hdiv.
  { apply N.Div0.div_lt_upper_bound.
    rewrite Nat2N.inj_succ, N.pow_succ_r' in Hx. lia. }
  etrans; [apply (IH (x `div` 10)%N ltac:(apply N.div_lt; lia) _ k Hdiv)|].
  cbn [String.length]. lia.
Qed.

Lemma length_pretty (n : N) (k : nat) :
  (0 < k)%nat → (n < 10 ^ N.of_nat k)%N →
  (String.length (pretty n) ≤ k)%nat.
Proof.
  intros Hk Hn. unfold pretty, pretty_N. case_decide as Hz.
  { cbn. lia. }
  pose proof (length_pretty_N_go n "" k Hn) as Hlen.
  change (String.length "") with O in Hlen. lia.
Qed.

Lemma re_search_here {A} (here : string → option A) s m :
  here s = Some m → re_search here s = Some m.
Proof. intros Hh. destruct s; cbn; by rewrite Hh. Qed.

End DecimalFacts.

(** X13. A metric is never negative: the count [extract_count] reads, the
    count of a line, and the sum over the lines of a [/check] body. *)
Theorem metric_nonnegative (text : string) :
  match PerURL.extract_count text with
  | Some n => 0 ≤ n
  | None => True
  end
  ∧ Forall (λ n, 0 ≤ n) (SingleURL.parse_counts text)
  ∧ match SingleURL.sum_of_counts text with
    | Fin n => 0 ≤ n
    | Inf => True
    end.
Proof.
  assert (Forall (λ n, 0 ≤ n) (SingleURL.parse_counts text)) as Hall.
  { apply Forall_forall. intros n.
    unfold SingleURL.parse_counts. rewrite list_elem_of_omap.
    intros (line & _ & Hn). by eapply DecimalFacts.line_count_nonneg. }
  split_and!; [|done|].
  - unfold PerURL.extract_count.
    destruct (Text.re_search Text.count_0_here text) as [[g rest]|] eqn:Hs;
      [|done].
    apply PatternFacts.re_search_Some in Hs as (pre & s' & _ & Hh & _).
    apply PatternFacts.count_0_here_spec in Hh
      as (k & ws1 & ws2 & _ & _ & _ & _ & Hg & _).
    by apply DecimalFacts.int_nonneg.
  - unfold SingleURL.sum_of_counts.
    destruct (SingleURL.parse_counts text) as [|c counts]; [done|].
    by apply DecimalFacts.foldl_add_nonneg.
Qed.

(** X14. Both parsers read back a natural number written in decimal, up
    to the limit of the interpreter on integer conversions. From a text that
    starts with [count[0] is <n>] and goes on with anything but a digit,
    [extract_count] and the loop over the lines of the single-URL variant
    return n when the digits of n are within the limit, and raise
    [ValueError] when they are not; a number below 10^k has at most k digits,
    so every number below 10^4300 is read back with the default limit. *)
Theorem count_round_trip (max_str_digits : nat) (n : N) (rest : string) :
  Pattern.stops Text.is_digit rest →
  Digits.extract_count max_str_digits (count_0 (pretty n) ++ rest)
  = (if Digits.within max_str_digits (pretty n)
     then Ok (Some (Z.of_N n)) else Exn "ValueError")
  ∧ Digits.counts_of_lines max_str_digits [count_0 (pretty n) ++ rest]
    = (if Digits.within max_str_digits (pretty n)
       then Ok [Z.of_N n] else Exn "ValueError")
  ∧ ∀ k : nat,
      (0 < k ≤ max_str_digits)%nat → (n < 10 ^ N.of_nat k)%N →
      Digits.within max_str_digits (pretty n) = true.
Proof.
  intros Hrest.
  assert (Pattern.occurrence Pattern.index_0 (count_0 (pretty n) ++ rest)
            (pretty n) rest
          ∧ Pattern.occurrence Pattern.any_index
              (count_0 (pretty n) ++ rest) (pretty n) rest) as [H0 Hk].
  { split; exists "0", " ", " ";
      (split_and!; [|done..|apply DecimalFacts.run_pretty|done]);
      unfold count_0; by rewrite PatternFacts.app_assoc. }
  split_and!.
  - unfold Digits.extract_count, Digits.int.
    apply PatternFacts.count_0_here_spec in H0.
    rewrite (DecimalFacts.re_search_here _ _ _ H0).
    destruct (Digits.within max_str_digits (pretty n)); [|done].
    by rewrite DecimalFacts.int_pretty.
  - cbn [Digits.counts_of_lines]. unfold Digits.int.
    apply PatternFacts.count_k_here_spec in Hk.
    rewrite (DecimalFacts.re_search_here _ _ _ Hk).
    destruct (Digits.within max_str_digits (pretty n)); [|done].
    by rewrite DecimalFacts.int_pretty.
  - intros k [Hpos Hmax] Hn. unfold Digits.within.
    pose proof (DecimalFacts.length_pretty n k Hpos Hn) as Hlen.
    rewrite (proj2 (Nat.leb_le _ max_str_digits)) by lia.
    by rewrite orb_true_r.
Qed.

Lemma count_round_trip_witness :
  Digits.extract_count Digits.DEFAULT_MAX_STR_DIGITS
    (count_0 (pretty 1500%N) ++ " cycles") = Ok (Some 1500)
  ∧ Digits.counts_of_lines Digits.DEFAULT_MAX_STR_DIGITS
      [count_0 (pretty 1500%N) ++ " cycles"] = Ok [1500].
Proof.
  pose proof (count_round_trip Digits.DEFAULT_MAX_STR_DIGITS 1500 " cycles"
                ltac:(reflexivity)) as (H1 & H2 & _).
  exact (conj H1 H2).
Defined.

Module LinesFacts.
Import Text.

Lemma line_count_empty : SingleURL.line_count "" = None.
Proof. reflexivity. Qed.

Lemma LF_linebreak : is_linebreak LF = true.
Proof. reflexivity. Qed.

Lemma counts_cons line lines :
  omap SingleURL.line_count (line :: lines)
  = (omap SingleURL.line_count [line]
     ++ omap SingleURL.line_count lines)%list.
Proof.
  cbn [omap list_omap app]. by destruct (SingleURL.line_count line).
Qed.

Lemma counts_empty_line lines :
  omap SingleURL.line_count ("" :: lines)
  = omap SingleURL.line_count lines.
Proof. cbn [omap list_omap]. by rewrite line_count_empty. Qed.

(** The lines of two texts joined by a line feed are the lines of the
    first and the lines of the second, up to one empty line between them. *)
Lemma splitlines_from_join n : ∀ a cur started b,
  (String.length a ≤ n)%nat →
  (started = false → cur = "") →
  omap SingleURL.line_count (splitlines_from cur started (a ++ nl ++ b))
  = (omap SingleURL.line_count (splitlines_from cur started a)
     ++ omap SingleURL.line_count (splitlines b))%list.
Proof.
  assert (Ascii.eqb LF CR = false) as Hlf by reflexivity.
  assert (∀ cur b,
            splitlines_from cur false (String LF b)
            = cur :: splitlines b) as Hfeed.
  { intros cur b. cbn [splitlines_from]. rewrite LF_linebreak.
    destruct b; [done|]. by rewrite Hlf, andb_false_l. }
  assert (∀ cur b,
            splitlines_from cur true (String LF b)
            = cur :: splitlines b) as Hfeed'.
  { intros cur b. cbn [splitlines_from]. rewrite LF_linebreak.
    destruct b; [done|]. by rewrite Hlf, andb_false_l. }
  induction n as [|n IH]; intros a cur started b Hlen Hcur.
  - destruct a as [|c a]; [|cbn in Hlen; lia].
    rewrite PatternFacts.app_nil_l. unfold nl.
    rewrite PatternFacts.app_cons, PatternFacts.app_nil_l.
    destruct started.
    + rewrite Hfeed'. apply counts_cons.
    + rewrite Hfeed, (Hcur eq_refl). apply counts_empty_line.
  - destruct a as [|c a].
    { apply (IH "" cur started b); [cbn; lia|done]. }
    cbn [String.length] in Hlen.
    rewrite PatternFacts.app_cons. cbn [splitlines_from].
    destruct (is_linebreak c) eqn:Hc.
    + destruct a as [|c' a'].
      * rewrite PatternFacts.app_nil_l. unfold nl.
        rewrite PatternFacts.app_cons, PatternFacts.app_nil_l.
        change (splitlines_from "" false "") with (@nil string).
        destruct (Ascii.eqb c CR && Ascii.eqb LF LF).
        -- apply counts_cons.
        -- rewrite Hfeed, counts_cons, counts_empty_line. done.
      * rewrite PatternFacts.app_cons.
        destruct (Ascii.eqb c CR && Ascii.eqb c' LF).
        -- cbn [String.length] in Hlen.
           rewrite counts_cons, (IH a' "" false b) by (done || lia).
           rewrite (counts_cons cur (splitlines_from _ _ _)).
           by rewrite <- List.app_assoc.
        -- rewrite <- PatternFacts.app_cons.
           rewrite counts_cons, (IH (String c' a') "" false b)
             by (done || lia).
           rewrite (counts_cons cur (splitlines_from _ _ _)).
           by rewrite <- List.app_assoc.
    + apply IH; [lia|done].
Qed.

Lemma foldl_add acc (l : list Z) : foldl Z.add acc l = acc + foldl Z.add 0 l.
Proof.
  revert acc. induction l as [|x l IH]; intros acc; cbn; [lia|].
  rewrite (IH (acc + x)), (IH (0 + x)). lia.
Qed.

End LinesFacts.

(** X15. The counts of two [/check] outputs joined by a line feed are the
    counts of the first followed by the counts of the second, whatever the
    two outputs are; so the metric of the joined text is the sum of the two
    metrics, an output without any count adding nothing. *)
Theorem counts_of_joined_outputs (a b : string) :
  SingleURL.parse_counts (a ++ nl ++ b)
  = (SingleURL.parse_counts a ++ SingleURL.parse_counts b)%list
  ∧ SingleURL.sum_of_counts (a ++ nl ++ b)
    = match SingleURL.sum_of_counts a, SingleURL.sum_of_counts b with
      | Fin x, Fin y => Fin (x + y)
      | Fin x, Inf => Fin x
      | Inf, m => m
      end.
Proof.
  assert (SingleURL.parse_counts (a ++ nl ++ b)
          = (SingleURL.parse_counts a ++ SingleURL.parse_counts b)%list)
    as Hjoin.
  { unfold SingleURL.parse_counts, Text.splitlines.
    by apply (LinesFacts.splitlines_from_join (String.length a)). }
  split; [done|].
  unfold SingleURL.sum_of_counts. rewrite Hjoin.
  destruct (SingleURL.parse_counts a) as [|x xs];
    destruct (SingleURL.parse_counts b) as [|y ys]; try done.
  - by rewrite app_nil_r.
  - change ((x :: xs) ++ y :: ys)%list with (x :: (xs ++ y :: ys))%list.
    cbv beta iota. f_equal.
    change (x :: (xs ++ y :: ys))%list with ((x :: xs) ++ y :: ys)%list.
    rewrite foldl_app.
    by rewrite (LinesFacts.foldl_add (foldl Z.add 0 (x :: xs))).
Qed.

(** * The preparation of the attacker sets *)

Module StripFacts.
Import Text Pattern Prepare.

Lemma stops_lstrip s : stops is_space (lstrip s).
Proof.
  induction s as [|c s IH]; cbn [lstrip]; [done|].
  by destruct (is_space c) eqn:Hc.
Qed.

Lemma lstrip_stops s : stops is_space s → lstrip s = s.
Proof. destruct s as [|c s]; cbn; [done|]. by intros ->. Qed.

Lemma rstrip_cons c s :
  rstrip (String c s)
  = match rstrip s with
    | EmptyString => if is_space c then "" else String c ""
    | r => String c r
    end.
Proof. reflexivity. Qed.

Lemma rstrip_idem s : rstrip (rstrip s) = rstrip s.
Proof.
  induction s as [|c s IH]; [done|]. rewrite rstrip_cons.
  destruct (rstrip s) as [|d r] eqn:Hr.
  - destruct (is_space c) eqn:Hc; [done|]. by rewrite rstrip_cons, Hc.
  - by rewrite rstrip_cons, IH.
Qed.

Lemma stops_rstrip s : stops is_space s → stops is_space (rstrip s).
Proof.
  destruct s as [|c s]; [done|]. rewrite rstrip_cons. cbn [stops].
  intros Hc. destruct (rstrip s); [by rewrite Hc|done].
Qed.

Lemma strip_idem s : strip (strip s) = strip s.
Proof.
  unfold strip.
  rewrite (lstrip_stops (rstrip (lstrip s)))
    by apply stops_rstrip, stops_lstrip.
  apply rstrip_idem.
Qed.

(** The lines that [load_urls] keeps. *)
Lemma load_urls_from urls lines :
  foldl (λ urls line,
           if bool_decide (strip line = "") || is_comment (strip line)
           then urls else (urls ++ [strip line])%list) urls lines
  = (urls
     ++ filter (λ u, u ≠ "" ∧ is_comment u = false) (strip <$> lines))%list.
Proof.
  revert urls. induction lines as [|line lines IH]; intros urls;
    cbn [foldl fmap list_fmap].
  { by rewrite filter_nil, app_nil_r. }
  rewrite IH. case_bool_decide as He; cbn [orb].
  - rewrite filter_cons_False by (by intros [? _]). done.
  - destruct (is_comment (strip line)) eqn:Hc.
    + rewrite filter_cons_False by (intros [_ ?]; congruence). done.
    + rewrite filter_cons_True by done. by rewrite <- List.app_assoc.
Qed.

Lemma load_urls_filter lines :
  load_urls lines
  = filter (λ u, u ≠ "" ∧ is_comment u = false) (strip <$> lines).
Proof. apply (load_urls_from [] lines). Qed.

End StripFacts.

(** X16. Every URL that [load_urls] returns is non-empty, is no comment
    line, and has no white space at its ends; and loading is idempotent:
    the URLs loaded, written one per line, load as themselves. *)
Theorem load_urls_clean (lines : list string) :
  Forall (λ u, u ≠ "" ∧ Prepare.is_comment u = false ∧ Prepare.strip u = u
               ∧ Pattern.stops Text.is_space u)
         (Prepare.load_urls lines)
  ∧ Prepare.load_urls (Prepare.load_urls lines) = Prepare.load_urls lines.
Proof.
  assert (Forall (λ u, u ≠ "" ∧ Prepare.is_comment u = false
                       ∧ Prepare.strip u = u
                       ∧ Pattern.stops Text.is_space u)
                 (Prepare.load_urls lines)) as Hclean.
  { rewrite StripFacts.load_urls_filter. apply Forall_forall.
    intros u [[Hne Hc] (line & -> & _)%list_elem_of_fmap]%list_elem_of_filter.
    split_and!; [done|done|apply StripFacts.strip_idem|].
    apply StripFacts.stops_rstrip, StripFacts.stops_lstrip. }
  split; [done|].
  rewrite (StripFacts.load_urls_filter (Prepare.load_urls lines)).
  induction Hclean as [|u urls (Hne & Hc & Hs & _) _ IH]; [done|].
  cbn [fmap list_fmap]. rewrite Hs, filter_cons_True by done.
  by rewrite IH.
Qed.

Module GroupIdFacts.
Import Prepare.

Lemma assign_lookup gid (members : list string) (m : gmap string nat) url :
  foldl (λ m url, <[url := gid]> m) m members !! url
  = if decide (url ∈ members) then Some gid else m !! url.
Proof.
  revert m. induction members as [|x members IH]; intros m; cbn [foldl].
  { by rewrite decide_False by apply not_elem_of_nil. }
  rewrite IH. destruct (decide (url ∈ members)) as [Hin|Hout].
  - by rewrite decide_True by (by right).
  - destruct (decide (url = x)) as [->|Hne].
    + rewrite lookup_insert_eq. by rewrite decide_True by (by left).
    + rewrite lookup_insert_ne by done.
      by rewrite decide_False by (rewrite elem_of_cons; naive_solver).
Qed.

(** A URL in no group keeps what it had, and a URL of a group gets the
    index of the last group that lists it. *)
Lemma build_from_miss gid groups m url :
  Forall (λ g, url ∉ PerURL.members g) groups →
  build_from gid groups m !! url = m !! url.
Proof.
  intros Hall. revert gid m.
  induction Hall as [|g groups Hg _ IH]; intros gid m; cbn [build_from];
    [done|].
  by rewrite IH, assign_lookup, decide_False.
Qed.

Lemma build_from_hit gid before g after m url :
  url ∈ PerURL.members g →
  Forall (λ g', url ∉ PerURL.members g') after →
  build_from gid (before ++ g :: after) m !! url
  = Some (gid + length before)%nat.
Proof.
  intros Hg Hafter. revert gid m.
  induction before as [|g0 before IH]; intros gid m;
    cbn [app build_from length].
  - rewrite build_from_miss by done.
    rewrite assign_lookup, decide_True by done. f_equal. lia.
  - rewrite IH. f_equal. lia.
Qed.

Lemma last_with (url : string) (groups : list PerURL.group) :
  Forall (λ g, url ∉ PerURL.members g) groups
  ∨ ∃ before g after,
      groups = (before ++ g :: after)%list
      ∧ url ∈ PerURL.members g
      ∧ Forall (λ g', url ∉ PerURL.members g') after.
Proof.
  induction groups as [|g0 groups IH]; [left; constructor|].
  destruct IH as [Hnone|(before & g & after & -> & Hg & Hafter)].
  - destruct (decide (url ∈ PerURL.members g0)) as [Hin|Hout].
    + right. by exists [], g0, groups.
    + left. by constructor.
  - right. by exists (g0 :: before), g, after.
Qed.

End GroupIdFacts.

(** X17. [build_url_to_group_id] maps a URL to the index of the last group
    that lists it among its members, and has no entry for a URL that no
    group lists. *)
Theorem last_group_wins (groups : list PerURL.group) (url : string) :
  match Prepare.build_url_to_group_id groups !! url with
  | Some gid =>
      (∃ g, groups !! gid = Some g ∧ url ∈ PerURL.members g)
      ∧ ∀ j g', groups !! j = Some g' → url ∈ PerURL.members g' →
                (j ≤ gid)%nat
  | None => ∀ g, g ∈ groups → url ∉ PerURL.members g
  end.
Proof.
  unfold Prepare.build_url_to_group_id.
  destruct (GroupIdFacts.last_with url groups)
    as [Hnone|(before & g & after & -> & Hg & Hafter)].
  - rewrite GroupIdFacts.build_from_miss, lookup_empty by done.
    by apply Forall_forall.
  - rewrite (GroupIdFacts.build_from_hit 0 before g after ∅ url Hg Hafter).
    cbn [Nat.add]. split.
    + exists g. split; [|done].
      by rewrite lookup_app_r, Nat.sub_diag by lia.
    + intros j g' Hj Hin.
      destruct (decide (j ≤ length before)%nat) as [|Hgt]; [done|].
      exfalso. rewrite lookup_app_r in Hj by lia.
      destruct (j - length before)%nat as [|k] eqn:Hk; [lia|].
      cbn in Hj. apply list_elem_of_lookup_2 in Hj.
      by apply (proj1 (Forall_forall _ _) Hafter g' Hj).
Qed.

Module DedupFacts.
Import Prepare.

Lemma dict_get_None {V} k (d : list (string * V)) :
  PerURL.dict_get k d = None ↔ k ∉ d.*1.
Proof.
  induction d as [|[k' v'] d IH]; cbn.
  { split; [intros _; apply not_elem_of_nil|done]. }
  rewrite not_elem_of_cons. case_bool_decide; naive_solver.
Qed.

Lemma dict_set_absent {V} k (v : V) (d : list (string * V)) :
  k ∉ d.*1 → PerURL.dict_set k v d = (d ++ [(k, v)])%list.
Proof.
  induction d as [|[k' v'] d IH]; cbn; [done|].
  intros [Hne Hd]%not_elem_of_cons.
  rewrite bool_decide_false by done. by rewrite IH.
Qed.

(** The key of a URL names its server. *)
Lemma server_key_same m u r :
  server_key m u = server_key m r ↔ same_server m u r.
Proof.
  unfold server_key, same_server.
  destruct (m !! u) as [a|], (m !! r) as [b|].
  - split; [|by intros [= ->]].
    intros Heq%(inj (String.app "group-")). f_equal.
    symmetry. by apply (inj pretty).
  - split; [|done]. rewrite !PatternFacts.app_cons. by intros [=].
  - split; [|by intros [? _]]. rewrite !PatternFacts.app_cons.
    by intros [=].
  - split.
    + intros Heq%(inj (String.app "single-")). by split.
    + by intros [_ ->].
Qed.

Lemma same_server_refl m u : same_server m u u.
Proof. apply server_key_same. done. Qed.

Lemma first_on_server_snoc m seen u x :
  first_on_server m seen u → first_on_server m (seen ++ [x]) u.
Proof.
  intros (before & after & -> & Hfirst).
  exists before, (after ++ [x])%list. split; [|done].
  by rewrite <- List.app_assoc.
Qed.

(** The invariant of the loop over the URLs of an architecture set:
    [group_to_rep] holds, under the key of each server met among the URLs
    [seen], the first of them on that server. *)
Lemma keep_first_inv m seen (d : list (string * string)) u :
  NoDup d.*1 →
  (∀ k r, (k, r) ∈ d → server_key m r = k ∧ first_on_server m seen r) →
  (∀ x, x ∈ seen → server_key m x ∈ d.*1) →
  NoDup (keep_first m d u).*1
  ∧ (∀ k r, (k, r) ∈ keep_first m d u →
       server_key m r = k ∧ first_on_server m (seen ++ [u]) r)
  ∧ (∀ x, x ∈ (seen ++ [u])%list →
       server_key m x ∈ (keep_first m d u).*1).
Proof.
  intros Hnd Hreps Hseen. unfold keep_first.
  destruct (PerURL.dict_get (server_key m u) d) as [r0|] eqn:Hget.
  - assert (server_key m u ∈ d.*1) as Hin.
    { destruct (decide (server_key m u ∈ d.*1)) as [|Hout]; [done|].
      apply dict_get_None in Hout. congruence. }
    split_and!; [done| |].
    + intros k r Hkr. destruct (Hreps k r Hkr) as [? ?].
      split; [done|]. by apply first_on_server_snoc.
    + intros x [Hx| ->%list_elem_of_singleton]%elem_of_app; auto.
  - apply dict_get_None in Hget. rewrite dict_set_absent by done.
    rewrite fmap_app. cbn [fmap list_fmap fst]. split_and!.
    + apply NoDup_app. split_and!; [done| |apply NoDup_singleton].
      intros k Hk ->%list_elem_of_singleton. done.
    + intros k r [Hkr|[= -> ->]%list_elem_of_singleton]%elem_of_app.
      * destruct (Hreps k r Hkr) as [? ?].
        split; [done|]. by apply first_on_server_snoc.
      * split; [done|]. exists seen, []. split; [done|].
        intros x Hx Hsame%server_key_same.
        apply Hget. rewrite <- Hsame. by apply Hseen.
    + intros x [Hx| ->%list_elem_of_singleton]%elem_of_app;
        apply elem_of_app; [left; by apply Hseen|right].
      by apply list_elem_of_singleton.
Qed.

Lemma representatives_inv m urls :
  ∀ seen (d : list (string * string)),
  NoDup d.*1 →
  (∀ k r, (k, r) ∈ d → server_key m r = k ∧ first_on_server m seen r) →
  (∀ x, x ∈ seen → server_key m x ∈ d.*1) →
  NoDup (foldl (keep_first m) d urls).*1
  ∧ (∀ k r, (k, r) ∈ foldl (keep_first m) d urls →
       server_key m r = k ∧ first_on_server m (seen ++ urls) r)
  ∧ (∀ x, x ∈ (seen ++ urls)%list →
       server_key m x ∈ (foldl (keep_first m) d urls).*1).
Proof.
  induction urls as [|u urls IH]; intros seen d Hnd Hreps Hseen;
    cbn [foldl].
  { by rewrite app_nil_r. }
  destruct (keep_first_inv m seen d u Hnd Hreps Hseen) as (H1 & H2 & H3).
  destruct (IH (seen ++ [u])%list (keep_first m d u) H1 H2 H3)
    as (H4 & H5 & H6).
  replace (seen ++ u :: urls)%list with ((seen ++ [u]) ++ urls)%list
    by (by rewrite <- List.app_assoc).
  done.
Qed.

(** What the representatives of an architecture set are. *)
Lemma representatives_spec m urls :
  NoDup (representatives m urls)
  ∧ (∀ r, r ∈ representatives m urls → first_on_server m urls r)
  ∧ (∀ u, u ∈ urls →
       ∃ r, r ∈ representatives m urls ∧ same_server m u r)
  ∧ (∀ r1 r2, r1 ∈ representatives m urls → r2 ∈ representatives m urls →
       same_server m r1 r2 → r1 = r2).
Proof.
  unfold representatives.
  destruct (representatives_inv m urls [] [])
    as (Hnd & Hreps & Hseen); [constructor|by intros ?? ?%elem_of_nil
                              |by intros ? ?%elem_of_nil|].
  cbn [app] in Hreps, Hseen.
  set (d := foldl (keep_first m) [] urls) in *.
  assert (∀ k r1 r2, (k, r1) ∈ d → (k, r2) ∈ d → r1 = r2) as Hfun.
  { clear Hreps Hseen. induction d as [|[k0 r0] d IH]; intros k r1 r2.
    { by intros ?%elem_of_nil. }
    cbn in Hnd. apply NoDup_cons in Hnd as [Hk0 Hnd].
    intros [[= -> ->]|H1]%elem_of_cons [[= ->]|H2]%elem_of_cons.
    - done.
    - destruct Hk0. apply list_elem_of_fmap. by exists (k0, r2).
    - simplify_eq. destruct Hk0. apply list_elem_of_fmap. by exists (k0, r1).
    - by apply (IH Hnd k). }
  assert (∀ r, r ∈ d.*2 → (server_key m r, r) ∈ d) as Hval.
  { intros r ([k r'] & -> & Hkr)%list_elem_of_fmap. cbn.
    by destruct (Hreps k r' Hkr) as [-> _]. }
  split_and!.
  - apply (NoDup_fmap_1 (server_key m)).
    replace (server_key m <$> d.*2) with d.*1; [done|].
    clear Hnd Hseen Hfun Hval.
    induction d as [|[k0 r0] d IH]; [done|]. cbn [fmap list_fmap fst snd].
    destruct (Hreps k0 r0 ltac:(by left)) as [-> _]. f_equal.
    apply IH. intros k r Hkr. apply Hreps. by right.
  - intros r Hr%Hval. by destruct (Hreps _ _ Hr).
  - intros u Hu. apply Hseen in Hu.
    apply list_elem_of_fmap in Hu as ([k r] & Hk & Hkr). cbn in Hk. subst k.
    exists r. split.
    + apply list_elem_of_fmap. by exists (server_key m u, r).
    + apply server_key_same. by destruct (Hreps _ _ Hkr).
  - intros r1 r2 H1%Hval H2%Hval Hsame%server_key_same.
    rewrite Hsame in H1. by apply (Hfun (server_key m r2)).
Qed.

End DedupFacts.

(** X18. [deduplicate_by_server_within_arch_sets] turns every architecture
    set into a CPU set of the same brand and frequency whose instances are
    in ascending order without repetition and are one representative per
    server: every URL of the set has a representative on its server, two
    representatives are never on the same server, and a representative is
    the first URL of the set on its server. A URL that no server group
    lists counts as a server of its own. *)
Theorem one_representative_per_server
  (arch_to_urls : list (Prepare.arch * list string))
  (url_to_group : gmap string nat) (i : nat) (key : Prepare.arch)
  (urls : list string) :
  arch_to_urls !! i = Some (key, urls) →
  ∃ s,
    Prepare.deduplicate_by_server_within_arch_sets arch_to_urls url_to_group
      !! i = Some s
    ∧ Locator.cpu_brand s = Some key.1
    ∧ Locator.parsed_freq s = key.2
    ∧ StronglySorted String.le (Locator.instances s)
    ∧ NoDup (Locator.instances s)
    ∧ (∀ r, r ∈ Locator.instances s →
         Prepare.first_on_server url_to_group urls r)
    ∧ (∀ u, u ∈ urls →
         ∃ r, r ∈ Locator.instances s
              ∧ Prepare.same_server url_to_group u r)
    ∧ (∀ r1 r2, r1 ∈ Locator.instances s → r2 ∈ Locator.instances s →
         Prepare.same_server url_to_group r1 r2 → r1 = r2).
Proof.
  intros Hi. unfold Prepare.deduplicate_by_server_within_arch_sets.
  destruct key as [cpu_brand parsed_freq]. unfold Prepare.arch in *.
  eexists. split; [by rewrite list_lookup_fmap, Hi|].
  cbn [Locator.cpu_brand Locator.parsed_freq Locator.instances fst snd].
  destruct (DedupFacts.representatives_spec url_to_group urls)
    as (Hnd & Hfirst & Hcover & Hone).
  pose proof (merge_sort_Permutation String.le
                (Prepare.representatives url_to_group urls)) as Hperm.
  split_and!; [done|done| | | | |].
  - apply (StronglySorted_merge_sort _).
  - by rewrite Hperm.
  - intros r Hr. rewrite Hperm in Hr. by apply Hfirst.
  - intros u Hu. destruct (Hcover u Hu) as (r & Hr & Hsame).
    exists r. by rewrite Hperm.
  - intros r1 r2 H1 H2. rewrite Hperm in H1, H2. by apply Hone.
Qed.

Lemma one_representative_per_server_witness :
  ∃ s,
    Prepare.deduplicate_by_server_within_arch_sets example_arch
      (Prepare.build_url_to_group_id example_groups) !! 0%nat = Some s
    ∧ Locator.cpu_brand s = Some "AMD EPYC"
    ∧ Locator.parsed_freq s = None
    ∧ StronglySorted String.le (Locator.instances s)
    ∧ NoDup (Locator.instances s)
    ∧ (∀ r, r ∈ Locator.instances s →
         Prepare.first_on_server
           (Prepare.build_url_to_group_id example_groups)
           ["https://b/"; "https://a/"; "https://c/"; "https://d/"] r)
    ∧ (∀ u, u ∈ ["https://b/"; "https://a/"; "https://c/"; "https://d/"] →
         ∃ r, r ∈ Locator.instances s
              ∧ Prepare.same_server
                  (Prepare.build_url_to_group_id example_groups) u r)
    ∧ (∀ r1 r2, r1 ∈ Locator.instances s → r2 ∈ Locator.instances s →
         Prepare.same_server (Prepare.build_url_to_group_id example_groups)
           r1 r2 → r1 = r2).
Proof.
  apply (one_representative_per_server example_arch
           (Prepare.build_url_to_group_id example_groups) 0
           ("AMD EPYC", None)
           ["https://b/"; "https://a/"; "https://c/"; "https://d/"]).
  reflexivity.
Defined.

(** The run of the example: [b] stands for the server of [a] and [b]. *)
Example example_dedup :
  Locator.instances
    <$> Prepare.deduplicate_by_server_within_arch_sets example_arch
          (Prepare.build_url_to_group_id example_groups)
  = [["https://b/"; "https://c/"; "https://d/"]].
Proof. by vm_compute. Qed.

Module ArchFacts.
Import Prepare.

Lemma arch_eqb_sym k k' : arch_eqb k k' = arch_eqb k' k.
Proof.
  unfold arch_eqb. f_equal.
  - apply bool_decide_ext. naive_solver.
  - destruct k.2 as [x|], k'.2 as [y|]; cbn; try done.
    apply eq_true_iff_eq. rewrite !Qeq_bool_iff. split; by symmetry.
Qed.

Lemma setdefault_append_perm k u d :
  mjoin (setdefault_append k u d).*2 ≡ₚ u :: mjoin d.*2.
Proof.
  induction d as [|[k' urls] d IH]; cbn [setdefault_append]; [done|].
  destruct (arch_eqb k k').
  - cbn [fmap list_fmap snd mjoin list_join].
    change (mjoin (((k', (urls ++ [u])%list) :: d).*2))
      with ((urls ++ [u]) ++ mjoin d.*2)%list.
    change (mjoin (((k', urls) :: d).*2)) with (urls ++ mjoin d.*2)%list.
    rewrite <- List.app_assoc. cbn [app].
    by rewrite <- Permutation_middle.
  - change (mjoin (((k', urls) :: setdefault_append k u d).*2))
      with (urls ++ mjoin (setdefault_append k u d).*2)%list.
    change (mjoin (((k', urls) :: d).*2)) with (urls ++ mjoin d.*2)%list.
    rewrite IH. by rewrite <- Permutation_middle.
Qed.

Lemma setdefault_append_nonempty k u d :
  Forall (λ kv, kv.2 ≠ []) d →
  Forall (λ kv, kv.2 ≠ []) (setdefault_append k u d).
Proof.
  induction 1 as [|[k' urls] d Hne Hd IH]; cbn [setdefault_append].
  { by repeat constructor. }
  destruct (arch_eqb k k'); constructor; try done.
  cbn. by destruct urls.
Qed.

Lemma setdefault_append_keys k u d :
  (setdefault_append k u d).*1
  = if existsb (arch_eqb k) d.*1 then d.*1 else (d.*1 ++ [k])%list.
Proof.
  induction d as [|[k' urls] d IH]; cbn [setdefault_append]; [done|].
  cbn [fmap list_fmap fst existsb].
  destruct (arch_eqb k k'); [done|]. cbn [orb fmap list_fmap fst].
  rewrite IH. by destruct (existsb (arch_eqb k) d.*1).
Qed.

Lemma setdefault_append_distinct k u d :
  distinct_keys d → distinct_keys (setdefault_append k u d).
Proof.
  unfold distinct_keys. rewrite setdefault_append_keys.
  destruct (existsb (arch_eqb k) d.*1) eqn:Hex; [done|].
  intros Hd i j k1 k2 Hij Hi Hj.
  assert (∀ k', k' ∈ d.*1 → arch_eqb k k' = false) as Hnew.
  { intros k' Hk'. apply not_true_is_false. intros Heq.
    assert (existsb (arch_eqb k) d.*1 = true) as Hex'; [|congruence].
    apply existsb_exists. exists k'. split; [|done].
    by apply list_elem_of_In. }
  apply lookup_app_Some in Hi as [Hi|[Hli Hi]];
    apply lookup_app_Some in Hj as [Hj|[Hlj Hj]].
  - by apply (Hd i j).
  - apply list_lookup_singleton_Some in Hj as [_ <-].
    rewrite arch_eqb_sym. apply Hnew. by eapply list_elem_of_lookup_2.
  - apply list_lookup_singleton_Some in Hi as [_ <-].
    apply Hnew. by eapply list_elem_of_lookup_2.
  - apply list_lookup_singleton_Some in Hi as [Hi _].
    apply list_lookup_singleton_Some in Hj as [Hj _]. lia.
Qed.

Section World.
Context `{Net W} `{InfoJson}.

Lemma group_each_spec urls info_endpoint timeout d (w : W) :
  match group_each urls info_endpoint timeout d w with
  | Ok (d', _) =>
      mjoin d'.*2 ≡ₚ (mjoin d.*2 ++ urls)%list
      ∧ (Forall (λ kv, kv.2 ≠ []) d → Forall (λ kv, kv.2 ≠ []) d')
      ∧ (distinct_keys d → distinct_keys d')
  | Exn _ => True
  end.
Proof.
  revert d w. induction urls as [|u urls IH]; intros d w;
    cbn [group_each].
  { by rewrite app_nil_r. }
  destruct (fetch_cpu_info u info_endpoint timeout w) as [[answer w1]|e];
    [|done].
  destruct (arch_key_of answer) as [arch_key|e]; [|done].
  specialize (IH (setdefault_append arch_key u d) w1).
  destruct (group_each urls _ _ _ w1) as [[d' w']|e]; [|done].
  destruct IH as (Hperm & Hne & Hdist). split_and!.
  - rewrite Hperm, setdefault_append_perm. cbn [app].
    by rewrite <- Permutation_middle.
  - intros Hd. by apply Hne, setdefault_append_nonempty.
  - intros Hd. by apply Hdist, setdefault_append_distinct.
Qed.

End World.

End ArchFacts.

(** X19. When [group_by_architecture] returns, the architecture sets hold
    every URL exactly as often as the input lists it (each URL is in one
    set), no set is empty and no two sets have equal keys, whatever the
    order in which the workers complete. *)
Theorem architecture_sets_partition `{Net W} `{Prepare.InfoJson} `{PyOrder}
  (urls : list string) (info_endpoint : string) (timeout : Q) (w : W)
  (arch_to_urls : list (Prepare.arch * list string)) (w' : W) :
  Prepare.group_by_architecture urls info_endpoint timeout w
  = Ok (arch_to_urls, w') →
  mjoin arch_to_urls.*2 ≡ₚ urls
  ∧ Forall (λ kv, kv.2 ≠ []) arch_to_urls
  ∧ Prepare.distinct_keys arch_to_urls.
Proof.
  unfold Prepare.group_by_architecture.
  pose proof (ArchFacts.group_each_spec (as_completed urls) info_endpoint
                timeout [] w) as Hspec.
  destruct (Prepare.group_each _ _ _ _ w) as [[d w1]|e]; [|done].
  intros [= <- <-].
  destruct Hspec as (Hperm & Hne & Hdist). split_and!.
  - rewrite Hperm. cbn [fmap list_fmap mjoin list_join app].
    apply as_completed_perm.
  - apply Hne. constructor.
  - apply Hdist. intros i j k1 k2 _ Hi. by destruct i.
Qed.

(** The example: [a] and [c] answer, [b] does not and is filed under the
    brand "unknown". *)
Example example_architectures :
  (@Prepare.group_by_architecture _ _ brand_only elements_order
     ["https://a/"; "https://b/"; "https://c/"] "info" 10 info_world)
  = Ok ([(("AMD EPYC", None), ["https://a/"]);
         (("unknown", None), ["https://b/"]);
         (("Intel Xeon", None), ["https://c/"])],
        {| Script.now := 0; Script.pending := [] |}).
Proof. by vm_compute. Qed.

Lemma architecture_sets_partition_witness :
  mjoin [["https://a/"]; ["https://b/"]; ["https://c/"]]
  ≡ₚ ["https://a/"; "https://b/"; "https://c/"]
  ∧ Forall (λ kv : Prepare.arch * list string, kv.2 ≠ [])
      [(("AMD EPYC", None), ["https://a/"]);
       (("unknown", None), ["https://b/"]);
       (("Intel Xeon", None), ["https://c/"])]
  ∧ Prepare.distinct_keys
      [(("AMD EPYC", None), ["https://a/"]);
       (("unknown", None), ["https://b/"]);
       (("Intel Xeon", None), ["https://c/"])].
Proof.
  exact (@architecture_sets_partition _ _ brand_only elements_order
           ["https://a/"; "https://b/"; "https://c/"] "info" 10 info_world
           _ _ example_architectures).
Defined.

(** A brand that is a list cannot be a key: the grouping raises. *)
Example unhashable_brand :
  (@Prepare.group_by_architecture _ _ brand_only elements_order
     ["https://a/"] "info" 10
     (Script.start [Script.ok "https://a/info" "[]"]))
  = Exn "TypeError".
Proof. by vm_compute. Qed.

Module PipelineFacts.
Import Prepare.

Lemma dedup_elem_of arch_to_urls url_to_group s :
  s ∈ deduplicate_by_server_within_arch_sets arch_to_urls url_to_group →
  ∃ key urls,
    (key, urls) ∈ arch_to_urls
    ∧ Locator.instances s
      = merge_sort String.le (representatives url_to_group urls).
Proof.
  unfold deduplicate_by_server_within_arch_sets.
  intros ([[brand freq] urls] & -> & Hin)%list_elem_of_fmap.
  by exists (brand, freq), urls.
Qed.

Lemma dedup_elem_of_2 arch_to_urls url_to_group key urls :
  (key, urls) ∈ arch_to_urls →
  ∃ s,
    s ∈ deduplicate_by_server_within_arch_sets arch_to_urls url_to_group
    ∧ Locator.instances s
      = merge_sort String.le (representatives url_to_group urls).
Proof.
  intros Hin. destruct key as [brand freq]. eexists. split.
  - unfold deduplicate_by_server_within_arch_sets.
    apply list_elem_of_fmap. by eexists (_, _).
  - done.
Qed.

End PipelineFacts.

(** X20. What [main] of the preparation hands to [json.dump]. It exits at
    once, with no request made, exactly when no URL was loaded. When it
    gets as far as the output, the server groups were loaded, there is at
    least one CPU set and no CPU set is empty (so that the localizer tests
    every set), every instance is a loaded URL, and every loaded URL has, in
    some CPU set, a representative on its server. The URL file and the file
    of the server groups may fail to load; the latter is read after the
    requests. *)
Theorem prepared_sets_cover `{Net W} `{Prepare.InfoJson} `{PyOrder}
  (urls_file : result (list string))
  (server_groups : result (list PerURL.group))
  (info_endpoint : string) (timeout : Q) (w : W) :
  (Prepare.main urls_file server_groups info_endpoint timeout w
   = Ok (None, w)
   ↔ ∃ lines, urls_file = Ok lines ∧ Prepare.load_urls lines = [])
  ∧ (∀ w', Prepare.main urls_file server_groups info_endpoint timeout w
           = Ok (None, w') → w' = w)
  ∧ ∀ cpu_sets w',
      Prepare.main urls_file server_groups info_endpoint timeout w
      = Ok (Some cpu_sets, w') →
      ∃ lines groups,
        urls_file = Ok lines
        ∧ server_groups = Ok groups
        ∧ cpu_sets ≠ []
        ∧ Forall (λ s, Locator.instances s ≠ []) cpu_sets
        ∧ (∀ s r, s ∈ cpu_sets → r ∈ Locator.instances s →
             r ∈ Prepare.load_urls lines)
        ∧ (∀ u, u ∈ Prepare.load_urls lines →
             ∃ s r, s ∈ cpu_sets ∧ r ∈ Locator.instances s
                    ∧ Prepare.same_server
                        (Prepare.build_url_to_group_id groups) u r).
Proof.
  unfold Prepare.main.
  destruct urls_file as [lines|e].
  2: { split_and!; [|done..]. split; [done|]. by intros (? & ? & _). }
  destruct (Prepare.load_urls lines) as [|u0 urls0] eqn:Hload.
  { split_and!; [|by intros w' [= <-]|done].
    split; [|done]. intros _. by exists lines. }
  assert (¬ ∃ lines0, Ok lines = Ok lines0 ∧ Prepare.load_urls lines0 = [])
    as Hno.
  { intros (lines0 & [= <-] & Hnil). congruence. }
  unfold Prepare.group_by_architecture.
  pose proof (ArchFacts.group_each_spec (as_completed (u0 :: urls0))
                info_endpoint timeout [] w) as Harch.
  destruct (Prepare.group_each _ _ _ _ w) as [[d w1]|e];
    [|split_and!; [by split|done|done]].
  destruct server_groups as [groups|e];
    [|split_and!; [by split|done|done]].
  split_and!; [by split|done|].
  intros cpu_sets w' [= <- <-]. exists lines, groups.
  split; [done|]. split; [done|]. rewrite Hload.
  destruct Harch as (Hperm & Hne & _).
  specialize (Hne ltac:(constructor)).
  cbn [fmap list_fmap mjoin list_join app] in Hperm.
  rewrite as_completed_perm in Hperm.
  set (m := Prepare.build_url_to_group_id groups).
  assert (∀ key urls, (key, urls) ∈ d → ∀ u, u ∈ urls → u ∈ u0 :: urls0)
    as Hsub.
  { intros key urls Hin u Hu. rewrite <- Hperm. apply list_elem_of_join.
    exists urls. split; [done|]. apply list_elem_of_fmap.
    by exists (key, urls). }
  split_and!.
  - destruct d as [|kv d]; [|done].
    apply Permutation_nil_l in Hperm. done.
  - apply Forall_forall. intros s (key & urls & Hin & ->)
      %PipelineFacts.dedup_elem_of.
    apply (proj1 (Forall_forall _ _) Hne) in Hin as Hurls. cbn in Hurls.
    destruct urls as [|u urls]; [done|].
    destruct (DedupFacts.representatives_spec m (u :: urls))
      as (_ & _ & Hcover & _).
    destruct (Hcover u ltac:(by left)) as (r & Hr & _).
    intros Hnil.
    rewrite <- (merge_sort_Permutation String.le) in Hr.
    rewrite Hnil in Hr. by apply elem_of_nil in Hr.
  - intros s r (key & urls & Hin & ->)%PipelineFacts.dedup_elem_of Hr.
    rewrite merge_sort_Permutation in Hr.
    destruct (DedupFacts.representatives_spec m urls)
      as (_ & Hfirst & _ & _).
    destruct (Hfirst r Hr) as (before & after & Hurls & _).
    apply (Hsub key urls Hin). rewrite Hurls.
    apply elem_of_app. right. by left.
  - intros u Hu. rewrite <- Hperm in Hu.
    apply list_elem_of_join in Hu as (urls & Hu & Hurls).
    apply list_elem_of_fmap in Hurls as ([key urls'] & Heq & Hin).
    cbn in Heq. subst urls'.
    destruct (PipelineFacts.dedup_elem_of_2 d m key urls Hin)
      as (s & Hs & Hinst).
    destruct (DedupFacts.representatives_spec m urls)
      as (_ & _ & Hcover & _).
    destruct (Hcover u Hu) as (r & Hr & Hsame).
    exists s, r. split_and!; [done| |done].
    rewrite Hinst. by rewrite merge_sort_Permutation.
Qed.

(** A run of [main]: two comment and blank lines are skipped, [a] and [b]
    share a server and an architecture, so [a] stands for both. *)
Example example_prepare :
  Locator.instances
  <$> default []
        (match @Prepare.main _ _ brand_only elements_order
                 (Ok ["# attackers"; " https://a/ "; ""; "https://b/";
                      "https://c/"])
                 (Ok example_groups) "info" 10
                 (Script.start
                    [Script.ok "https://a/info" "AMD EPYC";
                     Script.ok "https://b/info" "AMD EPYC";
                     Script.ok "https://c/info" "Intel Xeon"]) with
         | Ok (cpu_sets, _) => cpu_sets
         | Exn _ => None
         end)
  = [["https://a/"]; ["https://c/"]].
Proof. by vm_compute. Qed.

(** X21. The two scripts compose: on the groups that
    [identify_server_coverage] returns, [build_url_to_group_id] has an
    entry exactly for the instance URLs given to the identifier, and the
    entry of a URL is the index of the one group that contains it (no
    choice of a last group is ever made). *)
Theorem coverage_groups_index `{Net W} `{PyOrder} (fuel : nat)
  (threshold : Z) (instance_urls : list string) (w : W)
  (groups : list PerURL.group) (w' : W) (url : string) :
  PerURL.identify_server_coverage fuel (Some threshold) instance_urls w
  = Returned (groups, w') →
  (url ∈ instance_urls
   ↔ is_Some (Prepare.build_url_to_group_id groups !! url))
  ∧ ∀ gid,
      Prepare.build_url_to_group_id groups !! url = Some gid
      ↔ ∃ g, groups !! gid = Some g ∧ url ∈ PerURL.members g.
Proof.
  unfold PerURL.identify_server_coverage.
  destruct (PerURL.coverage_loop fuel threshold _) as [st'| |] eqn:Hloop;
    [|done..].
  intros [= <- <-].
  eapply (PerURLFacts.coverage_loop_splits (list_to_set instance_urls))
    in Hloop; [|apply splits_start].
  apply splits_done in Hloop as (Hcover & _ & Hdisjoint).
  cbn [PerURL.remaining PerURL.groups] in *.
  unfold Prepare.build_url_to_group_id.
  destruct (GroupIdFacts.last_with url (PerURL.groups st'))
    as [Hnone|(before & g & after & Hgroups & Hg & Hafter)].
  - rewrite GroupIdFacts.build_from_miss, lookup_empty by done.
    assert (url ∉ instance_urls) as Hout.
    { intros Hin%(elem_of_list_to_set (C := gset string)).
      apply Hcover in Hin as (p & (g & -> & Hg)%list_elem_of_fmap & Hp).
      by apply (proj1 (Forall_forall _ _) Hnone g Hg). }
    split.
    + split; [done|]. by intros [? ?].
    + intros gid. split; [done|]. intros (g & Hg%list_elem_of_lookup_2 & Hin).
      by destruct (proj1 (Forall_forall _ _) Hnone g Hg).
  - rewrite Hgroups.
    rewrite (GroupIdFacts.build_from_hit 0 before g after ∅ url Hg Hafter).
    cbn [Nat.add].
    assert ((before ++ g :: after)%list !! length before = Some g) as Hlook
      by (by rewrite lookup_app_r, Nat.sub_diag by lia).
    split.
    + split; [by eexists|]. intros _.
      apply (elem_of_list_to_set (C := gset string)), Hcover.
      exists (PerURL.members g). split; [|done].
      apply list_elem_of_fmap. exists g. split; [done|].
      rewrite Hgroups. apply elem_of_app. right. by left.
    + intros gid. split.
      * intros [= <-]. by exists g.
      * intros (g' & Hg' & Hin'). f_equal.
        destruct (decide (length before = gid)) as [|Hne]; [done|].
        exfalso.
        apply (Hdisjoint (length before) gid (PerURL.members g)
                 (PerURL.members g') url); [| |done|done|done].
        -- by rewrite list_lookup_fmap, Hgroups, Hlook.
        -- by rewrite list_lookup_fmap, Hgroups, Hg'.
Qed.

Lemma coverage_groups_index_witness :
  ("B/" ∈ example_urls
   ↔ is_Some
       (Prepare.build_url_to_group_id
          [{| PerURL.lock_url := "A/"; PerURL.members := ["A/"; "B/"] |};
           {| PerURL.lock_url := "C/"; PerURL.members := ["C/"] |};
           {| PerURL.lock_url := "D/"; PerURL.members := ["D/"] |}]
        !! "B/"))
  ∧ ∀ gid,
      Prepare.build_url_to_group_id
        [{| PerURL.lock_url := "A/"; PerURL.members := ["A/"; "B/"] |};
         {| PerURL.lock_url := "C/"; PerURL.members := ["C/"] |};
         {| PerURL.lock_url := "D/"; PerURL.members := ["D/"] |}]
      !! "B/" = Some gid
      ↔ ∃ g,
          [{| PerURL.lock_url := "A/"; PerURL.members := ["A/"; "B/"] |};
           {| PerURL.lock_url := "C/"; PerURL.members := ["C/"] |};
           {| PerURL.lock_url := "D/"; PerURL.members := ["D/"] |}]
          !! gid = Some g
          ∧ "B/" ∈ PerURL.members g.
Proof.
  exact (@coverage_groups_index _ _ sorted_order 4 1000 example_urls
           example_world _ _ "B/" example_coverage).
Defined.

(** * The URLs of the discovery *)

Module DiscoveryFacts.

Lemma length_app (s t : string) :
  String.length (s ++ t) = (String.length s + String.length t)%nat.
Proof.
  induction s as [|c s IH]; [done|].
  rewrite PatternFacts.app_cons. cbn [String.length]. by rewrite IH.
Qed.

Lemma app_inj_r (s1 s2 t : string) :
  (s1 ++ t)%string = (s2 ++ t)%string → s1 = s2.
Proof.
  revert s2. induction s1 as [|c s1 IH]; intros [|d s2] Heq.
  - done.
  - apply (f_equal String.length) in Heq.
    rewrite PatternFacts.app_nil_l, length_app in Heq.
    cbn [String.length] in Heq. lia.
  - apply (f_equal String.length) in Heq.
    rewrite PatternFacts.app_nil_l, length_app in Heq.
    cbn [String.length] in Heq. lia.
  - rewrite !PatternFacts.app_cons in Heq. injection Heq as -> Heq.
    f_equal. by apply IH.
Qed.

End DiscoveryFacts.

(** X22. [generate_urls(base_url, start, end)] lists one URL for each
    index from start to end, in this order and none for an empty range,
    and the URLs of different indices are different: no two saved answers
    come from the same URL. *)
Theorem generate_urls_distinct (base_url : string) (start end_ : Z) :
  length (Discovery.generate_urls base_url start end_)
  = Z.to_nat (end_ + 1 - start)
  ∧ NoDup (Discovery.generate_urls base_url start end_)
  ∧ ∀ k url,
      Discovery.generate_urls base_url start end_ !! k = Some url
      ↔ url = (base_url ++ pretty (start + Z.of_nat k)
               ++ ".xxx.net/instance_id")%string
        ∧ start + Z.of_nat k ≤ end_.
Proof.
  unfold Discovery.generate_urls. split_and!.
  - by rewrite length_fmap, length_seqZ.
  - apply NoDup_fmap_2_strong; [|apply NoDup_seqZ].
    intros i j _ _ Heq%(inj (String.app base_url)).
    apply DiscoveryFacts.app_inj_r in Heq. by apply (inj pretty).
  - intros k url. rewrite list_lookup_fmap.
    destruct (seqZ start (end_ + 1 - start) !! k) as [i|] eqn:Hk; cbn.
    + apply lookup_seqZ in Hk as [-> Hlt]. split.
      * intros [= <-]. split; [done|lia].
      * by intros [-> _].
    + split; [done|]. intros [_ Hle].
      assert (seqZ start (end_ + 1 - start) !! k
              = Some (start + Z.of_nat k)) as Hsome
        by (apply lookup_seqZ; lia).
      congruence.
Qed.

(** * Degenerate inputs *)

(** X23. Given a single instance (listed once or several times),
    [identify_server_coverage] returns its singleton group without sending
    any request and without waiting: the world is left as it was. Given no
    instance at all, it returns no group, again without a request. *)
Theorem single_instance_no_request `{Net W} `{PyOrder} (fuel : nat)
  (threshold : Z) (instance_urls : list string) (x : string) (w : W) :
  (∀ u, u ∈ instance_urls → u = x) →
  PerURL.identify_server_coverage (S fuel) (Some threshold) instance_urls w
  = Returned
      (match instance_urls with
       | [] => []
       | _ => [{| PerURL.lock_url := x; PerURL.members := [x] |}]
       end, w).
Proof.
  intros Hall. unfold PerURL.identify_server_coverage.
  destruct instance_urls as [|u urls].
  { cbn [PerURL.coverage_loop list_to_set foldr].
    by rewrite bool_decide_true. }
  assert (list_to_set (u :: urls) = ({[x]} : gset string)) as ->.
  { apply set_eq. intros y. rewrite elem_of_list_to_set, elem_of_singleton.
    split; [apply Hall|]. intros ->. rewrite <- (Hall u); by left. }
  cbn [PerURL.coverage_loop PerURL.remaining].
  rewrite bool_decide_false by set_solver.
  unfold PerURL.iteration. cbn [PerURL.remaining PerURL.world].
  assert (set_iter ({[x]} : gset string) = [x]) as ->.
  { apply Permutation_singleton_r. rewrite set_iter_perm.
    by rewrite elements_singleton. }
  rewrite filter_cons_False by naive_solver. rewrite filter_nil.
  done.
Qed.

Lemma single_instance_no_request_witness :
  @PerURL.identify_server_coverage _ _ sorted_order 1 (Some 1000)
    ["A/"; "A/"] example_world
  = Returned ([{| PerURL.lock_url := "A/"; PerURL.members := ["A/"] |}],
              example_world).
Proof.
  apply (@single_instance_no_request _ _ sorted_order 0 1000 ["A/"; "A/"]
           "A/" example_world).
  intros u Hu. apply list_elem_of_In in Hu. cbn in Hu.
  by destruct Hu as [<-|[<-|[]]].
Defined.
